(** * Fiber opportunity scoring model

    A shallow embedding of [scripts/build_scoring_model.py]: the pandas
    pipeline that merges the ACS, FCC BDC and RUCC tables at tract level,
    derives ratio metrics, converts them to percentile scores, blends four
    sub-scores into the composite opportunity score, ranks and tiers the
    tracts, and writes the tract and county tables.

    Numbers.  A pandas numeric cell is modelled by [Float.t]: an exact
    rational, one of the two infinities, or NaN, which is how pandas
    represents a missing number.  Float arithmetic follows IEEE 754 on the
    special values (x/0 is an infinity, 0/0 and inf-inf are NaN, comparisons
    with NaN are false) and is exact on finite values: rounding and overflow
    of binary64 are outside this model.  A column of whole numbers is an
    int64 column: sums and differences of int64 columns wrap around at
    2^63, as numpy computes them (see [dtype] below).

    Tables.  A DataFrame is a list of row records, a Series a list of
    cells; vectorised arithmetic is [map] and [zipWith]. *)

From Stdlib Require Import Ascii String DecimalString.
From Stdlib Require Import QArith Qabs Qround ZArith List Bool Arith Lia Lqa.
From Stdlib Require Import Sorted.
Import ListNotations.
Open Scope Q_scope.

(** ** Floating-point cells *)

Definition Qlt_bool (x y : Q) : bool := negb (Qle_bool y x).

Definition Qnat (n : nat) : Q := inject_Z (Z.of_nat n).

Module Float.

Inductive t : Type :=
| Fin (q : Q)
| PInf
| NInf
| NaN.

Definition isna (x : t) : bool :=
  match x with NaN => true | _ => false end.

Definition notna (x : t) : bool := negb (isna x).

Definition is_inf (x : t) : bool :=
  match x with PInf | NInf => true | _ => false end.

Definition neg (x : t) : t :=
  match x with
  | Fin q => Fin (- q)
  | PInf => NInf
  | NInf => PInf
  | NaN => NaN
  end.

Definition add (x y : t) : t :=
  match x, y with
  | NaN, _ | _, NaN => NaN
  | Fin a, Fin b => Fin (a + b)
  | PInf, NInf | NInf, PInf => NaN
  | PInf, _ | _, PInf => PInf
  | NInf, _ | _, NInf => NInf
  end.

Definition sub (x y : t) : t := add x (neg y).

(** An infinity times [q]: NaN at zero, otherwise signed. *)
Definition inf_times (positive : bool) (q : Q) : t :=
  if Qeq_bool q 0 then NaN
  else if Bool.eqb positive (Qlt_bool 0 q) then PInf else NInf.

Definition mul (x y : t) : t :=
  match x, y with
  | NaN, _ | _, NaN => NaN
  | Fin a, Fin b => Fin (a * b)
  | PInf, Fin q | Fin q, PInf => inf_times true q
  | NInf, Fin q | Fin q, NInf => inf_times false q
  | PInf, PInf | NInf, NInf => PInf
  | PInf, NInf | NInf, PInf => NInf
  end.

(** True division as numpy does it on float arrays: no exception, a
    nonzero value over zero is an infinity and 0/0 is NaN. *)
Definition div (x y : t) : t :=
  match x, y with
  | NaN, _ | _, NaN => NaN
  | Fin a, Fin b =>
      if Qeq_bool b 0 then
        if Qeq_bool a 0 then NaN
        else if Qlt_bool 0 a then PInf else NInf
      else Fin (a / b)
  | Fin _, (PInf | NInf) => Fin 0
  | (PInf | NInf), (PInf | NInf) => NaN
  | PInf, Fin b => if Qlt_bool b 0 then NInf else PInf
  | NInf, Fin b => if Qlt_bool b 0 then PInf else NInf
  end.

(** Comparisons: anything involving NaN is false. *)
Definition ltb (x y : t) : bool :=
  match x, y with
  | NaN, _ | _, NaN => false
  | Fin a, Fin b => Qlt_bool a b
  | _, NInf => false
  | PInf, _ => false
  | NInf, _ => true
  | Fin _, PInf => true
  end.

Definition eqb (x y : t) : bool :=
  match x, y with
  | Fin a, Fin b => Qeq_bool a b
  | PInf, PInf | NInf, NInf => true
  | _, _ => false
  end.

Definition gtb (x y : t) : bool := ltb y x.

Definition leb (x y : t) : bool := ltb x y || eqb x y.

Definition of_nat (n : nat) : t := Fin (Qnat n).

End Float.

Abbreviation Fin := Float.Fin.
Abbreviation NaN := Float.NaN.
Abbreviation PInf := Float.PInf.
Abbreviation NInf := Float.NInf.

Definition Series := list Float.t.

(** ** Series primitives *)

Definition count {A} (p : A -> bool) (s : list A) : nat := length (filter p s).

Fixpoint zipWith {A B C} (f : A -> B -> C) (l1 : list A) (l2 : list B) : list C :=
  match l1, l2 with
  | a :: l1', b :: l2' => f a b :: zipWith f l1' l2'
  | _, _ => []
  end.

(** [s * c], [s1 + s2], [s1 * s2] on Series. *)
Definition smul (s : Series) (c : Q) : Series := map (fun x => Float.mul x (Fin c)) s.
Definition sadd (s1 s2 : Series) : Series := zipWith Float.add s1 s2.
Definition sprod (s1 s2 : Series) : Series := zipWith Float.mul s1 s2.

(** [Series.fillna(v)] and [Series.replace(a, b)]. *)
Definition fillna (s : Series) (v : Float.t) : Series :=
  map (fun x => if Float.isna x then v else x) s.

Definition replace (a b : Float.t) (x : Float.t) : Float.t :=
  if Float.eqb x a then b else x.

(** ** Column types

    [read_csv] gives a numeric column the dtype int64 when every cell of
    the file is a whole number in the int64 range, and float64 as soon as
    one cell is missing or has a fraction.  (A whole cell [Fin q] stands
    for an integer literal; a whole number beyond the int64 range, which
    pandas reads as uint64 or as an object, makes the column float64
    here.)  Merges, row filters and [copy] keep the dtype of a column.
    [+] and [-] on two int64 columns are computed in int64 and wrap
    around; when one column is float64 the other is converted first.  True
    division always gives float64. *)

Inductive dtype := int64 | float64.

Definition is_int64 (t : dtype) : bool :=
  match t with int64 => true | float64 => false end.

Definition wrap64 (z : Z) : Z := ((z + 2 ^ 63) mod 2 ^ 64 - 2 ^ 63)%Z.

Definition whole (x : Float.t) : bool :=
  match x with
  | Fin q =>
      Qeq_bool q (inject_Z (Qfloor q))
      && (- 2 ^ 63 <=? Qfloor q)%Z && (Qfloor q <? 2 ^ 63)%Z
  | _ => false
  end.

Definition read_dtype (s : Series) : dtype :=
  if forallb whole s then int64 else float64.

(** The dtype of [a + b] and [a - b]. *)
Definition promote (a b : dtype) : dtype :=
  match a, b with
  | int64, int64 => int64
  | _, _ => float64
  end.

(** A binary operation on two cells of columns whose common dtype is
    [t]. *)
Definition int_op (op : Z -> Z -> Z) (fop : Float.t -> Float.t -> Float.t)
                  (t : dtype) (x y : Float.t) : Float.t :=
  match t with
  | int64 =>
      match x, y with
      | Fin a, Fin b => Fin (inject_Z (wrap64 (op (Qfloor a) (Qfloor b))))
      | _, _ => fop x y
      end
  | float64 => fop x y
  end.

Definition add_as : dtype -> Float.t -> Float.t -> Float.t := int_op Z.add Float.add.
Definition sub_as : dtype -> Float.t -> Float.t -> Float.t := int_op Z.sub Float.sub.

(** ** [Series.rank]

    pandas ranks with [method="average"] unless told otherwise: the values
    are put in order, tied values share the mean of the positions they
    occupy.  With [na_option="keep"] a missing value has a missing rank and
    does not count; with [na_option="bottom"] the missing values come after
    every present value, tied among themselves, whatever [ascending] is.
    With [pct=True] the rank is divided by the number of ranked cells. *)

Inductive na_option := na_keep | na_bottom.

(** Mean of the positions [before+1 .. before+ties]. *)
Definition average_rank (before ties : nat) : Q :=
  Qnat before + (Qnat ties + 1) / 2.

Definition rank_of (s : Series) (ascending : bool) (na : na_option) (x : Float.t) : Float.t :=
  match x with
  | NaN =>
      match na with
      | na_keep => NaN
      | na_bottom => Fin (average_rank (count Float.notna s) (count Float.isna s))
      end
  | _ =>
      let before := count (fun y => if ascending then Float.ltb y x else Float.ltb x y) s in
      let ties := count (Float.eqb x) s in
      Fin (average_rank before ties)
  end.

Definition rank (s : Series) (ascending pct : bool) (na : na_option) : Series :=
  let ranked := match na with
                | na_keep => count Float.notna s
                | na_bottom => length s
                end in
  map (fun x =>
         let r := rank_of s ascending na x in
         if pct then Float.div r (Float.of_nat ranked) else r) s.

(** ** Percentile normalizer *)

Definition percentile_score (series : Series) (ascending : bool) : Series :=
  let ranks := rank series true true na_bottom in
  let ranks := if ascending then ranks else map (Float.sub (Fin 1)) ranks in
  smul ranks 100.

(** ** Input tables

    Only the columns the scoring script reads are kept.  A text cell that
    may be empty in the CSV is an [option string]. *)

Module ACS.
Record row := {
  GEOID : string;
  total_population : Float.t;
  hh_total : Float.t;
  hh_no_internet : Float.t;
  hh_cellular_only : Float.t;
  hh_broadband_any : Float.t;
  hh_cable_fiber_dsl : Float.t;
  median_hh_income : Float.t;
  edu_total_25plus : Float.t;
  edu_bachelors : Float.t;
  edu_masters : Float.t;
  edu_professional : Float.t;
  edu_doctorate : Float.t;
  emp_civilian_labor : Float.t;
  emp_unemployed : Float.t;
  race_total : Float.t;
  race_nh_white : Float.t;
  comp_total_hh : Float.t;
  comp_no_computer : Float.t
}.

Definition set_median_hh_income (v : Float.t) (r : row) : row :=
  {| GEOID := GEOID r;
     total_population := total_population r;
     hh_total := hh_total r;
     hh_no_internet := hh_no_internet r;
     hh_cellular_only := hh_cellular_only r;
     hh_broadband_any := hh_broadband_any r;
     hh_cable_fiber_dsl := hh_cable_fiber_dsl r;
     median_hh_income := v;
     edu_total_25plus := edu_total_25plus r;
     edu_bachelors := edu_bachelors r;
     edu_masters := edu_masters r;
     edu_professional := edu_professional r;
     edu_doctorate := edu_doctorate r;
     emp_civilian_labor := emp_civilian_labor r;
     emp_unemployed := emp_unemployed r;
     race_total := race_total r;
     race_nh_white := race_nh_white r;
     comp_total_hh := comp_total_hh r;
     comp_no_computer := comp_no_computer r |}.
End ACS.

Module FCC.
Record row := {
  GEOID : string;
  CountyName : option string;
  StateAbbr : option string;
  TotalBSLs : Float.t;
  UnservedBSLs : Float.t;
  UnderservedBSLs : Float.t;
  ServedBSLs : Float.t;
  ServedBSLsCopper : Float.t;
  UnservedBSLsFiber : Float.t;
  ServedBSLsFiber : Float.t;
  UniqueProviders : Float.t;
  UniqueProvidersFiber : Float.t
}.
End FCC.

Module RUCC.
Record row := {
  FIPS : N;
  RUCC_2023 : Float.t;
  Population_2020 : Float.t;
  Description : option string
}.
End RUCC.

(** A row of the merged table: the ACS columns, the FCC columns, and the
    columns the RUCC join adds. *)
Record tract := {
  acs : ACS.row;
  fcc : FCC.row;
  county_geoid : string;
  rucc_code : Float.t;
  county_pop_2020 : Float.t;
  rucc_description : option string
}.

Definition GEOID (r : tract) : string := ACS.GEOID (acs r).

(** The dtypes of the numeric columns of the two files, by column. *)
Record dtypes := {
  acs_dtype : (ACS.row -> Float.t) -> dtype;
  fcc_dtype : (FCC.row -> Float.t) -> dtype
}.

Definition read_dtypes (acs_t : list ACS.row) (fcc_t : list FCC.row) : dtypes :=
  {| acs_dtype := fun c => read_dtype (map c acs_t);
     fcc_dtype := fun c => read_dtype (map c fcc_t) |}.

(** ** Dataset loader *)

(** [str(n)] for a non-negative integer. *)
Definition str (n : N) : string := NilEmpty.string_of_uint (N.to_uint n).

Fixpoint zeros (n : nat) : string :=
  match n with
  | O => EmptyString
  | S n' => String "0"%char (zeros n')
  end.

(** [s.zfill(width)] on an unsigned numeral. *)
Definition zfill (width : nat) (s : string) : string :=
  (zeros (width - String.length s) ++ s)%string.

(** [acs.merge(fcc, on="GEOID", how="inner")]: the pairs with equal keys,
    in the order of the left table. *)
Definition merge_inner (acs_t : list ACS.row) (fcc_t : list FCC.row)
  : list (ACS.row * FCC.row) :=
  flat_map (fun a =>
              map (pair a)
                  (filter (fun f => String.eqb (ACS.GEOID a) (FCC.GEOID f)) fcc_t))
           acs_t.

(** [merged.merge(rucc, on="county_geoid", how="left")]: every left row is
    kept; without a match its RUCC columns are missing. *)
Definition merge_left (merged : list (ACS.row * FCC.row * string))
                      (rucc_t : list (string * RUCC.row)) : list tract :=
  flat_map (fun '(a, f, cg) =>
              match filter (fun kr => String.eqb cg (fst kr)) rucc_t with
              | [] => [ {| acs := a; fcc := f; county_geoid := cg;
                           rucc_code := NaN; county_pop_2020 := NaN;
                           rucc_description := None |} ]
              | ms => map (fun kr =>
                             {| acs := a; fcc := f; county_geoid := cg;
                                rucc_code := RUCC.RUCC_2023 (snd kr);
                                county_pop_2020 := RUCC.Population_2020 (snd kr);
                                rucc_description := RUCC.Description (snd kr) |}) ms
              end)
           merged.

(** The retention filter of the loader. *)
Definition retained (r : tract) : bool :=
  Float.gtb (ACS.total_population (acs r)) (Fin 0)
  && Float.gtb (ACS.hh_total (acs r)) (Fin 0)
  && Float.gtb (FCC.TotalBSLs (fcc r)) (Fin 0).

Definition census_na : Q := -666666666.

Definition clean_income (r : tract) : tract :=
  {| acs := ACS.set_median_hh_income
              (replace (Fin census_na) NaN (ACS.median_hh_income (acs r))) (acs r);
     fcc := fcc r;
     county_geoid := county_geoid r;
     rucc_code := rucc_code r;
     county_pop_2020 := county_pop_2020 r;
     rucc_description := rucc_description r |}.

Definition load_and_merge (acs_t : list ACS.row) (fcc_t : list FCC.row)
                          (rucc_t : list RUCC.row) : list tract :=
  let rucc := map (fun r => (zfill 5 (str (RUCC.FIPS r)), r)) rucc_t in
  let merged := merge_inner acs_t fcc_t in
  let merged := map (fun '(a, f) => (a, f, substring 0 5 (ACS.GEOID a))) merged in
  let merged := merge_left merged rucc in
  let merged := filter retained merged in
  map clean_income merged.

(** ** Derived metrics *)

Record metrics := {
  pct_unserved : Float.t;
  pct_underserved : Float.t;
  pct_unserved_underserved : Float.t;
  pct_fiber_unserved : Float.t;
  pct_no_fiber : Float.t;
  pct_copper_served : Float.t;
  has_fiber : Z;
  pct_no_internet : Float.t;
  pct_cellular_only : Float.t;
  pct_broadband : Float.t;
  pct_cable_fiber_dsl : Float.t;
  pct_served : Float.t;
  adoption_gap : Float.t;
  pct_bachelors_plus : Float.t;
  unemployment_rate : Float.t;
  pct_minority : Float.t;
  hh_per_bsl : Float.t;
  pct_no_computer : Float.t
}.

Declare Scope float_scope.
Delimit Scope float_scope with fl.
Infix "+" := Float.add : float_scope.
Infix "-" := Float.sub : float_scope.
Infix "*" := Float.mul : float_scope.
Infix "/" := Float.div : float_scope.

(** The column assignments of [compute_derived_metrics] are row-wise: each
    new cell is computed from cells of the same row, in the arithmetic of
    the columns' dtypes [dt], which the frame has from the files. *)
Definition derived (dt : dtypes) (r : tract) : metrics :=
  let a := acs r in
  let f := fcc r in
  let hundred := Fin 100 in
  let t_unserved_underserved :=
    promote (fcc_dtype dt FCC.UnservedBSLs) (fcc_dtype dt FCC.UnderservedBSLs) in
  let t_no_fiber :=
    promote (fcc_dtype dt FCC.TotalBSLs) (fcc_dtype dt FCC.ServedBSLsFiber) in
  let t_edu2 := promote (acs_dtype dt ACS.edu_bachelors) (acs_dtype dt ACS.edu_masters) in
  let t_edu3 := promote t_edu2 (acs_dtype dt ACS.edu_professional) in
  let t_edu4 := promote t_edu3 (acs_dtype dt ACS.edu_doctorate) in
  let t_race := promote (acs_dtype dt ACS.race_total) (acs_dtype dt ACS.race_nh_white) in
  let pct_served_ := (FCC.ServedBSLs f / FCC.TotalBSLs f * hundred)%fl in
  let pct_broadband_ := (ACS.hh_broadband_any a / ACS.hh_total a * hundred)%fl in
  {| pct_unserved := (FCC.UnservedBSLs f / FCC.TotalBSLs f * hundred)%fl;
     pct_underserved := (FCC.UnderservedBSLs f / FCC.TotalBSLs f * hundred)%fl;
     pct_unserved_underserved :=
       (add_as t_unserved_underserved (FCC.UnservedBSLs f) (FCC.UnderservedBSLs f)
        / FCC.TotalBSLs f * hundred)%fl;
     pct_fiber_unserved := (FCC.UnservedBSLsFiber f / FCC.TotalBSLs f * hundred)%fl;
     pct_no_fiber :=
       (sub_as t_no_fiber (FCC.TotalBSLs f) (FCC.ServedBSLsFiber f)
        / FCC.TotalBSLs f * hundred)%fl;
     pct_copper_served := (FCC.ServedBSLsCopper f / FCC.TotalBSLs f * hundred)%fl;
     has_fiber := if Float.gtb (FCC.UniqueProvidersFiber f) (Fin 0) then 1%Z else 0%Z;
     pct_no_internet := (ACS.hh_no_internet a / ACS.hh_total a * hundred)%fl;
     pct_cellular_only := (ACS.hh_cellular_only a / ACS.hh_total a * hundred)%fl;
     pct_broadband := pct_broadband_;
     pct_cable_fiber_dsl := (ACS.hh_cable_fiber_dsl a / ACS.hh_total a * hundred)%fl;
     pct_served := pct_served_;
     adoption_gap := (pct_served_ - pct_broadband_)%fl;
     pct_bachelors_plus :=
       (add_as t_edu4
          (add_as t_edu3
             (add_as t_edu2 (ACS.edu_bachelors a) (ACS.edu_masters a))
             (ACS.edu_professional a))
          (ACS.edu_doctorate a)
        / replace (Fin 0) NaN (ACS.edu_total_25plus a) * hundred)%fl;
     unemployment_rate :=
       (ACS.emp_unemployed a / replace (Fin 0) NaN (ACS.emp_civilian_labor a)
        * hundred)%fl;
     pct_minority :=
       (sub_as t_race (ACS.race_total a) (ACS.race_nh_white a)
        / replace (Fin 0) NaN (ACS.race_total a) * hundred)%fl;
     hh_per_bsl := (ACS.hh_total a / FCC.TotalBSLs f)%fl;
     pct_no_computer :=
       (ACS.comp_no_computer a / replace (Fin 0) NaN (ACS.comp_total_hh a)
        * hundred)%fl |}.

(** A row once the derived columns are there. *)
Record mrow := {
  base : tract;
  m : metrics
}.

Definition compute_derived_metrics (dt : dtypes) (df : list tract) : list mrow :=
  map (fun r => {| base := r; m := derived dt r |}) df.

(** Column access on the metrics table. *)
Definition col {R A} (f : R -> A) (df : list R) : list A := map f df.

Definition acs_col (f : ACS.row -> Float.t) (df : list mrow) : Series :=
  col (fun r => f (acs (base r))) df.
Definition fcc_col (f : FCC.row -> Float.t) (df : list mrow) : Series :=
  col (fun r => f (fcc (base r))) df.
Definition m_col (f : metrics -> Float.t) (df : list mrow) : Series :=
  col (fun r => f (m r)) df.

(** ** Sub-score engines *)

Definition score_supply_gap (df : list mrow) : Series :=
  let s1 := percentile_score (fcc_col FCC.UniqueProvidersFiber df) false in
  let s2 := percentile_score (m_col pct_no_fiber df) true in
  let s3 := percentile_score (m_col pct_unserved_underserved df) true in
  let s4 := percentile_score (m_col pct_copper_served df) true in
  let s5 := percentile_score (fcc_col FCC.UniqueProviders df) false in
  sadd (sadd (sadd (sadd (smul s1 0.30) (smul s2 0.25)) (smul s3 0.20))
             (smul s4 0.15))
       (smul s5 0.10).

(** [Series.median()]: missing values are skipped; the middle of the
    sorted values, or the mean of the two middle ones; NaN when nothing is
    left. *)
Fixpoint insert_sorted (x : Float.t) (l : Series) : Series :=
  match l with
  | [] => [x]
  | y :: l' => if Float.leb x y then x :: l else y :: insert_sorted x l'
  end.

Definition sorted_values (l : Series) : Series := fold_right insert_sorted [] l.

Definition median (s : Series) : Float.t :=
  let vals := sorted_values (filter Float.notna s) in
  let n := length vals in
  if (n =? 0)%nat then NaN
  else if Nat.odd n then nth (n / 2) vals NaN
  else ((nth (n / 2 - 1) vals NaN + nth (n / 2) vals NaN) / Fin 2)%fl.

(** [Series.clip(lower=c)]. *)
Definition clip_lower (c : Q) (s : Series) : Series :=
  map (fun x => if Float.ltb x (Fin c) then Fin c else x) s.

(** The first lines of [score_demand_signal]: the income column after
    [fillna], and the income component [s1] once the penalty is applied. *)
Definition income_filled (df : list mrow) : Series :=
  let income := acs_col ACS.median_hh_income df in
  fillna income (median income).

Definition low_income_penalty (income_filled : Series) : Series :=
  map (fun x => if Float.ltb x (Fin 30000) then Fin 0.5 else Fin 1.0) income_filled.

Definition income_score (df : list mrow) : Series :=
  let s1 := percentile_score (income_filled df) true in
  sprod s1 (low_income_penalty (income_filled df)).

Definition score_demand_signal (df : list mrow) : Series :=
  let s1 := income_score df in
  let s2 := percentile_score (fcc_col FCC.TotalBSLs df) true in
  let s3 := percentile_score (m_col pct_cellular_only df) true in
  let s4 := percentile_score (clip_lower 0 (m_col adoption_gap df)) true in
  let s5 := percentile_score (acs_col ACS.total_population df) true in
  sadd (sadd (sadd (sadd (smul s1 0.30) (smul s2 0.25)) (smul s3 0.20))
             (smul s4 0.15))
       (smul s5 0.10).

Definition score_funding_tailwind (df : list mrow) : Series :=
  let s1 := percentile_score (fcc_col FCC.UnservedBSLs df) true in
  let s2 := percentile_score (m_col pct_unserved df) true in
  let s3 := percentile_score (fcc_col FCC.UnderservedBSLs df) true in
  let s4 := percentile_score (m_col pct_unserved_underserved df) true in
  sadd (sadd (sadd (smul s1 0.30) (smul s2 0.30)) (smul s3 0.20)) (smul s4 0.20).

Definition rucc_map : list (Q * Q) :=
  [ (1, 20); (2, 35); (3, 55); (4, 85); (5, 75); (6, 90); (7, 70); (8, 60); (9, 40) ].

(** [Series.map(dict)]: the value of the key equal to the cell, missing
    when there is none. *)
Fixpoint map_dict (d : list (Q * Q)) (x : Float.t) : Float.t :=
  match d with
  | [] => NaN
  | (k, v) :: d' => if Float.eqb x (Fin k) then Fin v else map_dict d' x
  end.

Definition bsl_bucket (p : Float.t) : Float.t :=
  if Float.ltb p (Fin 0.1) then Fin 20
  else if Float.ltb p (Fin 0.3) then Fin 50
  else if Float.ltb p (Fin 0.7) then Fin 85
  else if Float.ltb p (Fin 0.9) then Fin 60
  else Fin 30.

Definition score_build_feasibility (df : list mrow) : Series :=
  let s1 := fillna (map (map_dict rucc_map) (col (fun r => rucc_code (base r)) df))
                   (Fin 50) in
  let bsl_count := fcc_col FCC.TotalBSLs df in
  let bsl_pctile := rank bsl_count true true na_keep in
  let s2 := map bsl_bucket bsl_pctile in
  let s3 := percentile_score (fcc_col FCC.UniqueProviders df) false in
  sadd (sadd (smul s1 0.40) (smul s2 0.35)) (smul s3 0.25).

(** ** Composite aggregator *)

(** [Series.astype(int)]: truncation toward zero; pandas raises when a
    cell is NaN or infinite, which is [None] here. *)
Definition trunc (q : Q) : Z :=
  if Qle_bool 0 q then Qfloor q else Qceiling q.

Fixpoint astype_int (s : Series) : option (list Z) :=
  match s with
  | [] => Some []
  | Fin q :: s' =>
      match astype_int s' with
      | Some zs => Some (trunc q :: zs)
      | None => None
      end
  | _ :: _ => None
  end.

(** [pd.cut(x, bins, labels)] with the default [right=True],
    [include_lowest=False]: the bin index is the number of edges strictly
    below the value; a value at or below the first edge, above the last
    edge, or missing has no label. *)
Definition searchsorted_left (bins : list Q) (x : Float.t) : nat :=
  count (fun b => Float.ltb (Fin b) x) bins.

Definition cut (bins : list Q) (labels : list string) (x : Float.t) : option string :=
  let ids := searchsorted_left bins x in
  if Float.isna x || (ids =? length bins)%nat || (ids =? 0)%nat then None
  else nth_error labels (ids - 1).

Definition tier_bins : list Q := [0; 30; 50; 65; 80; 100].
Definition tier_labels : list string :=
  ["Low"; "Below Average"; "Moderate"; "High"; "Very High"]%string.

Module Scored.
Record row := {
  base : mrow;
  score_supply_gap : Float.t;
  score_demand_signal : Float.t;
  score_funding_tailwind : Float.t;
  score_build_feasibility : Float.t;
  opportunity_score : Float.t;
  opportunity_rank : Z;
  opportunity_tier : option string
}.
End Scored.

(** The table with the seven new columns set, row by row. *)
Fixpoint with_columns (df : list mrow) (S D F B O : Series) (R : list Z)
                      (T : list (option string)) : list Scored.row :=
  match df, S, D, F, B, O, R, T with
  | r :: df', s :: S', d :: D', f :: F', b :: B', o :: O', k :: R', t :: T' =>
      {| Scored.base := r;
         Scored.score_supply_gap := s;
         Scored.score_demand_signal := d;
         Scored.score_funding_tailwind := f;
         Scored.score_build_feasibility := b;
         Scored.opportunity_score := o;
         Scored.opportunity_rank := k;
         Scored.opportunity_tier := t |} :: with_columns df' S' D' F' B' O' R' T'
  | _, _, _, _, _, _, _, _ => []
  end.

Definition composite (S D F B : Series) : Series :=
  sadd (sadd (sadd (smul S 0.40) (smul D 0.30)) (smul F 0.15)) (smul B 0.15).

Definition build_composite_score (df : list mrow) : option (list Scored.row) :=
  let S := score_supply_gap df in
  let D := score_demand_signal df in
  let F := score_funding_tailwind df in
  let B := score_build_feasibility df in
  let O := composite S D F B in
  match astype_int (rank O false false na_keep) with
  | None => None
  | Some R =>
      let T := map (cut tier_bins tier_labels) O in
      Some (with_columns df S D F B O R T)
  end.

(** ** County rollup

    [df.groupby([StateAbbr, CountyName, county_geoid, rucc_code])] with the
    pandas defaults [dropna=True, sort=True]: a row with a missing cell in
    any key column belongs to no group; the groups come out in key order. *)

Record county_key := {
  k_StateAbbr : string;
  k_CountyName : string;
  k_county_geoid : string;
  k_rucc_code : Float.t
}.

Definition group_key (r : Scored.row) : option county_key :=
  let t := base (Scored.base r) in
  match FCC.StateAbbr (fcc t), FCC.CountyName (fcc t) with
  | Some s, Some c =>
      if Float.isna (rucc_code t) then None
      else Some {| k_StateAbbr := s; k_CountyName := c;
                   k_county_geoid := county_geoid t; k_rucc_code := rucc_code t |}
  | _, _ => None
  end.

Definition key_eqb (a b : county_key) : bool :=
  String.eqb (k_StateAbbr a) (k_StateAbbr b)
  && String.eqb (k_CountyName a) (k_CountyName b)
  && String.eqb (k_county_geoid a) (k_county_geoid b)
  && Float.eqb (k_rucc_code a) (k_rucc_code b).

Definition key_ltb (a b : county_key) : bool :=
  match String.compare (k_StateAbbr a) (k_StateAbbr b) with
  | Lt => true
  | Gt => false
  | Eq =>
      match String.compare (k_CountyName a) (k_CountyName b) with
      | Lt => true
      | Gt => false
      | Eq =>
          match String.compare (k_county_geoid a) (k_county_geoid b) with
          | Lt => true
          | Gt => false
          | Eq => Float.ltb (k_rucc_code a) (k_rucc_code b)
          end
      end
  end.

(** Insertion into the sorted list of distinct keys. *)
Fixpoint insert_key (k : county_key) (l : list county_key) : list county_key :=
  match l with
  | [] => [k]
  | k' :: l' =>
      if key_eqb k k' then l
      else if key_ltb k k' then k :: l
      else k' :: insert_key k l'
  end.

Fixpoint group_keys (df : list Scored.row) : list county_key :=
  match df with
  | [] => []
  | r :: df' =>
      match group_key r with
      | Some k => insert_key k (group_keys df')
      | None => group_keys df'
      end
  end.

Definition in_group (k : county_key) (r : Scored.row) : bool :=
  match group_key r with
  | Some k' => key_eqb k k'
  | None => false
  end.

(** Aggregations; each skips missing cells. *)
Definition agg_sum (s : Series) : Float.t :=
  fold_left Float.add (filter Float.notna s) (Fin 0).

(** The sum of a column of dtype [t]: an int64 column is summed in int64. *)
Definition sum_as (t : dtype) (s : Series) : Float.t :=
  fold_left (add_as t) (filter Float.notna s) (Fin 0).

Definition agg_mean (s : Series) : Float.t :=
  (agg_sum s / Float.of_nat (count Float.notna s))%fl.

Definition agg_max (s : Series) : Float.t :=
  fold_left (fun acc x => if Float.isna acc then x
                          else if Float.ltb acc x then x else acc)
            (filter Float.notna s) NaN.

Module County.
Record row := {
  StateAbbr : string;
  CountyName : string;
  county_geoid : string;
  rucc_code : Float.t;
  avg_score : Float.t;
  max_score : Float.t;
  tract_count : nat;
  total_bsls : Float.t;
  total_unserved : Float.t;
  avg_income : Float.t;
  avg_no_fiber_pct : Float.t
}.
End County.

Definition aggregate (dt : dtypes) (df : list Scored.row) (k : county_key)
  : County.row :=
  let g := filter (in_group k) df in
  let t (r : Scored.row) := base (Scored.base r) in
  {| County.StateAbbr := k_StateAbbr k;
     County.CountyName := k_CountyName k;
     County.county_geoid := k_county_geoid k;
     County.rucc_code := k_rucc_code k;
     County.avg_score := agg_mean (map Scored.opportunity_score g);
     County.max_score := agg_max (map Scored.opportunity_score g);
     County.tract_count := length g;
     County.total_bsls :=
       sum_as (fcc_dtype dt FCC.TotalBSLs)
              (map (fun r => FCC.TotalBSLs (fcc (t r))) g);
     County.total_unserved :=
       sum_as (fcc_dtype dt FCC.UnservedBSLs)
              (map (fun r => FCC.UnservedBSLs (fcc (t r))) g);
     County.avg_income := agg_mean (map (fun r => ACS.median_hh_income (acs (t r))) g);
     County.avg_no_fiber_pct :=
       agg_mean (map (fun r => pct_no_fiber (m (Scored.base r))) g) |}.

(** [sorted_values("avg_score", ascending=False)]: missing averages last.
    pandas leaves the order of equal averages to its quicksort; here equal
    averages keep the key order. *)
Definition avg_before (a b : County.row) : bool :=
  Float.isna (County.avg_score b)
  || negb (Float.ltb (County.avg_score a) (County.avg_score b)).

Fixpoint insert_county (x : County.row) (l : list County.row) : list County.row :=
  match l with
  | [] => [x]
  | y :: l' => if avg_before x y then x :: l else y :: insert_county x l'
  end.

Definition county_rollup (dt : dtypes) (df : list Scored.row) : list County.row :=
  fold_right insert_county [] (map (aggregate dt df) (group_keys df)).

(** ** The summary

    Between scoring and saving, [main] prints the 20 tracts with the
    largest composite and the first 20 rows of the county table, one
    f-string a row.  A format code [d] accepts an integer only and a code
    [s] a string only; anything else is a ValueError, which ends the run.
    The codes [f] take every numeric cell, missing ones too, and a cell
    without a code is printed whatever it is.  The prints before the two
    loops show whole tables and have no format codes. *)

(** [df.nlargest(n, "opportunity_score")]: the first [n] rows in
    descending order of the composite, rows with equal composites in table
    order, missing composites last. *)
Definition score_before (a b : Scored.row) : bool :=
  Float.isna (Scored.opportunity_score b)
  || (Float.notna (Scored.opportunity_score a)
      && negb (Float.ltb (Scored.opportunity_score a) (Scored.opportunity_score b))).

Fixpoint insert_scored (x : Scored.row) (l : list Scored.row) : list Scored.row :=
  match l with
  | [] => [x]
  | y :: l' => if score_before x y then x :: l else y :: insert_scored x l'
  end.

Definition nlargest (n : nat) (df : list Scored.row) : list Scored.row :=
  firstn n (fold_right insert_scored [] df).

(** A line of the first loop: [CountyName] goes through [:>25s] and
    [TotalBSLs] through [:>5,d]; the rank, an int, through [:>5d]. *)
Definition top20_line (dt : dtypes) (r : Scored.row) : bool :=
  match FCC.CountyName (fcc (base (Scored.base r))) with
  | Some _ => is_int64 (fcc_dtype dt FCC.TotalBSLs)
  | None => false
  end.

(** A line of the second loop: [total_bsls] goes through [:>7,d] and
    [total_unserved] through [:>5,d]; the county name is a group key,
    hence a string, and the tract count an int. *)
Definition county_line (dt : dtypes) (c : County.row) : bool :=
  is_int64 (fcc_dtype dt FCC.TotalBSLs) && is_int64 (fcc_dtype dt FCC.UnservedBSLs).

(** ** The pipeline

    The output directory is a map from file name to table; [to_csv]
    replaces the file. *)

Inductive table :=
| TractTable (rows : list Scored.row)
| CountyTable (rows : list County.row).

Definition files := list (string * table).

Definition to_csv (path : string) (t : table) (fs : files) : files :=
  (path, t) :: filter (fun f => negb (String.eqb path (fst f))) fs.

Fixpoint read (path : string) (fs : files) : option table :=
  match fs with
  | [] => None
  | (p, t) :: fs' => if String.eqb path p then Some t else read path fs'
  end.

(** [None] is an exception that ends the run before anything is saved. *)
Definition main (acs_t : list ACS.row) (fcc_t : list FCC.row) (rucc_t : list RUCC.row)
                (fs : files) : option (files * (list Scored.row * list County.row)) :=
  let dt := read_dtypes acs_t fcc_t in
  let df := load_and_merge acs_t fcc_t rucc_t in
  let df := compute_derived_metrics dt df in
  match build_composite_score df with
  | None => None
  | Some df =>
      if forallb (top20_line dt) (nlargest 20 df) then
        let county_scores := county_rollup dt df in
        if forallb (county_line dt) (firstn 20 county_scores) then
          let fs := to_csv "tract_scores.csv" (TractTable df) fs in
          let fs := to_csv "county_scores.csv" (CountyTable county_scores) fs in
          Some (fs, (df, county_scores))
        else None
      else None
  end.

(** ** Definitions used in the statements *)

(** The rank [na_option="bottom"] gives to a cell, as a rational. *)
Definition rank_q (s : Series) (x : Float.t) : Q :=
  match x with
  | NaN => average_rank (count Float.notna s) (count Float.isna s)
  | _ => average_rank (count (fun y => Float.ltb y x) s) (count (Float.eqb x) s)
  end.

(** A cell that holds a number between [lo] and [hi]. *)
Definition bounded (lo hi : Q) (x : Float.t) : Prop :=
  exists q, x = Fin q /\ lo <= q <= hi.

(** [percentile_score] cell by cell. *)
Definition pct_asc (s : Series) (x : Float.t) : Q :=
  rank_q s x / Qnat (length s) * 100.

Definition pct_desc (s : Series) (x : Float.t) : Q :=
  (1 + - (rank_q s x / Qnat (length s))) * 100.

(** The descending rank with [na_option="keep"] of a present cell. *)
Definition rank_desc_q (s : Series) (x : Float.t) : Q :=
  average_rank (count (fun y => Float.ltb x y) s) (count (Float.eqb x) s).

(** The integer the composite aggregator stores as the rank of a score
    [x] among the scores [O]: the tracts that score higher, plus half of
    the tied tracts and one, rounded down. *)
Definition truncated_average_rank (O : Series) (x : Float.t) : Z :=
  Z.of_nat (count (fun y => Float.ltb x y) O + (count (Float.eqb x) O + 1) / 2).

(** ** A small fixture

    Four tracts survive the loader: two with the same figures in county
    51001, one in county 51003, and one in county 51999, which the RUCC
    table does not list.  A fifth tract has no row in the FCC table and a
    sixth has no households. *)

Definition acs_row (geoid : string) (population households cellular broadband : Q)
                   (income : Float.t) : ACS.row :=
  {| ACS.GEOID := geoid;
     ACS.total_population := Fin population;
     ACS.hh_total := Fin households;
     ACS.hh_no_internet := Fin 100;
     ACS.hh_cellular_only := Fin cellular;
     ACS.hh_broadband_any := Fin broadband;
     ACS.hh_cable_fiber_dsl := Fin 500;
     ACS.median_hh_income := income;
     ACS.edu_total_25plus := Fin 2000;
     ACS.edu_bachelors := Fin 300;
     ACS.edu_masters := Fin 100;
     ACS.edu_professional := Fin 20;
     ACS.edu_doctorate := Fin 10;
     ACS.emp_civilian_labor := Fin 1800;
     ACS.emp_unemployed := Fin 90;
     ACS.race_total := Fin population;
     ACS.race_nh_white := Fin 1000;
     ACS.comp_total_hh := Fin households;
     ACS.comp_no_computer := Fin 50 |}.

Definition fcc_row (geoid county : string) (total unserved underserved fiber : Q)
                   (providers fiber_providers : Q) : FCC.row :=
  {| FCC.GEOID := geoid;
     FCC.CountyName := Some county;
     FCC.StateAbbr := Some "VA"%string;
     FCC.TotalBSLs := Fin total;
     FCC.UnservedBSLs := Fin unserved;
     FCC.UnderservedBSLs := Fin underserved;
     FCC.ServedBSLs := Fin (total - unserved - underserved);
     FCC.ServedBSLsCopper := Fin 100;
     FCC.UnservedBSLsFiber := Fin (total - fiber);
     FCC.ServedBSLsFiber := Fin fiber;
     FCC.UniqueProviders := Fin providers;
     FCC.UniqueProvidersFiber := Fin fiber_providers |}.

Definition fixture_acs : list ACS.row :=
  [ acs_row "51001000100" 4000 1500 300 900 (Fin census_na);
    acs_row "51001000200" 4000 1500 300 900 (Fin census_na);
    acs_row "51003000100" 9000 3500 100 3300 (Fin 85000);
    acs_row "51999000100" 2500 1000 150 700 (Fin 28000);
    acs_row "51003000200" 3000 1200 100 900 (Fin 60000);
    acs_row "51003000300" 10 0 0 0 NaN ]%string.

Definition fixture_fcc : list FCC.row :=
  [ fcc_row "51001000100" "Accomack" 1200 300 200 100 3 0;
    fcc_row "51001000200" "Accomack" 1200 300 200 100 3 0;
    fcc_row "51003000100" "Albemarle" 3000 10 20 2500 6 2;
    fcc_row "51999000100" "Unlisted" 800 100 50 200 4 1;
    fcc_row "51003000300" "Albemarle" 5 0 0 0 1 0 ]%string.

Definition fixture_rucc : list RUCC.row :=
  [ {| RUCC.FIPS := 51001; RUCC.RUCC_2023 := Fin 6;
       RUCC.Population_2020 := Fin 33413;
       RUCC.Description := Some "Nonmetro, adjacent to a metro area"%string |};
    {| RUCC.FIPS := 51003; RUCC.RUCC_2023 := Fin 2;
       RUCC.Population_2020 := Fin 112395;
       RUCC.Description := Some "Metro, 250,000 to 1 million"%string |} ].

Definition fixture_df : list mrow :=
  compute_derived_metrics (read_dtypes fixture_acs fixture_fcc)
                          (load_and_merge fixture_acs fixture_fcc fixture_rucc).

(** The tier buckets as the specification words them: right-inclusive
    intervals (0,30], (30,50], (50,65], (65,80], (80,100]. *)
Definition tier_of (c : Q) : option string :=
  if Qlt_bool 0 c && Qle_bool c 30 then Some "Low"%string
  else if Qlt_bool 30 c && Qle_bool c 50 then Some "Below Average"%string
  else if Qlt_bool 50 c && Qle_bool c 65 then Some "Moderate"%string
  else if Qlt_bool 65 c && Qle_bool c 80 then Some "High"%string
  else if Qlt_bool 80 c && Qle_bool c 100 then Some "Very High"%string
  else None.

(** A column of distinct present values: every cell is equal to exactly
    one cell of the column, itself. *)
Definition distinct_present (s : Series) : Prop :=
  forall x, In x s -> count (Float.eqb x) s = 1%nat.

(** The policy the specification states for missing values, with
    [ascending=true]: no missing cell scores above a present one. *)
Definition missing_scores_lowest (s : Series) : Prop :=
  forall i j x p_missing p_present,
    nth_error s i = Some NaN ->
    nth_error s j = Some x -> Float.isna x = false ->
    nth_error (percentile_score s true) i = Some (Fin p_missing) ->
    nth_error (percentile_score s true) j = Some (Fin p_present) ->
    p_missing <= p_present.

(** The dense descending rank the specification names: one plus the
    number of distinct scores strictly above. *)
Fixpoint distinct (s : Series) : Series :=
  match s with
  | [] => []
  | x :: s' => if existsb (Float.eqb x) s' then distinct s' else x :: distinct s'
  end.

Definition dense_rank (O : Series) (x : Float.t) : Z :=
  Z.of_nat (1 + length (distinct (filter (fun y => Float.ltb x y) O))).

Definition dense_ranked (out : list Scored.row) : Prop :=
  forall i r, nth_error out i = Some r ->
    Scored.opportunity_rank r
    = dense_rank (map Scored.opportunity_score out) (Scored.opportunity_score r).

(** The numeric cells of an input row and of the derived columns. *)
Definition acs_cells (a : ACS.row) : Series :=
  [ ACS.total_population a; ACS.hh_total a; ACS.hh_no_internet a;
    ACS.hh_cellular_only a; ACS.hh_broadband_any a; ACS.hh_cable_fiber_dsl a;
    ACS.median_hh_income a; ACS.edu_total_25plus a; ACS.edu_bachelors a;
    ACS.edu_masters a; ACS.edu_professional a; ACS.edu_doctorate a;
    ACS.emp_civilian_labor a; ACS.emp_unemployed a; ACS.race_total a;
    ACS.race_nh_white a; ACS.comp_total_hh a; ACS.comp_no_computer a ].

Definition fcc_cells (f : FCC.row) : Series :=
  [ FCC.TotalBSLs f; FCC.UnservedBSLs f; FCC.UnderservedBSLs f; FCC.ServedBSLs f;
    FCC.ServedBSLsCopper f; FCC.UnservedBSLsFiber f; FCC.ServedBSLsFiber f;
    FCC.UniqueProviders f; FCC.UniqueProvidersFiber f ].

Definition metric_cells (x : metrics) : Series :=
  [ pct_unserved x; pct_underserved x; pct_unserved_underserved x;
    pct_fiber_unserved x; pct_no_fiber x; pct_copper_served x;
    pct_no_internet x; pct_cellular_only x; pct_broadband x;
    pct_cable_fiber_dsl x; pct_served x; adoption_gap x; pct_bachelors_plus x;
    unemployment_rate x; pct_minority x; hh_per_bsl x; pct_no_computer x ].

(** A cell that is a number or missing, as a CSV of counts holds. *)
Definition not_inf (x : Float.t) : Prop := Float.is_inf x = false.

(** The denominators [compute_derived_metrics] divides by. *)
Definition denominators (r : tract) : Series :=
  [ FCC.TotalBSLs (fcc r);
    ACS.hh_total (acs r);
    replace (Fin 0) NaN (ACS.edu_total_25plus (acs r));
    replace (Fin 0) NaN (ACS.emp_civilian_labor (acs r));
    replace (Fin 0) NaN (ACS.race_total (acs r));
    replace (Fin 0) NaN (ACS.comp_total_hh (acs r)) ].

(** A retained tract in which nobody is 25 or older, in the labour
    force, counted by race, or asked about computers. *)
Definition fixture_empty_universe : tract :=
  {| acs := {| ACS.GEOID := "51001000300";
               ACS.total_population := Fin 12;
               ACS.hh_total := Fin 4;
               ACS.hh_no_internet := Fin 1;
               ACS.hh_cellular_only := Fin 1;
               ACS.hh_broadband_any := Fin 2;
               ACS.hh_cable_fiber_dsl := Fin 1;
               ACS.median_hh_income := NaN;
               ACS.edu_total_25plus := Fin 0;
               ACS.edu_bachelors := Fin 0;
               ACS.edu_masters := Fin 0;
               ACS.edu_professional := Fin 0;
               ACS.edu_doctorate := Fin 0;
               ACS.emp_civilian_labor := Fin 0;
               ACS.emp_unemployed := Fin 0;
               ACS.race_total := Fin 0;
               ACS.race_nh_white := Fin 0;
               ACS.comp_total_hh := Fin 0;
               ACS.comp_no_computer := Fin 0 |};
     fcc := fcc_row "51001000300" "Accomack" 9 3 2 0 1 0;
     county_geoid := "51001";
     rucc_code := Fin 6;
     county_pop_2020 := Fin 33413;
     rucc_description := None |}.

(** The dtypes of files that hold this one tract. *)
Definition fixture_empty_universe_dtypes : dtypes :=
  read_dtypes [acs fixture_empty_universe] [fcc fixture_empty_universe].

(** The failure mode the specification states for empty inputs: the run
    ends in an error and the output directory is left as it was. *)
Definition halts_without_output (acs_t : list ACS.row) (fcc_t : list FCC.row)
                                (rucc_t : list RUCC.row) (fs : files) : Prop :=
  main acs_t fcc_t rucc_t fs = None.

(** The run of the pipeline on the fixture, in an empty directory. *)
Definition fixture_tracts : list Scored.row :=
  match main fixture_acs fixture_fcc fixture_rucc [] with
  | Some (_, (tracts, _)) => tracts
  | None => []
  end.

Definition fixture_counties : list County.row :=
  match main fixture_acs fixture_fcc fixture_rucc [] with
  | Some (_, (_, counties)) => counties
  | None => []
  end.

Definition fixture_files : files :=
  match main fixture_acs fixture_fcc fixture_rucc [] with
  | Some (fs, _) => fs
  | None => []
  end.

(** A tract has a rurality code. *)
Definition has_rurality (r : Scored.row) : bool :=
  Float.notna (rucc_code (base (Scored.base r))).

(** ** Definitions used in further statements *)

(** The order [na_option="bottom"] ranks by: the present cells by value,
    then the missing cells, tied among themselves. *)
Definition ranks_before (y x : Float.t) : bool :=
  if Float.isna x then Float.notna y else Float.ltb y x.

Definition ranks_with (x y : Float.t) : bool :=
  if Float.isna x then Float.isna y else Float.eqb x y.

(** Sums over a list. *)
Definition nsum {A} (f : A -> nat) (l : list A) : nat :=
  fold_right (fun x acc => (f x + acc)%nat) 0%nat l.

Definition qsum {A} (f : A -> Q) (l : list A) : Q :=
  fold_right (fun x acc => f x + acc) 0 l.

(** The number in a cell, 0 for a cell that holds none. *)
Definition value (x : Float.t) : Q :=
  match x with Fin q => q | _ => 0 end.

(** [Series.sum()] of a column of numbers. *)
Definition total (s : Series) : Q := qsum value s.

(** The Supply Gap and Funding Tailwind scores of a row of the table,
    from the percentile of each of its cells within its column. *)
Definition supply_gap_at (df : list mrow) (r : mrow) : Q :=
  pct_desc (fcc_col FCC.UniqueProvidersFiber df) (FCC.UniqueProvidersFiber (fcc (base r)))
  * 0.30
  + pct_asc (m_col pct_no_fiber df) (pct_no_fiber (m r)) * 0.25
  + pct_asc (m_col pct_unserved_underserved df) (pct_unserved_underserved (m r)) * 0.20
  + pct_asc (m_col pct_copper_served df) (pct_copper_served (m r)) * 0.15
  + pct_desc (fcc_col FCC.UniqueProviders df) (FCC.UniqueProviders (fcc (base r))) * 0.10.

Definition funding_tailwind_at (df : list mrow) (r : mrow) : Q :=
  pct_asc (fcc_col FCC.UnservedBSLs df) (FCC.UnservedBSLs (fcc (base r))) * 0.30
  + pct_asc (m_col pct_unserved df) (pct_unserved (m r)) * 0.30
  + pct_asc (fcc_col FCC.UnderservedBSLs df) (FCC.UnderservedBSLs (fcc (base r))) * 0.20
  + pct_asc (m_col pct_unserved_underserved df) (pct_unserved_underserved (m r)) * 0.20.

(** The place of a tier label in the order of [tier_labels], from 1; 0
    for a missing label. *)
Fixpoint label_index (l : string) (ls : list string) : nat :=
  match ls with
  | [] => 0
  | l' :: ls' => if String.eqb l l' then 1 else
                   match label_index l ls' with
                   | O => O
                   | S n => S (S n)
                   end
  end.

Definition tier_level (t : option string) : nat :=
  match t with
  | None => 0
  | Some l => label_index l tier_labels
  end.

(** The tier level of a composite score in (0, 100]: one more than the
    number of inner cut points strictly below it. *)
Definition tier_level_of_score (c : Q) : nat :=
  S (count (fun b => Qlt_bool b c) [30; 50; 65; 80]).

(** The income cell after the loader's cleaning of the Census code. *)
Definition cleaned (a : ACS.row) : ACS.row :=
  ACS.set_median_hh_income (replace (Fin census_na) NaN (ACS.median_hh_income a)) a.

(** The join key of a RUCC row. *)
Definition rucc_key (u : RUCC.row) : string := zfill 5 (str (RUCC.FIPS u)).

(** A table with a tract whose unserved and underserved counts are
    missing. *)
Definition fixture_missing_counts : list tract :=
  [ fixture_empty_universe;
    {| acs := acs fixture_empty_universe;
       fcc := {| FCC.GEOID := "51001000400";
                 FCC.CountyName := Some "Accomack"%string;
                 FCC.StateAbbr := Some "VA"%string;
                 FCC.TotalBSLs := Fin 40;
                 FCC.UnservedBSLs := NaN;
                 FCC.UnderservedBSLs := NaN;
                 FCC.ServedBSLs := Fin 30;
                 FCC.ServedBSLsCopper := Fin 5;
                 FCC.UnservedBSLsFiber := Fin 10;
                 FCC.ServedBSLsFiber := Fin 30;
                 FCC.UniqueProviders := Fin 2;
                 FCC.UniqueProvidersFiber := Fin 1 |};
       county_geoid := "51001";
       rucc_code := Fin 6;
       county_pop_2020 := Fin 33413;
       rucc_description := None |} ].

(** The dtypes of files that hold these tracts: the two columns with
    missing counts are float64. *)
Definition fixture_missing_counts_dtypes : dtypes :=
  read_dtypes (map acs fixture_missing_counts) (map fcc fixture_missing_counts).

(** ** Paging through the FCC feature service

    [pull_state_tracts] of [pull_fcc_bdc.py] asks the service for pages of
    [batch_size] records from a growing offset, until a request fails, a
    page is empty, or a page is short.  The service is a function from the
    offset to its answer; the number of requests is bounded by [fuel], and
    [None] means that the bound was reached. *)

Module Pull.
Section Paging.
Variable feature : Type.

Inductive response :=
| HttpError
| ServiceError
| Features (features : list feature).

Definition batch_size : nat := 2000.

Fixpoint pull_loop (query : nat -> response) (fuel offset : nat)
                   (all_features : list feature) : option (list feature) :=
  match fuel with
  | O => None
  | S fuel' =>
      match query offset with
      | HttpError => Some all_features
      | ServiceError => Some all_features
      | Features [] => Some all_features
      | Features features =>
          let all_features := all_features ++ features in
          let offset := (offset + length features)%nat in
          if (length features <? batch_size)%nat then Some all_features
          else pull_loop query fuel' offset all_features
      end
  end.

(** The result of the function: the table of the records, or [None] when
    there is none. *)
Definition pull_state_tracts (query : nat -> response) (fuel : nat)
  : option (option (list feature)) :=
  match pull_loop query fuel 0 [] with
  | None => None
  | Some [] => Some None
  | Some all_features => Some (Some all_features)
  end.

(** A service that holds the records [data] and answers a request with at
    most [limit] of them from the offset. *)
Definition service (limit : nat) (data : list feature) (offset : nat) : response :=
  Features (firstn limit (skipn offset data)).

End Paging.
End Pull.

(** ** The tracts the map shows ([build_map] of [build_map.py])

    The map joins the saved tract table with the tract geometries on GEOID,
    keeps every tract whose composite is at least 50, and adds a sample of
    at most 2000 of the tracts below 50.  Of a geometry only its GEOID
    matters here; which tracts [DataFrame.sample] draws is left open. *)

Module MapData.
Section Selection.
Variable sample : nat -> list Scored.row -> list Scored.row.

Definition geoid (r : Scored.row) : string := GEOID (base (Scored.base r)).

(** [geo.merge(scores, on="GEOID", how="inner")]. *)
Definition merge_geo (geo : list string) (scores : list Scored.row) : list Scored.row :=
  flat_map (fun g => filter (fun r => String.eqb g (geoid r)) scores) geo.

Definition high_opp (merged : list Scored.row) : list Scored.row :=
  filter (fun r => Float.leb (Fin 50) (Scored.opportunity_score r)) merged.

Definition below_50 (merged : list Scored.row) : list Scored.row :=
  filter (fun r => Float.ltb (Scored.opportunity_score r) (Fin 50)) merged.

Definition below_avg (merged : list Scored.row) : list Scored.row :=
  sample (Nat.min 2000 (length (below_50 merged))) (below_50 merged).

Definition map_data (geo : list string) (scores : list Scored.row) : list Scored.row :=
  let merged := merge_geo geo scores in
  high_opp merged ++ below_avg merged.

End Selection.
End MapData.

(** A tract that belongs to a group of the rollup: state, county name
    and rurality code are all present. *)
Definition has_group (r : Scored.row) : bool :=
  match group_key r with
  | Some _ => true
  | None => false
  end.

Definition valid_key (k : county_key) : Prop := Float.isna (k_rucc_code k) = false.

(** A cell that makes [read_csv] give its column the dtype float64: a
    missing value, an infinity, or a number with a fraction. *)
Definition float_cell (x : Float.t) : bool :=
  match x with
  | Fin q => negb (Qeq_bool q (inject_Z (Qfloor q)))
  | _ => true
  end.

(** The FCC fixture with one more row, for a tract the ACS table does not
    have, whose unserved count is missing. *)
Definition fixture_fcc_gap : list FCC.row :=
  fixture_fcc
  ++ [ {| FCC.GEOID := "51003000900";
          FCC.CountyName := Some "Albemarle"%string;
          FCC.StateAbbr := Some "VA"%string;
          FCC.TotalBSLs := Fin 70;
          FCC.UnservedBSLs := NaN;
          FCC.UnderservedBSLs := Fin 5;
          FCC.ServedBSLs := Fin 60;
          FCC.ServedBSLsCopper := Fin 5;
          FCC.UnservedBSLsFiber := Fin 10;
          FCC.ServedBSLsFiber := Fin 60;
          FCC.UniqueProviders := Fin 2;
          FCC.UniqueProvidersFiber := Fin 1 |} ].

(** * Properties *)

(** ** Rationals and cells *)

Lemma Qlt_bool_iff (a b : Q) : Qlt_bool a b = true <-> a < b.
Proof.
  unfold Qlt_bool. rewrite negb_true_iff. split; intro H.
  - apply Qnot_le_lt. intro Hle. apply Qle_bool_iff in Hle. congruence.
  - destruct (Qle_bool b a) eqn:E; [|reflexivity].
    apply Qle_bool_iff in E. exfalso. apply (Qlt_not_le _ _ H E).
Qed.

Lemma Qlt_bool_false (a b : Q) : Qlt_bool a b = false <-> b <= a.
Proof.
  unfold Qlt_bool. rewrite negb_false_iff. apply Qle_bool_iff.
Qed.

Lemma Qle_bool_false (a b : Q) : Qle_bool a b = false <-> b < a.
Proof.
  rewrite <- Qlt_bool_iff. unfold Qlt_bool.
  destruct (Qle_bool a b); simpl; intuition congruence.
Qed.

Lemma Qeq_bool_false (a b : Q) : Qeq_bool a b = false <-> ~ a == b.
Proof.
  split.
  - intros H E. apply Qeq_bool_iff in E. congruence.
  - intro H. destruct (Qeq_bool a b) eqn:E; [|reflexivity].
    apply Qeq_bool_iff in E. contradiction.
Qed.

(** Boolean comparisons of rationals, as propositions. *)
Ltac qprop :=
  repeat match goal with
    | H : Qlt_bool _ _ = true |- _ => apply Qlt_bool_iff in H
    | H : Qlt_bool _ _ = false |- _ => apply Qlt_bool_false in H
    | H : Qle_bool _ _ = true |- _ => apply Qle_bool_iff in H
    | H : Qle_bool _ _ = false |- _ => apply Qle_bool_false in H
    | H : Qeq_bool _ _ = true |- _ => apply Qeq_bool_iff in H
    | H : Qeq_bool _ _ = false |- _ => apply Qeq_bool_false in H
    | |- Qlt_bool _ _ = true => apply Qlt_bool_iff
    | |- Qlt_bool _ _ = false => apply Qlt_bool_false
    | |- Qle_bool _ _ = true => apply Qle_bool_iff
    | |- Qle_bool _ _ = false => apply Qle_bool_false
    | |- Qeq_bool _ _ = true => apply Qeq_bool_iff
    | |- Qeq_bool _ _ = false => apply Qeq_bool_false
    end.

Ltac qsolve := qprop; try lra; try (intro; lra).

Lemma Qnat_le (n m : nat) : (n <= m)%nat -> Qnat n <= Qnat m.
Proof.
  intro H. unfold Qnat. rewrite <- Zle_Qle. lia.
Qed.

Lemma Qnat_add (n m : nat) : Qnat (n + m) == Qnat n + Qnat m.
Proof.
  unfold Qnat. rewrite Nat2Z.inj_add, inject_Z_plus. reflexivity.
Qed.

Lemma Qnat_nonneg (n : nat) : 0 <= Qnat n.
Proof.
  change 0 with (Qnat 0). apply Qnat_le. lia.
Qed.

Lemma Qnat_pos (n : nat) : (1 <= n)%nat -> 1 <= Qnat n.
Proof.
  intro H. change 1 with (Qnat 1). now apply Qnat_le.
Qed.

Module FloatFacts.
Import Float.

Lemma eqb_refl (x : t) : isna x = false -> eqb x x = true.
Proof. destruct x; simpl; intro; try easy. qsolve. Qed.

Lemma eqb_sym (x y : t) : eqb x y = eqb y x.
Proof.
  destruct x, y; simpl; try reflexivity.
  destruct (Qeq_bool q q0) eqn:E1, (Qeq_bool q0 q) eqn:E2; try reflexivity;
    qprop; exfalso; [apply E2|apply E1]; now symmetry.
Qed.

Lemma eqb_notna (x y : t) : eqb x y = true -> notna x = true /\ notna y = true.
Proof. destruct x, y; simpl; intro; split; easy. Qed.

Lemma ltb_notna (x y : t) : ltb x y = true -> notna x = true /\ notna y = true.
Proof. destruct x, y; simpl; intro; split; easy. Qed.

Lemma ltb_eqb_disjoint (x y : t) : ltb y x = true -> eqb x y = true -> False.
Proof. destruct x, y; simpl; intros; try easy. qsolve. Qed.

Lemma ltb_asym (x y : t) : ltb x y = true -> ltb y x = true -> False.
Proof. destruct x, y; simpl; intros; try easy. qsolve. Qed.

Lemma ltb_trans (x y z : t) : ltb x y = true -> ltb y z = true -> ltb x z = true.
Proof. destruct x, y, z; simpl; intros; try easy. qsolve. Qed.

Lemma eqb_ltb_trans (x y z : t) : eqb x y = true -> ltb y z = true -> ltb x z = true.
Proof. destruct x, y, z; simpl; intros; try easy. qsolve. Qed.

Lemma ltb_eqb_trans (x y z : t) : ltb x y = true -> eqb y z = true -> ltb x z = true.
Proof. destruct x, y, z; simpl; intros; try easy. qsolve. Qed.

Lemma eqb_trans (x y z : t) : eqb x y = true -> eqb y z = true -> eqb x z = true.
Proof. destruct x, y, z; simpl; intros; try easy. qsolve. Qed.

(** Two present cells are comparable. *)
Lemma trichotomy (x y : t) :
  notna x = true -> notna y = true ->
  ltb x y = true \/ eqb x y = true \/ ltb y x = true.
Proof.
  destruct x, y; simpl; intros; try easy; auto.
  destruct (Qlt_bool q q0) eqn:E1; auto.
  destruct (Qeq_bool q q0) eqn:E2; auto.
  right; right. qprop.
  destruct (Qlt_le_dec q0 q); [assumption|]. exfalso. apply E2. lra.
Qed.

End FloatFacts.

(** ** Lists and Series *)

Section ListFacts.
Context {A B C : Type}.

Lemma count_le_length (p : A -> bool) (s : list A) : (count p s <= length s)%nat.
Proof. apply filter_length_le. Qed.

Lemma count_cons (p : A -> bool) (x : A) (s : list A) :
  count p (x :: s) = ((if p x then 1 else 0) + count p s)%nat.
Proof. unfold count. simpl. now destruct (p x). Qed.

Lemma count_pos (p : A -> bool) (x : A) (s : list A) :
  In x s -> p x = true -> (1 <= count p s)%nat.
Proof.
  induction s as [|y s IH]; simpl; [easy|].
  intros [->|Hin] Hp; rewrite count_cons.
  - rewrite Hp. lia.
  - specialize (IH Hin Hp). lia.
Qed.

Lemma count_ext (p q : A -> bool) (s : list A) :
  (forall y, In y s -> p y = q y) -> count p s = count q s.
Proof.
  intro H. unfold count. f_equal. now apply filter_ext_in.
Qed.

(** Two disjoint predicates inside a third. *)
Lemma count_split_le (p q r : A -> bool) (s : list A) :
  (forall y, p y = true -> q y = true -> False) ->
  (forall y, p y = true -> r y = true) ->
  (forall y, q y = true -> r y = true) ->
  (count p s + count q s <= count r s)%nat.
Proof.
  intros Hd Hp Hq. induction s as [|y s IH]; [reflexivity|].
  rewrite !count_cons.
  destruct (p y) eqn:Ep, (q y) eqn:Eq.
  - exfalso. eauto.
  - rewrite (Hp _ Ep). lia.
  - rewrite (Hq _ Eq). lia.
  - destruct (r y); lia.
Qed.

Lemma count_compl (p : A -> bool) (s : list A) :
  (count p s + count (fun y => negb (p y)) s = length s)%nat.
Proof.
  induction s as [|y s IH]; [reflexivity|].
  rewrite !count_cons. simpl. destruct (p y); simpl; lia.
Qed.

Lemma length_zipWith (f : A -> B -> C) (l1 : list A) (l2 : list B) :
  length l1 = length l2 -> length (zipWith f l1 l2) = length l1.
Proof.
  revert l2. induction l1 as [|a l1 IH]; intros [|b l2]; simpl; try easy.
  intro H. f_equal. apply IH. lia.
Qed.

Lemma nth_error_zipWith (f : A -> B -> C) (l1 : list A) (l2 : list B) (i : nat) :
  nth_error (zipWith f l1 l2) i =
  match nth_error l1 i, nth_error l2 i with
  | Some a, Some b => Some (f a b)
  | _, _ => None
  end.
Proof.
  revert l2 i. induction l1 as [|a l1 IH]; intros [|b l2] [|i]; simpl; try reflexivity.
  - now destruct (nth_error l1 i).
  - apply IH.
Qed.

Lemma Forall_zipWith (P : A -> Prop) (Q : B -> Prop) (R : C -> Prop)
      (f : A -> B -> C) (l1 : list A) (l2 : list B) :
  (forall a b, P a -> Q b -> R (f a b)) ->
  Forall P l1 -> Forall Q l2 -> Forall R (zipWith f l1 l2).
Proof.
  intros Hf H1. revert l2. induction H1; intros l2 H2; simpl; [constructor|].
  destruct H2; constructor; auto.
Qed.

Lemma Forall_map_in (P : B -> Prop) (f : A -> B) (l : list A) :
  (forall a, In a l -> P (f a)) -> Forall P (map f l).
Proof.
  intro H. apply Forall_forall. intros b Hb.
  apply in_map_iff in Hb. destruct Hb as (a & <- & Ha). auto.
Qed.
End ListFacts.

Lemma count_isna_notna (s : Series) :
  (count Float.notna s + count Float.isna s = length s)%nat.
Proof.
  rewrite Nat.add_comm. apply (count_compl Float.isna).
Qed.

(** ** The rank with [na_option="bottom"] *)

Lemma length_rank (s : Series) (asc pct : bool) (na : na_option) :
  length (rank s asc pct na) = length s.
Proof. unfold rank. apply length_map. Qed.

Lemma length_percentile_score (s : Series) (asc : bool) :
  length (percentile_score s asc) = length s.
Proof.
  unfold percentile_score, smul. destruct asc; rewrite ?length_map; apply length_rank.
Qed.

Lemma rank_of_bottom (s : Series) (x : Float.t) :
  rank_of s true na_bottom x = Fin (rank_q s x).
Proof. destruct x; reflexivity. Qed.

Lemma average_rank_half (before ties : nat) :
  average_rank before ties == Qnat before + (Qnat ties + 1) * (1 # 2).
Proof. unfold average_rank. reflexivity. Qed.

Lemma average_rank_bounds (before ties n : nat) :
  (1 <= ties)%nat -> (before + ties <= n)%nat ->
  1 <= average_rank before ties <= Qnat n.
Proof.
  intros Ht Hn. rewrite average_rank_half.
  pose proof (Qnat_nonneg before). pose proof (Qnat_pos _ Ht).
  apply Qnat_le in Hn. rewrite Qnat_add in Hn. lra.
Qed.

Lemma rank_q_bounds (s : Series) (x : Float.t) :
  In x s -> 1 <= rank_q s x <= Qnat (length s).
Proof.
  intro Hin. unfold rank_q.
  assert (Hnan : Float.isna x = true ->
                 1 <= average_rank (count Float.notna s) (count Float.isna s)
                 <= Qnat (length s)).
  { intro Hx. apply average_rank_bounds.
    - now apply (count_pos _ x).
    - now rewrite count_isna_notna. }
  assert (Hval : Float.isna x = false ->
                 1 <= average_rank (count (fun y => Float.ltb y x) s)
                                   (count (Float.eqb x) s)
                 <= Qnat (length s)).
  { intro Hx. apply average_rank_bounds.
    - apply (count_pos _ x); [assumption|]. now apply FloatFacts.eqb_refl.
    - etransitivity; [|apply (count_le_length (fun _ => true))].
      apply count_split_le; auto.
      intros y H1 H2. exact (FloatFacts.ltb_eqb_disjoint _ _ H1 H2). }
  destruct x; auto.
Qed.

Lemma Qnat_length_nonzero {A} (x : A) (s : list A) :
  In x s -> Qeq_bool (Qnat (length s)) 0 = false.
Proof.
  intro Hin. destruct s as [|y s]; [easy|].
  assert (1 <= Qnat (length (y :: s))) by (apply Qnat_pos; simpl; lia).
  qsolve.
Qed.

Lemma percentile_score_asc (s : Series) :
  percentile_score s true = map (fun x => Fin (pct_asc s x)) s.
Proof.
  unfold percentile_score, smul, rank. rewrite map_map.
  apply map_ext_in. intros x Hin.
  rewrite rank_of_bottom. unfold Float.of_nat. simpl.
  now rewrite (Qnat_length_nonzero x s Hin).
Qed.

Lemma percentile_score_desc (s : Series) :
  percentile_score s false = map (fun x => Fin (pct_desc s x)) s.
Proof.
  unfold percentile_score, smul, rank. rewrite !map_map.
  apply map_ext_in. intros x Hin.
  rewrite rank_of_bottom. unfold Float.of_nat. simpl.
  now rewrite (Qnat_length_nonzero x s Hin).
Qed.

Lemma pct_bounds (s : Series) (x : Float.t) :
  In x s ->
  0 < rank_q s x / Qnat (length s) <= 1.
Proof.
  intro Hin. pose proof (rank_q_bounds s x Hin) as [H1 H2].
  assert (HN : 0 < Qnat (length s)) by lra.
  split.
  - apply Qlt_shift_div_l; lra.
  - apply Qle_shift_div_r; lra.
Qed.

Lemma pct_asc_bounds (s : Series) (x : Float.t) :
  In x s -> 0 < pct_asc s x <= 100.
Proof.
  intro Hin. unfold pct_asc. pose proof (pct_bounds s x Hin). lra.
Qed.

Lemma pct_desc_bounds (s : Series) (x : Float.t) :
  In x s -> 0 <= pct_desc s x < 100.
Proof.
  intro Hin. unfold pct_desc. pose proof (pct_bounds s x Hin). lra.
Qed.

Lemma percentile_score_bounded (s : Series) (asc : bool) :
  Forall (bounded 0 100) (percentile_score s asc).
Proof.
  destruct asc.
  - rewrite percentile_score_asc. apply Forall_map_in. intros x Hin.
    exists (pct_asc s x). split; [reflexivity|].
    pose proof (pct_asc_bounds s x Hin). lra.
  - rewrite percentile_score_desc. apply Forall_map_in. intros x Hin.
    exists (pct_desc s x). split; [reflexivity|].
    pose proof (pct_desc_bounds s x Hin). lra.
Qed.

(** ** Bounds of weighted sums *)

Lemma bounded_weaken (lo hi lo' hi' : Q) (x : Float.t) :
  lo' <= lo -> hi <= hi' -> bounded lo hi x -> bounded lo' hi' x.
Proof.
  intros Hlo Hhi (q & -> & Hq). exists q. split; [reflexivity|lra].
Qed.

Lemma bounded_mul_const (lo hi c : Q) (x : Float.t) :
  0 <= c -> bounded lo hi x -> bounded (lo * c) (hi * c) (Float.mul x (Fin c)).
Proof.
  intros Hc (q & -> & Hq). exists (q * c). split; [reflexivity|].
  split; apply Qmult_le_compat_r; lra.
Qed.

Lemma bounded_add (a b c d : Q) (x y : Float.t) :
  bounded a b x -> bounded c d y -> bounded (a + c) (b + d) (Float.add x y).
Proof.
  intros (p & -> & Hp) (q & -> & Hq). exists (p + q). split; [reflexivity|lra].
Qed.

Lemma Forall_smul (lo hi c : Q) (s : Series) :
  0 <= c -> Forall (bounded lo hi) s -> Forall (bounded (lo * c) (hi * c)) (smul s c).
Proof.
  intros Hc H. unfold smul. apply Forall_map_in. intros x Hx.
  apply bounded_mul_const; [assumption|].
  rewrite Forall_forall in H. auto.
Qed.

Lemma Forall_sadd (a b c d : Q) (s1 s2 : Series) :
  Forall (bounded a b) s1 -> Forall (bounded c d) s2 ->
  Forall (bounded (a + c) (b + d)) (sadd s1 s2).
Proof.
  intros H1 H2. unfold sadd.
  apply (Forall_zipWith (bounded a b) (bounded c d)); auto using bounded_add.
Qed.

Lemma Forall_bounded_weaken (lo hi lo' hi' : Q) (s : Series) :
  lo' <= lo -> hi <= hi' -> Forall (bounded lo hi) s -> Forall (bounded lo' hi') s.
Proof.
  intros Hlo Hhi. apply Forall_impl. intro x. now apply bounded_weaken.
Qed.

Lemma length_sadd (s1 s2 : Series) (n : nat) :
  length s1 = n -> length s2 = n -> length (sadd s1 s2) = n.
Proof.
  intros H1 H2. unfold sadd. rewrite length_zipWith; congruence.
Qed.

Lemma length_smul (s : Series) (c : Q) : length (smul s c) = length s.
Proof. apply length_map. Qed.

(** A weighted sum of score columns stays in [0, 100] when the weights
    are non-negative and add up to one. *)
Ltac weighted_sum :=
  eapply Forall_bounded_weaken;
  [ | | repeat (first [ apply percentile_score_bounded
                       | apply Forall_sadd
                       | apply Forall_smul ]) ].

Ltac series_length :=
  unfold col, acs_col, fcc_col, m_col, clip_lower, fillna;
  repeat first
    [ apply length_sadd
    | rewrite length_smul
    | rewrite length_percentile_score
    | rewrite length_rank
    | rewrite length_map ];
  try reflexivity.

(** ** The four sub-scores *)

Lemma length_income_filled (df : list mrow) : length (income_filled df) = length df.
Proof. unfold income_filled. series_length. Qed.

Lemma length_income_score (df : list mrow) : length (income_score df) = length df.
Proof.
  unfold income_score, sprod, low_income_penalty.
  rewrite length_zipWith; rewrite length_percentile_score, ?length_map;
    now rewrite length_income_filled.
Qed.

Lemma income_score_bounded (df : list mrow) :
  Forall (bounded 0 100) (income_score df).
Proof.
  unfold income_score, sprod, low_income_penalty.
  apply (Forall_zipWith (bounded 0 100) (fun y => y = Fin 0.5 \/ y = Fin 1.0)).
  - intros a b (q & -> & Hq) [-> | ->]; simpl;
      eexists; (split; [reflexivity|]); lra.
  - apply percentile_score_bounded.
  - apply Forall_map_in. intros a _. destruct (Float.ltb a (Fin 30000)); auto.
Qed.

Lemma length_score_supply_gap (df : list mrow) :
  length (score_supply_gap df) = length df.
Proof. unfold score_supply_gap. series_length. Qed.

Lemma score_supply_gap_bounded (df : list mrow) :
  Forall (bounded 0 100) (score_supply_gap df).
Proof.
  unfold score_supply_gap. weighted_sum; lra.
Qed.

Lemma length_score_demand_signal (df : list mrow) :
  length (score_demand_signal df) = length df.
Proof.
  unfold score_demand_signal. series_length. apply length_income_score.
Qed.

Lemma score_demand_signal_bounded (df : list mrow) :
  Forall (bounded 0 100) (score_demand_signal df).
Proof.
  unfold score_demand_signal.
  weighted_sum; try apply income_score_bounded; lra.
Qed.

Lemma length_score_funding_tailwind (df : list mrow) :
  length (score_funding_tailwind df) = length df.
Proof. unfold score_funding_tailwind. series_length. Qed.

Lemma score_funding_tailwind_bounded (df : list mrow) :
  Forall (bounded 0 100) (score_funding_tailwind df).
Proof.
  unfold score_funding_tailwind. weighted_sum; lra.
Qed.

Lemma map_dict_rucc (x : Float.t) :
  map_dict rucc_map x = NaN \/ bounded 20 90 (map_dict rucc_map x).
Proof.
  unfold map_dict, rucc_map.
  repeat match goal with
         | |- context [Float.eqb x ?k] => destruct (Float.eqb x k)
         end;
    auto; right; eexists; (split; [reflexivity|]); lra.
Qed.

Lemma bsl_bucket_bounded (p : Float.t) : bounded 20 85 (bsl_bucket p).
Proof.
  unfold bsl_bucket.
  repeat match goal with
         | |- context [Float.ltb p ?k] => destruct (Float.ltb p k)
         end;
    eexists; (split; [reflexivity|]); lra.
Qed.

Lemma length_score_build_feasibility (df : list mrow) :
  length (score_build_feasibility df) = length df.
Proof. unfold score_build_feasibility. series_length. Qed.

Lemma score_build_feasibility_bounded (df : list mrow) :
  Forall (bounded 0 100) (score_build_feasibility df).
Proof.
  unfold score_build_feasibility.
  assert (H1 : Forall (bounded 0 100)
                 (fillna (map (map_dict rucc_map) (col (fun r => rucc_code (base r)) df))
                         (Fin 50))).
  2: assert (H2 : Forall (bounded 0 100)
                    (map bsl_bucket (rank (fcc_col FCC.TotalBSLs df) true true na_keep))).
  3: solve [weighted_sum; try eassumption; lra].
  - unfold fillna, col. rewrite !map_map. apply Forall_map_in. intros r _.
    cbv beta.
    destruct (map_dict_rucc (rucc_code (base r))) as [E | (q & E & Hq)];
      rewrite E; cbn [Float.isna].
    + exists 50. split; [reflexivity|lra].
    + exists q. split; [reflexivity|lra].
  - apply Forall_map_in. intros p _.
    eapply bounded_weaken; [| |apply bsl_bucket_bounded]; lra.
Qed.

(** ** The composite score *)

Lemma length_composite (S D F B : Series) (n : nat) :
  length S = n -> length D = n -> length F = n -> length B = n ->
  length (composite S D F B) = n.
Proof. intros. unfold composite. series_length; assumption. Qed.

Lemma composite_bounded (S D F B : Series) :
  Forall (bounded 0 100) S -> Forall (bounded 0 100) D ->
  Forall (bounded 0 100) F -> Forall (bounded 0 100) B ->
  Forall (bounded 0 100) (composite S D F B).
Proof.
  intros. unfold composite. weighted_sum; try eassumption; lra.
Qed.

(** ** Assembling the scored table *)

Lemma nth_error_with_columns df S D F B O R T (i : nat) (r : Scored.row) :
  nth_error (with_columns df S D F B O R T) i = Some r ->
  nth_error df i = Some (Scored.base r)
  /\ nth_error S i = Some (Scored.score_supply_gap r)
  /\ nth_error D i = Some (Scored.score_demand_signal r)
  /\ nth_error F i = Some (Scored.score_funding_tailwind r)
  /\ nth_error B i = Some (Scored.score_build_feasibility r)
  /\ nth_error O i = Some (Scored.opportunity_score r)
  /\ nth_error R i = Some (Scored.opportunity_rank r)
  /\ nth_error T i = Some (Scored.opportunity_tier r).
Proof.
  revert S D F B O R T i.
  induction df as [|x df IH];
    intros [|s S] [|d D] [|f F] [|b B] [|o O] [|k R] [|t T] i; simpl;
    try (destruct i; discriminate).
  destruct i as [|i]; simpl.
  - intros [= <-]. simpl. repeat split.
  - apply IH.
Qed.

Lemma length_with_columns df S D F B O R T :
  length S = length df -> length D = length df -> length F = length df ->
  length B = length df -> length O = length df -> length R = length df ->
  length T = length df ->
  length (with_columns df S D F B O R T) = length df.
Proof.
  revert S D F B O R T.
  induction df as [|x df IH];
    intros [|s S] [|d D] [|f F] [|b B] [|o O] [|k R] [|t T]; simpl;
    try discriminate; try reflexivity.
  intros. f_equal. apply IH; lia.
Qed.

(** ** The integer rank *)

Lemma astype_int_present (s : Series) :
  Forall (fun x => exists q, x = Fin q) s ->
  exists zs, astype_int s = Some zs
             /\ length zs = length s
             /\ forall i q, nth_error s i = Some (Fin q) ->
                            nth_error zs i = Some (trunc q).
Proof.
  induction 1 as [|x s (q & ->) _ (zs & E & Hlen & Hnth)]; simpl.
  - exists []. repeat split. intros [|i] q; discriminate.
  - rewrite E. exists (trunc q :: zs). repeat split.
    + simpl. now rewrite Hlen.
    + intros [|i] q'; simpl; [now intros [= ->]|apply Hnth].
Qed.

Lemma rank_desc_present (s : Series) :
  Forall (fun x => Float.isna x = false) s ->
  rank s false false na_keep = map (fun x => Fin (rank_desc_q s x)) s.
Proof.
  intro H. unfold rank. apply map_ext_in. intros x Hx.
  rewrite Forall_forall in H. specialize (H x Hx).
  destruct x; try reflexivity. discriminate.
Qed.

Lemma half_up (b t : nat) :
  (Z.of_nat (2 * b + t + 1) / 2 = Z.of_nat (b + (t + 1) / 2))%Z.
Proof.
  rewrite (Nat2Z.inj_add b), (Nat2Z.inj_div (t + 1) 2).
  replace (Z.of_nat (2 * b + t + 1)) with (Z.of_nat b * 2 + Z.of_nat (t + 1))%Z by lia.
  rewrite Z.div_add_l by lia. reflexivity.
Qed.

Lemma trunc_average_rank (before ties : nat) :
  trunc (average_rank before ties) = Z.of_nat (before + (ties + 1) / 2).
Proof.
  unfold trunc.
  assert (H0 : 0 <= average_rank before ties).
  { rewrite average_rank_half.
    pose proof (Qnat_nonneg before). pose proof (Qnat_nonneg ties). lra. }
  apply Qle_bool_iff in H0. rewrite H0.
  assert (E : average_rank before ties == Z.of_nat (2 * before + ties + 1) # 2).
  { rewrite average_rank_half. unfold Qnat.
    rewrite (Qmake_Qdiv (Z.of_nat (2 * before + ties + 1)) 2).
    replace (Z.of_nat (2 * before + ties + 1))
      with (2 * Z.of_nat before + Z.of_nat ties + 1)%Z by lia.
    rewrite !inject_Z_plus, inject_Z_mult. field. }
  rewrite E. unfold Qfloor. apply half_up.
Qed.

Lemma bounded_present (lo hi : Q) (s : Series) :
  Forall (bounded lo hi) s -> Forall (fun x => exists q, x = Fin q) s.
Proof.
  apply Forall_impl. intros x (q & -> & _). now exists q.
Qed.

Lemma present_notna (s : Series) :
  Forall (fun x => exists q, x = Fin q) s -> Forall (fun x => Float.isna x = false) s.
Proof.
  apply Forall_impl. now intros x (q & ->).
Qed.

(** The composite column of a table and the rank column computed from
    it. *)
Lemma opportunity_score_bounded (df : list mrow) :
  Forall (bounded 0 100)
         (composite (score_supply_gap df) (score_demand_signal df)
                    (score_funding_tailwind df) (score_build_feasibility df)).
Proof.
  apply composite_bounded;
    auto using score_supply_gap_bounded, score_demand_signal_bounded,
               score_funding_tailwind_bounded, score_build_feasibility_bounded.
Qed.

Lemma length_opportunity_score (df : list mrow) :
  length (composite (score_supply_gap df) (score_demand_signal df)
                    (score_funding_tailwind df) (score_build_feasibility df))
  = length df.
Proof.
  apply length_composite;
    auto using length_score_supply_gap, length_score_demand_signal,
               length_score_funding_tailwind, length_score_build_feasibility.
Qed.

Lemma opportunity_rank_ok (O : Series) :
  Forall (bounded 0 100) O ->
  exists R, astype_int (rank O false false na_keep) = Some R
            /\ length R = length O
            /\ forall i x, nth_error O i = Some x ->
                           nth_error R i = Some (truncated_average_rank O x).
Proof.
  intro HO. apply bounded_present in HO.
  rewrite (rank_desc_present O (present_notna O HO)).
  destruct (astype_int_present (map (fun x => Fin (rank_desc_q O x)) O))
    as (R & E & Hlen & Hnth).
  { apply Forall_map_in. intros x _. now eexists. }
  exists R. split; [assumption|]. split; [now rewrite Hlen, length_map|].
  intros i x Hx.
  rewrite (Hnth i (rank_desc_q O x)).
  - unfold rank_desc_q. now rewrite trunc_average_rank.
  - rewrite nth_error_map, Hx. reflexivity.
Qed.

(** The aggregator never raises, and its table has the rows of its
    input, each with the columns computed at its position. *)
Lemma build_composite_score_rows (df : list mrow) :
  let S := score_supply_gap df in
  let D := score_demand_signal df in
  let F := score_funding_tailwind df in
  let B := score_build_feasibility df in
  let O := composite S D F B in
  exists out,
    build_composite_score df = Some out
    /\ length out = length df
    /\ forall i r, nth_error out i = Some r ->
         nth_error df i = Some (Scored.base r)
         /\ nth_error S i = Some (Scored.score_supply_gap r)
         /\ nth_error D i = Some (Scored.score_demand_signal r)
         /\ nth_error F i = Some (Scored.score_funding_tailwind r)
         /\ nth_error B i = Some (Scored.score_build_feasibility r)
         /\ nth_error O i = Some (Scored.opportunity_score r)
         /\ Scored.opportunity_rank r
            = truncated_average_rank O (Scored.opportunity_score r)
         /\ Scored.opportunity_tier r
            = cut tier_bins tier_labels (Scored.opportunity_score r).
Proof.
  intros S D F B O.
  destruct (opportunity_rank_ok O (opportunity_score_bounded df))
    as (R & E & Hlen & Hrank).
  pose proof (length_opportunity_score df) as HO. fold S D F B O in HO.
  exists (with_columns df S D F B O R (map (cut tier_bins tier_labels) O)).
  split; [|split].
  - unfold build_composite_score. fold S D F B O. now rewrite E.
  - apply length_with_columns;
      rewrite ?length_map; unfold S, D, F, B;
      auto using length_score_supply_gap, length_score_demand_signal,
                 length_score_funding_tailwind, length_score_build_feasibility;
      congruence.
  - intros i r Hr. apply nth_error_with_columns in Hr.
    destruct Hr as (H1 & H2 & H3 & H4 & H5 & H6 & H7 & H8).
    repeat (split; [assumption|]).
    split.
    + rewrite (Hrank i _ H6) in H7. congruence.
    + rewrite nth_error_map, H6 in H8. simpl in H8. congruence.
Qed.

(** ** Claims about the composite score *)

Lemma nth_bounded (lo hi : Q) (s : Series) (i : nat) (x : Float.t) :
  Forall (bounded lo hi) s -> nth_error s i = Some x -> bounded lo hi x.
Proof.
  intros H Hx. rewrite Forall_forall in H. apply H. eapply nth_error_In; eauto.
Qed.

(** C1.  The aggregator returns a table with one row per tract, and in
    every row the composite opportunity score is
    0.40 * Supply Gap + 0.30 * Demand Signal + 0.15 * Funding Tailwind
    + 0.15 * Build Feasibility, within 1e-9 (in the exact arithmetic of
    this model the difference is zero). *)
Theorem composite_linear_combination (df : list mrow) :
  exists out,
    build_composite_score df = Some out
    /\ length out = length df
    /\ forall r, In r out ->
         exists s d f b c,
           Scored.score_supply_gap r = Fin s
           /\ Scored.score_demand_signal r = Fin d
           /\ Scored.score_funding_tailwind r = Fin f
           /\ Scored.score_build_feasibility r = Fin b
           /\ Scored.opportunity_score r = Fin c
           /\ Qabs (c - (0.40 * s + 0.30 * d + 0.15 * f + 0.15 * b)) < 1e-9.
Proof.
  destruct (build_composite_score_rows df) as (out & E & Hlen & Hrows).
  exists out. split; [assumption|]. split; [assumption|].
  intros r Hr. apply In_nth_error in Hr. destruct Hr as (i & Hi).
  destruct (Hrows i r Hi) as (_ & HS & HD & HF & HB & HO & _).
  destruct (nth_bounded _ _ _ _ _ (score_supply_gap_bounded df) HS) as (s & Es & _).
  destruct (nth_bounded _ _ _ _ _ (score_demand_signal_bounded df) HD) as (d & Ed & _).
  destruct (nth_bounded _ _ _ _ _ (score_funding_tailwind_bounded df) HF) as (f & Ef & _).
  destruct (nth_bounded _ _ _ _ _ (score_build_feasibility_bounded df) HB) as (b & Eb & _).
  exists s, d, f, b, (s * 0.40 + d * 0.30 + f * 0.15 + b * 0.15).
  repeat (split; [assumption|]).
  split.
  - unfold composite, sadd, smul in HO.
    rewrite !nth_error_zipWith, !nth_error_map, HS, HD, HF, HB, Es, Ed, Ef, Eb in HO.
    simpl in HO. congruence.
  - setoid_replace (s * 0.40 + d * 0.30 + f * 0.15 + b * 0.15
                    - (0.40 * s + 0.30 * d + 0.15 * f + 0.15 * b))
      with 0 by ring.
    reflexivity.
Qed.

Lemma composite_linear_combination_witness :
  exists out,
    build_composite_score fixture_df = Some out
    /\ length out = length fixture_df
    /\ forall r, In r out ->
         exists s d f b c,
           Scored.score_supply_gap r = Fin s
           /\ Scored.score_demand_signal r = Fin d
           /\ Scored.score_funding_tailwind r = Fin f
           /\ Scored.score_build_feasibility r = Fin b
           /\ Scored.opportunity_score r = Fin c
           /\ Qabs (c - (0.40 * s + 0.30 * d + 0.15 * f + 0.15 * b)) < 1e-9.
Proof. exact (composite_linear_combination fixture_df). Defined.

(** C3.  In every row of the scored table the four sub-scores and the
    composite score are numbers in [0, 100], whatever the cells of the
    input table hold (out-of-range ratios, infinities, missing values). *)
Theorem scores_within_0_100 (df : list mrow) :
  exists out,
    build_composite_score df = Some out
    /\ length out = length df
    /\ forall r, In r out ->
         bounded 0 100 (Scored.score_supply_gap r)
         /\ bounded 0 100 (Scored.score_demand_signal r)
         /\ bounded 0 100 (Scored.score_funding_tailwind r)
         /\ bounded 0 100 (Scored.score_build_feasibility r)
         /\ bounded 0 100 (Scored.opportunity_score r).
Proof.
  destruct (build_composite_score_rows df) as (out & E & Hlen & Hrows).
  exists out. split; [assumption|]. split; [assumption|].
  intros r Hr. apply In_nth_error in Hr. destruct Hr as (i & Hi).
  destruct (Hrows i r Hi) as (_ & HS & HD & HF & HB & HO & _).
  repeat split.
  - exact (nth_bounded _ _ _ _ _ (score_supply_gap_bounded df) HS).
  - exact (nth_bounded _ _ _ _ _ (score_demand_signal_bounded df) HD).
  - exact (nth_bounded _ _ _ _ _ (score_funding_tailwind_bounded df) HF).
  - exact (nth_bounded _ _ _ _ _ (score_build_feasibility_bounded df) HB).
  - exact (nth_bounded _ _ _ _ _ (opportunity_score_bounded df) HO).
Qed.

Lemma scores_within_0_100_witness :
  exists out,
    build_composite_score fixture_df = Some out
    /\ length out = length fixture_df
    /\ forall r, In r out ->
         bounded 0 100 (Scored.score_supply_gap r)
         /\ bounded 0 100 (Scored.score_demand_signal r)
         /\ bounded 0 100 (Scored.score_funding_tailwind r)
         /\ bounded 0 100 (Scored.score_build_feasibility r)
         /\ bounded 0 100 (Scored.opportunity_score r).
Proof. exact (scores_within_0_100 fixture_df). Defined.

(** ** Tier labels *)

Lemma cut_tier_of (c : Q) : cut tier_bins tier_labels (Fin c) = tier_of c.
Proof.
  unfold cut, searchsorted_left, tier_bins, tier_labels, tier_of, count.
  cbn [filter Float.ltb Float.isna orb].
  destruct (Qlt_bool 0 c) eqn:E0, (Qlt_bool 30 c) eqn:E30,
           (Qlt_bool 50 c) eqn:E50, (Qlt_bool 65 c) eqn:E65,
           (Qlt_bool 80 c) eqn:E80, (Qlt_bool 100 c) eqn:E100;
    qprop; try (exfalso; lra);
    destruct (Qle_bool c 30) eqn:L30, (Qle_bool c 50) eqn:L50,
             (Qle_bool c 65) eqn:L65, (Qle_bool c 80) eqn:L80,
             (Qle_bool c 100) eqn:L100;
    qprop; try (exfalso; lra); reflexivity.
Qed.

(** C5.  In every row of the scored table the tier label is the
    right-inclusive bucket of the composite score: (0,30] Low, (30,50]
    Below Average, (50,65] Moderate, (65,80] High, (80,100] Very High.  At
    the cut points: 30 is Low, 50 is Below Average, 65 is Moderate, 80 is
    High, and a score of exactly 0 has no label. *)
Theorem tier_right_inclusive :
  (forall df, exists out,
      build_composite_score df = Some out
      /\ length out = length df
      /\ forall r, In r out ->
           exists c, Scored.opportunity_score r = Fin c
                     /\ Scored.opportunity_tier r = tier_of c)
  /\ cut tier_bins tier_labels (Fin 30) = Some "Low"%string
  /\ cut tier_bins tier_labels (Fin 50) = Some "Below Average"%string
  /\ cut tier_bins tier_labels (Fin 65) = Some "Moderate"%string
  /\ cut tier_bins tier_labels (Fin 80) = Some "High"%string
  /\ cut tier_bins tier_labels (Fin 100) = Some "Very High"%string
  /\ cut tier_bins tier_labels (Fin 0) = None.
Proof.
  split; [|repeat split].
  intro df.
  destruct (build_composite_score_rows df) as (out & E & Hlen & Hrows).
  exists out. split; [assumption|]. split; [assumption|].
  intros r Hr. apply In_nth_error in Hr. destruct Hr as (i & Hi).
  destruct (Hrows i r Hi) as (_ & _ & _ & _ & _ & HO & _ & HT).
  destruct (nth_bounded _ _ _ _ _ (opportunity_score_bounded df) HO) as (c & Ec & _).
  exists c. split; [assumption|].
  rewrite HT, Ec. apply cut_tier_of.
Qed.

Lemma tier_right_inclusive_witness :
  exists out,
    build_composite_score fixture_df = Some out
    /\ length out = length fixture_df
    /\ forall r, In r out ->
         exists c, Scored.opportunity_score r = Fin c
                   /\ Scored.opportunity_tier r = tier_of c.
Proof. exact (proj1 tier_right_inclusive fixture_df). Defined.

(** ** Claims about the percentile normalizer *)

Lemma nth_percentile_score_asc (s : Series) (i : nat) :
  nth_error (percentile_score s true) i
  = option_map (fun x => Fin (pct_asc s x)) (nth_error s i).
Proof. rewrite percentile_score_asc. apply nth_error_map. Qed.

Lemma nth_percentile_score_desc (s : Series) (i : nat) :
  nth_error (percentile_score s false) i
  = option_map (fun x => Fin (pct_desc s x)) (nth_error s i).
Proof. rewrite percentile_score_desc. apply nth_error_map. Qed.

Lemma Qnat_length_pos {A} (x : A) (s : list A) : In x s -> 0 < Qnat (length s).
Proof.
  intro Hin. destruct s as [|y s]; [easy|].
  assert (1 <= Qnat (length (y :: s))) by (apply Qnat_pos; simpl; lia). lra.
Qed.

Lemma Qdiv_le_mono (a b n : Q) : 0 < n -> a <= b -> a / n <= b / n.
Proof.
  intros Hn Hab. unfold Qdiv. apply Qmult_le_compat_r; [assumption|].
  apply Qlt_le_weak. now apply Qinv_lt_0_compat.
Qed.

Lemma Qdiv_lt_mono (a b n : Q) : 0 < n -> a < b -> a / n < b / n.
Proof.
  intros Hn Hab. unfold Qdiv. apply Qmult_lt_compat_r; [|assumption].
  now apply Qinv_lt_0_compat.
Qed.

Lemma pct_asc_le (s : Series) (x y : Float.t) :
  In x s -> rank_q s x <= rank_q s y -> pct_asc s x <= pct_asc s y.
Proof.
  intros Hin H. unfold pct_asc.
  pose proof (Qdiv_le_mono _ _ _ (Qnat_length_pos x s Hin) H). lra.
Qed.

Lemma pct_asc_lt (s : Series) (x y : Float.t) :
  In x s -> rank_q s x < rank_q s y -> pct_asc s x < pct_asc s y.
Proof.
  intros Hin H. unfold pct_asc.
  pose proof (Qdiv_lt_mono _ _ _ (Qnat_length_pos x s Hin) H). lra.
Qed.

Lemma pct_desc_asc (s : Series) (x : Float.t) : pct_desc s x == 100 - pct_asc s x.
Proof. unfold pct_desc, pct_asc. ring. Qed.

(** A present cell ranks below every missing one. *)
Lemma rank_q_present_lt_missing (s : Series) (x : Float.t) :
  In x s -> Float.isna x = false -> In NaN s -> rank_q s x < rank_q s NaN.
Proof.
  intros Hx Hna Hnan.
  assert (Hties : (1 <= count (Float.eqb x) s)%nat)
    by (apply (count_pos _ x); auto using FloatFacts.eqb_refl).
  assert (Hsum : (count (fun y => Float.ltb y x) s + count (Float.eqb x) s
                  <= count Float.notna s)%nat).
  { apply count_split_le.
    - intros y H1 H2. exact (FloatFacts.ltb_eqb_disjoint _ _ H1 H2).
    - intros y H. now apply FloatFacts.ltb_notna in H.
    - intros y H. now apply FloatFacts.eqb_notna in H. }
  assert (Hmiss : (1 <= count Float.isna s)%nat) by now apply (count_pos _ NaN).
  apply Qnat_pos in Hties, Hmiss. apply Qnat_le in Hsum. rewrite Qnat_add in Hsum.
  pose proof (Qnat_nonneg (count (fun y => Float.ltb y x) s)).
  assert (E : rank_q s x
              = average_rank (count (fun y => Float.ltb y x) s) (count (Float.eqb x) s))
    by (destruct x; easy).
  rewrite E. unfold rank_q. rewrite !average_rank_half. lra.
Qed.

(** C2, as the code has it.  [na_option="bottom"] puts the missing cells
    after every present one: a missing cell is ranked (not excluded, not
    imputed), all missing cells share the mean of the last positions, and
    with [ascending=true] a missing cell scores strictly above every
    present cell; with [ascending=false] strictly below. *)
Theorem missing_ranked_last (s : Series) (i j : nat) (x : Float.t)
        (Hi : nth_error s i = Some NaN)
        (Hj : nth_error s j = Some x)
        (Hx : Float.isna x = false) :
  exists m p,
    m == average_rank (count Float.notna s) (count Float.isna s)
         / Qnat (length s) * 100
    /\ nth_error (percentile_score s true) i = Some (Fin m)
    /\ nth_error (percentile_score s true) j = Some (Fin p)
    /\ p < m
    /\ exists m' p',
        nth_error (percentile_score s false) i = Some (Fin m')
        /\ nth_error (percentile_score s false) j = Some (Fin p')
        /\ m' < p'.
Proof.
  assert (Hin : In x s) by (eapply nth_error_In; eauto).
  assert (Hnan : In NaN s) by (eapply nth_error_In; eauto).
  pose proof (pct_asc_lt s x NaN Hin (rank_q_present_lt_missing s x Hin Hx Hnan)) as Hlt.
  exists (pct_asc s NaN), (pct_asc s x).
  split; [reflexivity|].
  rewrite !nth_percentile_score_asc, Hi, Hj. simpl.
  repeat (split; [reflexivity || assumption|]).
  exists (pct_desc s NaN), (pct_desc s x).
  rewrite !nth_percentile_score_desc, Hi, Hj. simpl.
  repeat (split; [reflexivity|]).
  rewrite !pct_desc_asc. lra.
Qed.

Lemma missing_ranked_last_witness :
  exists m p,
    m == average_rank (count Float.notna [Fin 10; NaN; Fin 20]) (count Float.isna [Fin 10; NaN; Fin 20])
         / Qnat (length [Fin 10; NaN; Fin 20]) * 100
    /\ nth_error (percentile_score [Fin 10; NaN; Fin 20] true) 1 = Some (Fin m)
    /\ nth_error (percentile_score [Fin 10; NaN; Fin 20] true) 0 = Some (Fin p)
    /\ p < m
    /\ exists m' p',
        nth_error (percentile_score [Fin 10; NaN; Fin 20] false) 1 = Some (Fin m')
        /\ nth_error (percentile_score [Fin 10; NaN; Fin 20] false) 0 = Some (Fin p')
        /\ m' < p'.
Proof.
  apply (missing_ranked_last [Fin 10; NaN; Fin 20] 1 0 (Fin 10)); reflexivity.
Defined.

(** C2, as the specification states it, fails: in the column [10, NaN]
    the missing cell scores 100 and the present cell 50. *)
Lemma missing_scores_lowest_counterexample :
  (exists m p,
      nth_error (percentile_score [Fin 10; NaN] true) 1 = Some (Fin m)
      /\ nth_error (percentile_score [Fin 10; NaN] true) 0 = Some (Fin p)
      /\ m == 100 /\ p == 50)
  /\ ~ missing_scores_lowest [Fin 10; NaN].
Proof.
  split.
  - do 2 eexists. split; [reflexivity|]. split; [reflexivity|].
    split; reflexivity.
  - intro H.
    eapply Qlt_not_le; [|eapply (H 1%nat 0%nat (Fin 10)); reflexivity].
    reflexivity.
Qed.

Lemma count_partition {A} (p q : A -> bool) (s : list A) :
  (forall y, In y s -> p y = negb (q y)) ->
  (count p s + count q s = length s)%nat.
Proof.
  intro H. rewrite (count_ext p (fun y => negb (q y)) s H).
  rewrite Nat.add_comm. apply count_compl.
Qed.

Lemma count_eqb_missing (s : Series) (x : Float.t) :
  Float.isna x = true -> count (Float.eqb x) s = 0%nat.
Proof.
  intro Hx. destruct x; try discriminate.
  induction s as [|y s IH]; [reflexivity|].
  rewrite count_cons, IH. reflexivity.
Qed.

Lemma distinct_present_notna (s : Series) (x : Float.t) :
  distinct_present s -> In x s -> Float.isna x = false.
Proof.
  intros Hd Hx. destruct (Float.isna x) eqn:E; [|reflexivity].
  specialize (Hd x Hx). rewrite (count_eqb_missing s x E) in Hd. discriminate.
Qed.

Lemma rank_q_present (s : Series) (x : Float.t) :
  Float.isna x = false ->
  rank_q s x = average_rank (count (fun y => Float.ltb y x) s) (count (Float.eqb x) s).
Proof. destruct x; easy. Qed.

(** In a column of distinct present values the largest has rank [N]. *)
Lemma rank_q_max (s : Series) (x : Float.t) :
  distinct_present s -> In x s ->
  (forall y, In y s -> Float.ltb x y = false) ->
  rank_q s x == Qnat (length s).
Proof.
  intros Hd Hx Hmax.
  pose proof (distinct_present_notna s x Hd Hx) as Hna.
  rewrite (rank_q_present s x Hna), (Hd x Hx), average_rank_half.
  assert (E : (count (fun y => Float.ltb y x) s + count (Float.eqb x) s
               = length s)%nat).
  { apply count_partition. intros y Hy.
    pose proof (distinct_present_notna s y Hd Hy) as Hy'.
    destruct (FloatFacts.trichotomy y x) as [H | [H | H]];
      unfold Float.notna; rewrite ?Hy', ?Hna; try reflexivity.
    - rewrite H. destruct (Float.eqb x y) eqn:E; [|reflexivity].
      exfalso. exact (FloatFacts.ltb_eqb_disjoint _ _ H E).
    - rewrite FloatFacts.eqb_sym in H. rewrite H.
      destruct (Float.ltb y x) eqn:E; [|reflexivity].
      exfalso. exact (FloatFacts.ltb_eqb_disjoint _ _ E H).
    - rewrite (Hmax y Hy) in H. discriminate. }
  rewrite (Hd x Hx) in E. rewrite <- E, Qnat_add.
  change (Qnat 1) with 1. lra.
Qed.

(** The smallest present value has no value below it: its rank is the
    lowest there is. *)
Lemma rank_q_min (s : Series) (x y : Float.t) :
  distinct_present s -> In x s -> In y s ->
  (forall z, In z s -> Float.ltb z x = false) ->
  rank_q s x <= rank_q s y.
Proof.
  intros Hd Hx Hy Hmin.
  pose proof (distinct_present_notna s x Hd Hx) as Hna.
  rewrite (rank_q_present s x Hna), (Hd x Hx), average_rank_half.
  assert (E : count (fun z => Float.ltb z x) s = 0%nat).
  { rewrite (count_ext _ (fun _ => false) s Hmin).
    clear. induction s as [|z s IH]; [reflexivity|]. now rewrite count_cons, IH. }
  rewrite E. change (Qnat 0) with 0. change (Qnat 1) with 1.
  pose proof (rank_q_bounds s y Hy). lra.
Qed.

(** C8.  For every column and every row the score with
    [ascending=false] is 100 minus the score with [ascending=true]; and in
    a column of distinct present values, with [ascending=true] the largest
    value scores 100 and the smallest value has the lowest score of any
    row. *)
Theorem percentile_score_direction (s : Series) :
  (forall i x, nth_error s i = Some x ->
     exists a d,
       nth_error (percentile_score s true) i = Some (Fin a)
       /\ nth_error (percentile_score s false) i = Some (Fin d)
       /\ d == 100 - a)
  /\ (distinct_present s ->
      forall i x, nth_error s i = Some x ->
        exists a,
          nth_error (percentile_score s true) i = Some (Fin a)
          /\ ((forall y, In y s -> Float.ltb x y = false) -> a == 100)
          /\ ((forall y, In y s -> Float.ltb y x = false) ->
              forall j b, nth_error (percentile_score s true) j = Some (Fin b) ->
                          a <= b)).
Proof.
  split.
  - intros i x Hi. exists (pct_asc s x), (pct_desc s x).
    rewrite nth_percentile_score_asc, nth_percentile_score_desc, Hi. simpl.
    repeat (split; [reflexivity|]). apply pct_desc_asc.
  - intros Hd i x Hi.
    assert (Hx : In x s) by (eapply nth_error_In; eauto).
    exists (pct_asc s x).
    rewrite nth_percentile_score_asc, Hi. simpl.
    split; [reflexivity|]. split.
    + intro Hmax. unfold pct_asc. rewrite (rank_q_max s x Hd Hx Hmax).
      pose proof (Qnat_length_pos x s Hx). field. lra.
    + intros Hmin j b Hj.
      rewrite nth_percentile_score_asc in Hj.
      destruct (nth_error s j) as [y|] eqn:Ey; [|discriminate].
      simpl in Hj. injection Hj as <-.
      apply pct_asc_le; [assumption|].
      apply rank_q_min; try assumption. eapply nth_error_In; eauto.
Qed.

Lemma percentile_score_direction_witness :
  distinct_present [Fin 30; Fin 10; Fin 20]
  /\ (exists a,
        nth_error (percentile_score [Fin 30; Fin 10; Fin 20] true) 0 = Some (Fin a)
        /\ a == 100)
  /\ (exists a,
        nth_error (percentile_score [Fin 30; Fin 10; Fin 20] true) 1 = Some (Fin a)
        /\ forall j b,
             nth_error (percentile_score [Fin 30; Fin 10; Fin 20] true) j = Some (Fin b) ->
             a <= b).
Proof.
  assert (D : distinct_present [Fin 30; Fin 10; Fin 20]).
  { intros x [<-|[<-|[<-|[]]]]; reflexivity. }
  split; [exact D|].
  destruct (percentile_score_direction [Fin 30; Fin 10; Fin 20]) as [_ H].
  split.
  - destruct (H D 0%nat (Fin 30) eq_refl) as (a & Ea & Hmax & _).
    exists a. split; [exact Ea|]. apply Hmax.
    intros y [<-|[<-|[<-|[]]]]; reflexivity.
  - destruct (H D 1%nat (Fin 10) eq_refl) as (a & Ea & _ & Hmin).
    exists a. split; [exact Ea|]. apply Hmin.
    intros y [<-|[<-|[<-|[]]]]; reflexivity.
Defined.

(** ** The opportunity rank *)

Lemma half_up_bounds (t : nat) : (1 <= t -> 1 <= (t + 1) / 2 <= t)%nat.
Proof.
  intro Ht.
  pose proof (Nat.div_mod_eq (t + 1) 2).
  pose proof (Nat.mod_upper_bound (t + 1) 2). lia.
Qed.

Lemma truncated_average_rank_tie (O : Series) (x y : Float.t) :
  Float.eqb x y = true ->
  truncated_average_rank O x = truncated_average_rank O y.
Proof.
  intro E. unfold truncated_average_rank.
  assert (E' : Float.eqb y x = true) by now rewrite FloatFacts.eqb_sym.
  rewrite (count_ext (fun z => Float.ltb x z) (fun z => Float.ltb y z) O),
          (count_ext (Float.eqb x) (Float.eqb y) O); [reflexivity| |].
  - intros z _. destruct (Float.eqb x z) eqn:E1, (Float.eqb y z) eqn:E2;
      try reflexivity.
    + rewrite (FloatFacts.eqb_trans _ _ _ E' E1) in E2. discriminate.
    + rewrite (FloatFacts.eqb_trans _ _ _ E E2) in E1. discriminate.
  - intros z _. destruct (Float.ltb x z) eqn:E1, (Float.ltb y z) eqn:E2;
      try reflexivity.
    + rewrite (FloatFacts.eqb_ltb_trans _ _ _ E' E1) in E2. discriminate.
    + rewrite (FloatFacts.eqb_ltb_trans _ _ _ E E2) in E1. discriminate.
Qed.

Lemma truncated_average_rank_mono (O : Series) (x y : Float.t) :
  In x O -> In y O -> Float.ltb y x = true ->
  (truncated_average_rank O x < truncated_average_rank O y)%Z.
Proof.
  intros Hx Hy Hlt. unfold truncated_average_rank.
  destruct (FloatFacts.ltb_notna _ _ Hlt) as [Hyna Hxna].
  unfold Float.notna in Hyna, Hxna. rewrite negb_true_iff in Hyna, Hxna.
  assert (Tx : (1 <= count (Float.eqb x) O)%nat)
    by (apply (count_pos _ x); auto using FloatFacts.eqb_refl).
  assert (Ty : (1 <= count (Float.eqb y) O)%nat)
    by (apply (count_pos _ y); auto using FloatFacts.eqb_refl).
  assert (Hsum : (count (fun z => Float.ltb x z) O + count (Float.eqb x) O
                  <= count (fun z => Float.ltb y z) O)%nat).
  { apply count_split_le.
    - intros z H1 H2. rewrite FloatFacts.eqb_sym in H2.
      exact (FloatFacts.ltb_eqb_disjoint _ _ H1 H2).
    - intros z H. exact (FloatFacts.ltb_trans _ _ _ Hlt H).
    - intros z H. exact (FloatFacts.ltb_eqb_trans _ _ _ Hlt H). }
  pose proof (half_up_bounds _ Tx). pose proof (half_up_bounds _ Ty). lia.
Qed.

Lemma truncated_average_rank_pos (O : Series) (x : Float.t) :
  In x O -> Float.isna x = false -> (1 <= truncated_average_rank O x)%Z.
Proof.
  intros Hx Hna. unfold truncated_average_rank.
  assert (Tx : (1 <= count (Float.eqb x) O)%nat)
    by (apply (count_pos _ x); auto using FloatFacts.eqb_refl).
  pose proof (half_up_bounds _ Tx). lia.
Qed.

Lemma map_opportunity_score (df : list mrow) (out : list Scored.row) :
  length out = length df ->
  (forall i r, nth_error out i = Some r ->
     nth_error (composite (score_supply_gap df) (score_demand_signal df)
                          (score_funding_tailwind df) (score_build_feasibility df)) i
     = Some (Scored.opportunity_score r)) ->
  map Scored.opportunity_score out
  = composite (score_supply_gap df) (score_demand_signal df)
              (score_funding_tailwind df) (score_build_feasibility df).
Proof.
  intros Hlen H. apply nth_error_ext. intro i.
  rewrite nth_error_map.
  destruct (nth_error out i) as [r|] eqn:E; simpl.
  - symmetry. now apply H.
  - symmetry. apply nth_error_None. rewrite length_opportunity_score, <- Hlen.
    now apply nth_error_None.
Qed.

(** C4, as the code has it.  The rank column is pandas' average rank in
    descending order, truncated to an integer: the number of tracts with a
    strictly higher composite score, plus half of (the number of tracts
    with that score, plus one), rounded down.  Ranks are at least 1; a
    tract with the highest score that ties with at most one other tract
    has rank 1; equal scores have equal ranks; and a strictly higher score
    has a strictly smaller rank. *)
Theorem rank_truncated_average (df : list mrow) :
  exists out,
    build_composite_score df = Some out
    /\ length out = length df
    /\ let O := map Scored.opportunity_score out in
       forall a, In a out ->
         let x := Scored.opportunity_score a in
         Scored.opportunity_rank a
         = Z.of_nat (count (fun y => Float.ltb x y) O
                     + (count (Float.eqb x) O + 1) / 2)
         /\ (1 <= Scored.opportunity_rank a)%Z
         /\ (count (fun y => Float.ltb x y) O = 0%nat ->
             (count (Float.eqb x) O <= 2)%nat ->
             Scored.opportunity_rank a = 1%Z)
         /\ forall b, In b out ->
              let y := Scored.opportunity_score b in
              (Float.eqb x y = true ->
               Scored.opportunity_rank a = Scored.opportunity_rank b)
              /\ (Float.ltb y x = true ->
                  (Scored.opportunity_rank a < Scored.opportunity_rank b)%Z).
Proof.
  destruct (build_composite_score_rows df) as (out & E & Hlen & Hrows).
  exists out. split; [assumption|]. split; [assumption|].
  assert (EO : map Scored.opportunity_score out
               = composite (score_supply_gap df) (score_demand_signal df)
                           (score_funding_tailwind df) (score_build_feasibility df)).
  { apply map_opportunity_score; [assumption|]. intros i r Hr. apply (Hrows i r Hr). }
  intros O a Ha x.
  assert (Hrank : forall r, In r out ->
            Scored.opportunity_rank r
            = truncated_average_rank O (Scored.opportunity_score r)).
  { intros r Hr. apply In_nth_error in Hr. destruct Hr as (i & Hi).
    unfold O. rewrite EO. apply (Hrows i r Hi). }
  assert (Hin : forall r, In r out -> In (Scored.opportunity_score r) O).
  { intros r Hr. unfold O. now apply in_map. }
  assert (Hna : forall r, In r out -> Float.isna (Scored.opportunity_score r) = false).
  { intros r Hr. specialize (Hin r Hr). unfold O in Hin. rewrite EO in Hin.
    pose proof (opportunity_score_bounded df) as Hb. rewrite Forall_forall in Hb.
    destruct (Hb _ Hin) as (q & -> & _). reflexivity. }
  split; [exact (Hrank a Ha)|]. split; [|split].
  - rewrite (Hrank a Ha). apply truncated_average_rank_pos; auto.
  - intros H0 H2. rewrite (Hrank a Ha). unfold truncated_average_rank. fold x.
    rewrite H0.
    assert (Tx : (1 <= count (Float.eqb x) O)%nat).
    { apply (count_pos _ x); [exact (Hin a Ha)|].
      apply FloatFacts.eqb_refl. exact (Hna a Ha). }
    assert (C : count (Float.eqb x) O = 1%nat \/ count (Float.eqb x) O = 2%nat) by lia.
    destruct C as [-> | ->]; reflexivity.
  - intros b Hb y. rewrite (Hrank a Ha), (Hrank b Hb). split.
    + apply truncated_average_rank_tie.
    + apply truncated_average_rank_mono; auto.
Qed.

(** C4, as the specification states it, fails on the fixture: two tracts
    tie for the highest composite score, and the tracts below them have
    ranks 4 and 3 where a dense rank gives 3 and 2. *)
Lemma dense_rank_counterexample :
  exists out,
    build_composite_score fixture_df = Some out
    /\ map Scored.opportunity_rank out = [1; 1; 4; 3]%Z
    /\ map (fun r => dense_rank (map Scored.opportunity_score out)
                                (Scored.opportunity_score r)) out
       = [1; 1; 3; 2]%Z
    /\ ~ dense_ranked out.
Proof.
  exists (match build_composite_score fixture_df with Some o => o | None => [] end).
  split; [vm_compute; reflexivity|].
  split; [vm_compute; reflexivity|].
  split; [vm_compute; reflexivity|].
  intro H.
  match type of H with
  | dense_ranked ?o =>
      destruct (nth_error o 2) as [r|] eqn:E; [|vm_compute in E; discriminate];
      specialize (H 2%nat r E)
  end.
  vm_compute in E. injection E as <-. vm_compute in H. discriminate.
Qed.

Lemma rank_truncated_average_witness :
  exists out,
    build_composite_score fixture_df = Some out
    /\ length out = length fixture_df
    /\ forall a b, In a out -> In b out ->
         Float.ltb (Scored.opportunity_score b) (Scored.opportunity_score a) = true ->
         (Scored.opportunity_rank a < Scored.opportunity_rank b)%Z.
Proof.
  destruct (rank_truncated_average fixture_df) as (out & E & Hlen & H).
  exists out. split; [exact E|]. split; [exact Hlen|].
  intros a b Ha Hb.
  destruct (H a Ha) as (_ & _ & _ & Hpair).
  exact (proj2 (Hpair b Hb)).
Defined.

(** ** The income component of the Demand Signal *)

Example median_skips_missing :
  median [Fin 3; NaN; Fin 1; Fin 2; Fin 10] = Fin ((2 + 3) / 2).
Proof. reflexivity. Qed.

Example median_of_nothing : median [NaN; NaN] = NaN.
Proof. reflexivity. Qed.

Lemma nth_income_filled (df : list mrow) (i : nat) (r : mrow) :
  nth_error df i = Some r ->
  nth_error (income_filled df) i
  = Some (if Float.isna (ACS.median_hh_income (acs (base r)))
          then median (acs_col ACS.median_hh_income df)
          else ACS.median_hh_income (acs (base r))).
Proof.
  intro Hi. unfold income_filled, fillna, acs_col, col.
  rewrite !nth_error_map, Hi. reflexivity.
Qed.

(** C6.  In the Demand Signal engine a missing median household income
    is replaced by the median of the present incomes, and the percentile is
    taken over the column after that replacement.  The income component of
    a tract is that percentile times 0.5 when the tract's post-fill income
    (the median for a missing cell, the raw income otherwise) is below
    30000, and the percentile unchanged otherwise: the penalty multiplies
    the normalized score and does not enter the ranking. *)
Theorem income_imputed_then_penalised (df : list mrow) (i : nat) (r : mrow)
        (Hi : nth_error df i = Some r) :
  let income := acs_col ACS.median_hh_income df in
  let raw := ACS.median_hh_income (acs (base r)) in
  let post_fill := if Float.isna raw then median income else raw in
  nth_error (income_filled df) i = Some post_fill
  /\ exists p,
       nth_error (percentile_score (income_filled df) true) i = Some (Fin p)
       /\ p == rank_q (income_filled df) post_fill / Qnat (length df) * 100
       /\ (Float.ltb post_fill (Fin 30000) = true ->
           nth_error (income_score df) i = Some (Fin (p * 0.5)))
       /\ (Float.ltb post_fill (Fin 30000) = false ->
           nth_error (income_score df) i = Some (Fin (p * 1.0))).
Proof.
  intros income raw post_fill.
  pose proof (nth_income_filled df i r Hi) as Hf. fold income raw post_fill in Hf.
  split; [exact Hf|].
  exists (pct_asc (income_filled df) post_fill).
  assert (Hp : nth_error (percentile_score (income_filled df) true) i
               = Some (Fin (pct_asc (income_filled df) post_fill)))
    by (rewrite nth_percentile_score_asc, Hf; reflexivity).
  split; [exact Hp|]. split.
  - unfold pct_asc. now rewrite length_income_filled.
  - unfold income_score, sprod, low_income_penalty.
    rewrite nth_error_zipWith, Hp, nth_error_map, Hf. simpl.
    split; intros ->; reflexivity.
Qed.

(** On the fixture the first tract has no income: it is given the median
    56500 of the two present incomes and keeps its percentile; the fourth
    has income 28000 and its percentile is halved. *)
Lemma income_imputed_then_penalised_witness :
  (exists r p,
      nth_error fixture_df 0 = Some r
      /\ ACS.median_hh_income (acs (base r)) = NaN
      /\ nth_error (income_filled fixture_df) 0 = Some (Fin ((28000 + 85000) / 2))
      /\ nth_error (percentile_score (income_filled fixture_df) true) 0 = Some (Fin p)
      /\ nth_error (income_score fixture_df) 0 = Some (Fin (p * 1.0)))
  /\ (exists r p,
         nth_error fixture_df 3 = Some r
         /\ ACS.median_hh_income (acs (base r)) = Fin 28000
         /\ nth_error (percentile_score (income_filled fixture_df) true) 3 = Some (Fin p)
         /\ nth_error (income_score fixture_df) 3 = Some (Fin (p * 0.5))).
Proof.
  split.
  - destruct (nth_error fixture_df 0) as [r|] eqn:E; [|discriminate E].
    destruct (income_imputed_then_penalised fixture_df 0 r E)
      as (Hf & p & Hp & _ & _ & Hkeep).
    exists r, p. injection E as <-.
    split; [reflexivity|]. split; [reflexivity|]. split; [exact Hf|].
    split; [exact Hp|]. apply Hkeep. reflexivity.
  - destruct (nth_error fixture_df 3) as [r|] eqn:E; [|discriminate E].
    destruct (income_imputed_then_penalised fixture_df 3 r E)
      as (Hf & p & Hp & _ & Hhalf & _).
    exists r, p. injection E as <-.
    split; [reflexivity|]. split; [reflexivity|].
    split; [exact Hp|]. apply Hhalf. reflexivity.
Defined.

(** ** Derived metrics *)

Lemma retained_iff (r : tract) :
  retained r = true <->
  Float.ltb (Fin 0) (ACS.total_population (acs r)) = true
  /\ Float.ltb (Fin 0) (ACS.hh_total (acs r)) = true
  /\ Float.ltb (Fin 0) (FCC.TotalBSLs (fcc r)) = true.
Proof.
  unfold retained, Float.gtb. rewrite !andb_true_iff. tauto.
Qed.

Lemma positive_nonzero (x : Float.t) :
  Float.ltb (Fin 0) x = true -> Float.eqb x (Fin 0) = false.
Proof.
  destruct x; simpl; intro H; try reflexivity. qsolve.
Qed.

Lemma replace_zero_nonzero (x : Float.t) :
  Float.eqb (replace (Fin 0) NaN x) (Fin 0) = false.
Proof.
  unfold replace. destruct (Float.eqb x (Fin 0)) eqn:E; [reflexivity|assumption].
Qed.

Lemma replace_zero_missing (x : Float.t) :
  Float.eqb x (Fin 0) = true -> replace (Fin 0) NaN x = NaN.
Proof. unfold replace. now intros ->. Qed.

Lemma not_inf_replace (x : Float.t) : not_inf x -> not_inf (replace (Fin 0) NaN x).
Proof. unfold replace. now destruct (Float.eqb x (Fin 0)). Qed.

Lemma not_inf_add (x y : Float.t) : not_inf x -> not_inf y -> not_inf (Float.add x y).
Proof. destruct x, y; easy. Qed.

Lemma not_inf_sub (x y : Float.t) : not_inf x -> not_inf y -> not_inf (Float.sub x y).
Proof. destruct x, y; easy. Qed.

Lemma not_inf_add_as (t : dtype) (x y : Float.t) :
  not_inf x -> not_inf y -> not_inf (add_as t x y).
Proof. destruct t, x, y; easy. Qed.

Lemma not_inf_sub_as (t : dtype) (x y : Float.t) :
  not_inf x -> not_inf y -> not_inf (sub_as t x y).
Proof. destruct t, x, y; easy. Qed.

Lemma not_inf_mul (x y : Float.t) : not_inf x -> not_inf y -> not_inf (Float.mul x y).
Proof. destruct x, y; easy. Qed.

(** A quotient is infinite only through an infinite operand or a zero
    denominator. *)
Lemma not_inf_div (x y : Float.t) :
  not_inf x -> not_inf y -> Float.eqb y (Fin 0) = false -> not_inf (Float.div x y).
Proof.
  destruct x, y; try easy. unfold not_inf. simpl. now intros _ _ ->.
Qed.

Lemma div_missing (x : Float.t) : Float.div x NaN = NaN.
Proof. now destruct x. Qed.

Lemma mul_missing (y : Float.t) : Float.mul NaN y = NaN.
Proof. now destruct y. Qed.

Lemma retained_clean_income (r : tract) : retained (clean_income r) = retained r.
Proof. reflexivity. Qed.

(** Every row the loader returns passes the retention filter. *)
Lemma load_and_merge_retained acs_t fcc_t rucc_t (r : tract) :
  In r (load_and_merge acs_t fcc_t rucc_t) -> retained r = true.
Proof.
  unfold load_and_merge. intro H.
  apply in_map_iff in H. destruct H as (r' & <- & H).
  apply filter_In in H. now rewrite retained_clean_income.
Qed.

(** C9.  For a row that passes the retention filter, no denominator of
    the derived-metrics stage is zero: total BSLs and total households are positive, and the education,
    employment, race and computer denominators have their zeros replaced by
    a missing value, in which case the ratio is missing.  Division itself
    never raises.  When the raw cells are numbers or missing, no derived
    metric is infinite. *)
Theorem derived_metrics_guarded (dt : dtypes) (r : tract) (Hret : retained r = true) :
  Forall (fun d => Float.eqb d (Fin 0) = false) (denominators r)
  /\ (Float.eqb (ACS.edu_total_25plus (acs r)) (Fin 0) = true ->
      pct_bachelors_plus (derived dt r) = NaN)
  /\ (Float.eqb (ACS.emp_civilian_labor (acs r)) (Fin 0) = true ->
      unemployment_rate (derived dt r) = NaN)
  /\ (Float.eqb (ACS.race_total (acs r)) (Fin 0) = true ->
      pct_minority (derived dt r) = NaN)
  /\ (Float.eqb (ACS.comp_total_hh (acs r)) (Fin 0) = true ->
      pct_no_computer (derived dt r) = NaN)
  /\ (Forall not_inf (acs_cells (acs r)) -> Forall not_inf (fcc_cells (fcc r)) ->
      Forall not_inf (metric_cells (derived dt r))).
Proof.
  apply retained_iff in Hret. destruct Hret as (_ & Hhh & Hbsl).
  apply positive_nonzero in Hhh, Hbsl.
  split; [|split; [|split; [|split; [|split]]]].
  - unfold denominators.
    repeat constructor; auto using replace_zero_nonzero.
  - intro Hz. simpl. now rewrite (replace_zero_missing _ Hz), div_missing, mul_missing.
  - intro Hz. simpl. now rewrite (replace_zero_missing _ Hz), div_missing, mul_missing.
  - intro Hz. simpl. now rewrite (replace_zero_missing _ Hz), div_missing, mul_missing.
  - intro Hz. simpl. now rewrite (replace_zero_missing _ Hz), div_missing, mul_missing.
  - intros Ha Hf. unfold acs_cells in Ha. unfold fcc_cells in Hf.
    repeat match goal with
           | H : Forall _ (_ :: _) |- _ => inversion H; subst; clear H
           | H : Forall _ [] |- _ => clear H
           end.
    unfold metric_cells, derived. cbn [pct_unserved pct_underserved
      pct_unserved_underserved pct_fiber_unserved pct_no_fiber pct_copper_served
      pct_no_internet pct_cellular_only pct_broadband pct_cable_fiber_dsl
      pct_served adoption_gap pct_bachelors_plus unemployment_rate pct_minority
      hh_per_bsl pct_no_computer].
    assert (H100 : not_inf (Fin 100)) by reflexivity.
    repeat constructor;
      repeat first
        [ assumption
        | apply replace_zero_nonzero
        | apply not_inf_replace
        | apply not_inf_mul
        | apply not_inf_div
        | apply not_inf_sub
        | apply not_inf_add
        | apply not_inf_sub_as
        | apply not_inf_add_as ].
Qed.

Lemma derived_metrics_guarded_witness :
  retained fixture_empty_universe = true
  /\ Forall (fun d => Float.eqb d (Fin 0) = false) (denominators fixture_empty_universe)
  /\ pct_bachelors_plus (derived fixture_empty_universe_dtypes fixture_empty_universe) = NaN
  /\ unemployment_rate (derived fixture_empty_universe_dtypes fixture_empty_universe) = NaN
  /\ pct_minority (derived fixture_empty_universe_dtypes fixture_empty_universe) = NaN
  /\ pct_no_computer (derived fixture_empty_universe_dtypes fixture_empty_universe) = NaN
  /\ Forall not_inf (metric_cells (derived fixture_empty_universe_dtypes fixture_empty_universe)).
Proof.
  destruct (derived_metrics_guarded fixture_empty_universe_dtypes
                                    fixture_empty_universe eq_refl)
    as (Hd & Hedu & Hemp & Hrace & Hcomp & Hfin).
  split; [reflexivity|]. split; [exact Hd|].
  split; [exact (Hedu eq_refl)|]. split; [exact (Hemp eq_refl)|].
  split; [exact (Hrace eq_refl)|]. split; [exact (Hcomp eq_refl)|].
  apply Hfin; repeat constructor.
Defined.

(** ** Empty inputs *)

Lemma merge_inner_nil_l (fcc_t : list FCC.row) : merge_inner [] fcc_t = [].
Proof. reflexivity. Qed.

Lemma merge_inner_nil_r (acs_t : list ACS.row) : merge_inner acs_t [] = [].
Proof.
  unfold merge_inner. induction acs_t as [|a l IH]; [reflexivity|exact IH].
Qed.

Lemma load_and_merge_no_match acs_t fcc_t rucc_t :
  merge_inner acs_t fcc_t = [] -> load_and_merge acs_t fcc_t rucc_t = [].
Proof. unfold load_and_merge. now intros ->. Qed.

Lemma read_written (t c : table) (fs : files) :
  let fs' := to_csv "county_scores.csv" c (to_csv "tract_scores.csv" t fs) in
  read "tract_scores.csv" fs' = Some t /\ read "county_scores.csv" fs' = Some c.
Proof. split; reflexivity. Qed.

(** C7, as the code has it.  The pipeline has no check for empty tables:
    when the demographic table or the supply table has no rows, or their
    inner join on GEOID has none, every stage runs on the empty table, the
    run ends normally, and both the tract-score table and the county table
    are written, each with zero rows. *)
Theorem empty_input_writes_empty_tables
        (acs_t : list ACS.row) (fcc_t : list FCC.row) (rucc_t : list RUCC.row)
        (fs : files)
        (Hempty : acs_t = [] \/ fcc_t = [] \/ merge_inner acs_t fcc_t = []) :
  exists fs',
    main acs_t fcc_t rucc_t fs = Some (fs', ([], []))
    /\ read "tract_scores.csv" fs' = Some (TractTable [])
    /\ read "county_scores.csv" fs' = Some (CountyTable []).
Proof.
  assert (Hjoin : merge_inner acs_t fcc_t = []).
  { destruct Hempty as [-> | [-> | H]];
      auto using merge_inner_nil_l, merge_inner_nil_r. }
  unfold main. rewrite (load_and_merge_no_match _ _ rucc_t Hjoin).
  cbn [compute_derived_metrics map].
  change (build_composite_score []) with (Some (@nil Scored.row)).
  cbv iota beta zeta.
  change (nlargest 20 []) with (@nil Scored.row).
  change (county_rollup (read_dtypes acs_t fcc_t) []) with (@nil County.row).
  cbn [forallb firstn].
  eexists. split; [reflexivity|]. apply read_written.
Qed.

Lemma empty_input_writes_empty_tables_witness :
  exists fs',
    main [] fixture_fcc fixture_rucc [] = Some (fs', ([], []))
    /\ read "tract_scores.csv" fs' = Some (TractTable [])
    /\ read "county_scores.csv" fs' = Some (CountyTable []).
Proof.
  apply (empty_input_writes_empty_tables [] fixture_fcc fixture_rucc []).
  left. reflexivity.
Defined.

(** C7, as the specification states it, fails: with an empty demographic
    table, and with two non-empty tables that share no GEOID, the run does
    not halt and both files are written. *)
Lemma halts_without_output_counterexample :
  ~ halts_without_output [] fixture_fcc fixture_rucc []
  /\ (let acs_t := [acs_row "39001000100" 3000 1200 100 900 (Fin 60000)] in
      let fcc_t := [fcc_row "39001000200" "Adams" 800 100 50 200 4 1] in
      acs_t <> [] /\ fcc_t <> []
      /\ merge_inner acs_t fcc_t = []
      /\ ~ halts_without_output acs_t fcc_t fixture_rucc []
      /\ main acs_t fcc_t fixture_rucc []
         = Some ([("county_scores.csv", CountyTable []);
                  ("tract_scores.csv", TractTable [])]%string, ([], []))).
Proof.
  unfold halts_without_output.
  split; [discriminate|].
  cbv zeta. split; [discriminate|]. split; [discriminate|].
  split; [reflexivity|]. split; [discriminate|reflexivity].
Qed.

(** ** The county rollup *)

Lemma group_key_has_rurality (r : Scored.row) (k : county_key) :
  group_key r = Some k ->
  has_rurality r = true
  /\ k_county_geoid k = county_geoid (base (Scored.base r))
  /\ k_rucc_code k = rucc_code (base (Scored.base r)).
Proof.
  unfold group_key, has_rurality, Float.notna. cbv zeta.
  destruct (FCC.StateAbbr (fcc (base (Scored.base r)))); [|discriminate].
  destruct (FCC.CountyName (fcc (base (Scored.base r)))); [|discriminate].
  destruct (Float.isna (rucc_code (base (Scored.base r)))); [discriminate|].
  intros [= <-]. repeat split.
Qed.

Lemma in_group_has_rurality (k : county_key) (r : Scored.row) :
  in_group k r = true -> has_rurality r = true.
Proof.
  unfold in_group. destruct (group_key r) as [k'|] eqn:E; [|discriminate].
  intros _. now apply group_key_has_rurality in E.
Qed.

Lemma group_keys_filter (df : list Scored.row) :
  group_keys (filter has_rurality df) = group_keys df.
Proof.
  induction df as [|r df IH]; [reflexivity|]. simpl.
  destruct (has_rurality r) eqn:E; simpl.
  - now rewrite IH.
  - destruct (group_key r) as [k|] eqn:Ek; [|assumption].
    apply group_key_has_rurality in Ek. destruct Ek as [Ek _]. congruence.
Qed.

Lemma filter_in_group (k : county_key) (df : list Scored.row) :
  filter (in_group k) (filter has_rurality df) = filter (in_group k) df.
Proof.
  induction df as [|r df IH]; [reflexivity|]. simpl.
  destruct (has_rurality r) eqn:E; simpl.
  - now rewrite IH.
  - destruct (in_group k r) eqn:Ek; [|assumption].
    apply in_group_has_rurality in Ek. congruence.
Qed.

Lemma aggregate_filter (dt : dtypes) (df : list Scored.row) (k : county_key) :
  aggregate dt (filter has_rurality df) k = aggregate dt df k.
Proof. unfold aggregate. now rewrite filter_in_group. Qed.

(** Tracts without a rurality code have no part in the rollup. *)
Lemma county_rollup_filter (dt : dtypes) (df : list Scored.row) :
  county_rollup dt (filter has_rurality df) = county_rollup dt df.
Proof.
  unfold county_rollup. rewrite group_keys_filter.
  f_equal. apply map_ext. intro k. apply aggregate_filter.
Qed.

Lemma in_insert_key (k k' : county_key) (l : list county_key) :
  In k (insert_key k' l) -> k = k' \/ In k l.
Proof.
  induction l as [|x l IH]; simpl.
  - intros [<-|[]]. now left.
  - destruct (key_eqb k' x); [now right|].
    destruct (key_ltb k' x); simpl.
    + intros [<-|H]; auto.
    + intros [<-|H]; auto. destruct (IH H); auto.
Qed.

Lemma in_group_keys (k : county_key) (df : list Scored.row) :
  In k (group_keys df) -> exists r, In r df /\ group_key r = Some k.
Proof.
  induction df as [|r df IH]; simpl; [easy|].
  destruct (group_key r) as [k'|] eqn:E.
  - intro H. apply in_insert_key in H. destruct H as [-> | H].
    + exists r. auto.
    + destruct (IH H) as (r' & Hr' & Ek). exists r'. auto.
  - intro H. destruct (IH H) as (r' & Hr' & Ek). exists r'. auto.
Qed.

Lemma in_insert_county (c x : County.row) (l : list County.row) :
  In c (insert_county x l) -> c = x \/ In c l.
Proof.
  induction l as [|y l IH]; simpl.
  - intros [<-|[]]. now left.
  - destruct (avg_before x y); simpl.
    + intros [<-|H]; auto.
    + intros [<-|H]; auto. destruct (IH H); auto.
Qed.

Lemma in_sorted_counties (c : County.row) (l : list County.row) :
  In c (fold_right insert_county [] l) -> In c l.
Proof.
  induction l as [|x l IH]; simpl; [easy|].
  intro H. apply in_insert_county in H. destruct H; auto.
Qed.

(** Every row of the rollup comes from a tract that has a rurality code,
    and carries that tract's county and code. *)
Lemma county_rollup_origin (dt : dtypes) (df : list Scored.row) (c : County.row) :
  In c (county_rollup dt df) ->
  exists r, In r df
            /\ has_rurality r = true
            /\ County.county_geoid c = county_geoid (base (Scored.base r))
            /\ County.rucc_code c = rucc_code (base (Scored.base r)).
Proof.
  unfold county_rollup. intro H. apply in_sorted_counties in H.
  apply in_map_iff in H. destruct H as (k & <- & Hk).
  apply in_group_keys in Hk. destruct Hk as (r & Hr & Ek).
  apply group_key_has_rurality in Ek. destruct Ek as (H1 & H2 & H3).
  exists r. simpl. auto.
Qed.

Lemma filter_none {A} (p : A -> bool) (l : list A) :
  (forall x, In x l -> p x = false) -> filter p l = [].
Proof.
  induction l as [|x l IH]; [reflexivity|]. simpl. intro H.
  rewrite (H x (or_introl eq_refl)). apply IH. auto.
Qed.

(** The left join leaves the rurality code missing when the RUCC table
    has no row for the county. *)
Lemma load_and_merge_unlisted acs_t fcc_t rucc_t (t : tract) :
  In t (load_and_merge acs_t fcc_t rucc_t) ->
  (forall u, In u rucc_t -> zfill 5 (str (RUCC.FIPS u)) <> county_geoid t) ->
  rucc_code t = NaN.
Proof.
  unfold load_and_merge. intros Hin Hno.
  apply in_map_iff in Hin. destruct Hin as (t' & <- & Hin).
  apply filter_In in Hin. destruct Hin as [Hin _].
  unfold merge_left in Hin. apply in_flat_map in Hin.
  destruct Hin as (((a & f) & cg) & _ & Hin).
  simpl in Hno |- *.
  destruct (filter _ _) as [|kr ms] eqn:E.
  - destruct Hin as [<-|[]]. reflexivity.
  - exfalso.
    assert (Hkr : In kr (kr :: ms)) by now left.
    rewrite <- E in Hkr. apply filter_In in Hkr. destruct Hkr as [Hkr Heq].
    apply in_map_iff in Hkr. destruct Hkr as (u & <- & Hu).
    apply String.eqb_eq in Heq. simpl in Heq.
    apply (Hno u Hu).
    apply in_map_iff in Hin. destruct Hin as (kr' & <- & _). simpl. congruence.
Qed.

Lemma main_inv acs_t fcc_t rucc_t fs fs' tracts counties :
  main acs_t fcc_t rucc_t fs = Some (fs', (tracts, counties)) ->
  build_composite_score
    (compute_derived_metrics (read_dtypes acs_t fcc_t)
                             (load_and_merge acs_t fcc_t rucc_t))
  = Some tracts
  /\ counties = county_rollup (read_dtypes acs_t fcc_t) tracts
  /\ fs' = to_csv "county_scores.csv" (CountyTable counties)
             (to_csv "tract_scores.csv" (TractTable tracts) fs).
Proof.
  unfold main. cbv zeta.
  destruct (build_composite_score _) as [out|]; [|discriminate].
  destruct (forallb _ (nlargest 20 out)); [|discriminate].
  destruct (forallb _ (firstn 20 _)); [|discriminate].
  intros [= <- <- <-]. repeat split.
Qed.

Lemma build_composite_score_base (df : list mrow) (out : list Scored.row) :
  build_composite_score df = Some out -> map Scored.base out = df.
Proof.
  intro E. destruct (build_composite_score_rows df) as (out' & E' & Hlen & Hrows).
  rewrite E in E'. injection E' as <-.
  apply nth_error_ext. intro i. rewrite nth_error_map.
  destruct (nth_error out i) as [r|] eqn:Er; simpl.
  - symmetry. apply (Hrows i r Er).
  - symmetry. apply nth_error_None. rewrite <- Hlen. now apply nth_error_None.
Qed.

(** C10.  When the run completes, it has saved its two tables.  The
    tract table holds every tract the loader returned, scored, with or
    without a rurality code; a tract whose county the RUCC table does not
    list has a missing code; a tract with a missing code belongs to no
    group of the rollup; and the county table is the rollup of the tracts
    that have a code: each of its rows comes from such a tract, none has a
    missing code, and the tracts without one change nothing in it. *)
Theorem null_rurality_excluded_from_rollup
        (acs_t : list ACS.row) (fcc_t : list FCC.row) (rucc_t : list RUCC.row)
        (fs fs' : files) (tracts : list Scored.row) (counties : list County.row)
        (Hmain : main acs_t fcc_t rucc_t fs = Some (fs', (tracts, counties))) :
  read "tract_scores.csv" fs' = Some (TractTable tracts)
  /\ read "county_scores.csv" fs' = Some (CountyTable counties)
  /\ map Scored.base tracts
     = compute_derived_metrics (read_dtypes acs_t fcc_t)
                               (load_and_merge acs_t fcc_t rucc_t)
  /\ (forall r, In r tracts ->
        (forall u, In u rucc_t ->
           zfill 5 (str (RUCC.FIPS u)) <> county_geoid (base (Scored.base r))) ->
        has_rurality r = false)
  /\ (forall r, In r tracts -> has_rurality r = false -> group_key r = None)
  /\ counties = county_rollup (read_dtypes acs_t fcc_t) (filter has_rurality tracts)
  /\ (forall c, In c counties ->
        Float.isna (County.rucc_code c) = false
        /\ exists r, In r tracts
                     /\ has_rurality r = true
                     /\ County.county_geoid c = county_geoid (base (Scored.base r))
                     /\ County.rucc_code c = rucc_code (base (Scored.base r))).
Proof.
  apply main_inv in Hmain. destruct Hmain as (Hbuild & -> & ->).
  pose proof (build_composite_score_base _ _ Hbuild) as Hbase.
  split; [reflexivity|]. split; [reflexivity|]. split; [exact Hbase|].
  split; [|split; [|split]].
  - intros r Hr Hno. unfold has_rurality.
    rewrite (load_and_merge_unlisted acs_t fcc_t rucc_t (base (Scored.base r)));
      [reflexivity| |exact Hno].
    assert (H : In (Scored.base r) (map Scored.base tracts)) by now apply in_map.
    rewrite Hbase in H. unfold compute_derived_metrics in H.
    apply in_map_iff in H. destruct H as (t & <- & Ht). exact Ht.
  - intros r _ Hnone. destruct (group_key r) as [k|] eqn:Ek; [|reflexivity].
    apply group_key_has_rurality in Ek. destruct Ek as [Ek _]. congruence.
  - symmetry. apply county_rollup_filter.
  - intros c Hc. destruct (county_rollup_origin _ tracts c Hc) as (r & Hr & H1 & H2 & H3).
    split.
    + rewrite H3. unfold has_rurality, Float.notna in H1.
      now rewrite negb_true_iff in H1.
    + exists r. auto.
Qed.

(** On the fixture the run completes; the tract of county 51999, which
    the RUCC table does not list, is in the tract table and no row of the
    county table is for that county. *)
Lemma null_rurality_excluded_from_rollup_witness :
  main fixture_acs fixture_fcc fixture_rucc []
  = Some (fixture_files, (fixture_tracts, fixture_counties))
  /\ (exists r, nth_error fixture_tracts 3 = Some r
                /\ GEOID (base (Scored.base r)) = "51999000100"%string
                /\ has_rurality r = false)
  /\ read "tract_scores.csv" fixture_files = Some (TractTable fixture_tracts)
  /\ read "county_scores.csv" fixture_files = Some (CountyTable fixture_counties)
  /\ length fixture_tracts = 4%nat
  /\ map County.county_geoid fixture_counties = ["51001"; "51003"]%string
  /\ fixture_counties
     = county_rollup (read_dtypes fixture_acs fixture_fcc)
                     (filter has_rurality fixture_tracts).
Proof.
  assert (Hfix : main fixture_acs fixture_fcc fixture_rucc []
                 = Some (fixture_files, (fixture_tracts, fixture_counties)))
    by (vm_compute; reflexivity).
  destruct (null_rurality_excluded_from_rollup
              fixture_acs fixture_fcc fixture_rucc [] fixture_files fixture_tracts
              fixture_counties Hfix)
    as (Ht & Hc & _ & Hnull & _ & Hroll & _).
  split; [exact Hfix|]. split.
  - destruct (nth_error fixture_tracts 3) as [r|] eqn:E;
      [|vm_compute in E; discriminate E].
    exists r. split; [reflexivity|].
    assert (Hin : In r fixture_tracts) by (eapply nth_error_In; exact E).
    split.
    + vm_compute in E. injection E as <-. reflexivity.
    + apply Hnull; [exact Hin|].
      vm_compute in E. injection E as <-.
      intros u [<-|[<-|[]]]; vm_compute; discriminate.
  - split; [exact Ht|]. split; [exact Hc|].
    split; [vm_compute; reflexivity|]. split; [vm_compute; reflexivity|exact Hroll].
Defined.

(** * Further properties *)

(** ** The ranking order *)

Module RankOrder.

Lemma with_refl (x : Float.t) : ranks_with x x = true.
Proof.
  unfold ranks_with. destruct (Float.isna x) eqn:E; [reflexivity|].
  now apply FloatFacts.eqb_refl.
Qed.

Lemma with_sym (x y : Float.t) : ranks_with x y = ranks_with y x.
Proof.
  unfold ranks_with. destruct x, y; simpl; try reflexivity.
  apply (FloatFacts.eqb_sym (Fin q) (Fin q0)).
Qed.

Lemma with_trans (x y z : Float.t) :
  ranks_with x y = true -> ranks_with y z = true -> ranks_with x z = true.
Proof.
  unfold ranks_with. destruct x, y, z; simpl; intros; try easy. qsolve.
Qed.

Lemma before_trans (x y z : Float.t) :
  ranks_before x y = true -> ranks_before y z = true -> ranks_before x z = true.
Proof.
  unfold ranks_before. destruct x, y, z; simpl; intros; try easy. qsolve.
Qed.

Lemma with_before (x y z : Float.t) :
  ranks_with x y = true -> ranks_before y z = true -> ranks_before x z = true.
Proof.
  unfold ranks_with, ranks_before. destruct x, y, z; simpl; intros; try easy. qsolve.
Qed.

Lemma before_with (x y z : Float.t) :
  ranks_before x y = true -> ranks_with y z = true -> ranks_before x z = true.
Proof.
  unfold ranks_with, ranks_before. destruct x, y, z; simpl; intros; try easy. qsolve.
Qed.

Lemma before_with_disjoint (x y : Float.t) :
  ranks_before y x = true -> ranks_with x y = true -> False.
Proof.
  unfold ranks_with, ranks_before. destruct x, y; simpl; intros; try easy. qsolve.
Qed.

Lemma before_asym (x y : Float.t) :
  ranks_before x y = true -> ranks_before y x = true -> False.
Proof.
  unfold ranks_before. destruct x, y; simpl; intros; try easy. qsolve.
Qed.

(** Of two cells, one ranks before the other or they tie. *)
Lemma total_order (x y : Float.t) :
  ranks_before x y = true \/ ranks_with x y = true \/ ranks_before y x = true.
Proof.
  destruct (Float.isna x) eqn:Ex, (Float.isna y) eqn:Ey.
  - right; left. unfold ranks_with. now rewrite Ex.
  - right; right. unfold ranks_before, Float.notna. now rewrite Ex, Ey.
  - left. unfold ranks_before, Float.notna. now rewrite Ey, Ex.
  - unfold ranks_before, ranks_with. rewrite Ex, Ey.
    apply FloatFacts.trichotomy; unfold Float.notna; now rewrite ?Ex, ?Ey.
Qed.

Lemma of_ltb (x y : Float.t) : Float.ltb x y = true -> ranks_before x y = true.
Proof.
  intro H. unfold ranks_before.
  destruct (FloatFacts.ltb_notna _ _ H) as [_ Hy].
  unfold Float.notna in Hy. rewrite negb_true_iff in Hy. now rewrite Hy.
Qed.

Lemma of_eqb (x y : Float.t) : Float.eqb x y = true -> ranks_with x y = true.
Proof.
  intro H. unfold ranks_with.
  destruct (FloatFacts.eqb_notna _ _ H) as [Hx _].
  unfold Float.notna in Hx. rewrite negb_true_iff in Hx. now rewrite Hx.
Qed.

End RankOrder.

Lemma rank_q_order (s : Series) (x : Float.t) :
  rank_q s x
  = average_rank (count (fun y => ranks_before y x) s) (count (ranks_with x) s).
Proof. destruct x; reflexivity. Qed.

Lemma rank_q_tie (s : Series) (x y : Float.t) :
  ranks_with x y = true -> rank_q s x = rank_q s y.
Proof.
  intro E. rewrite !rank_q_order.
  assert (E' : ranks_with y x = true) by now rewrite RankOrder.with_sym.
  rewrite (count_ext (fun z => ranks_before z x) (fun z => ranks_before z y) s),
          (count_ext (ranks_with x) (ranks_with y) s); [reflexivity| |].
  - intros z _. destruct (ranks_with x z) eqn:E1, (ranks_with y z) eqn:E2;
      try reflexivity.
    + rewrite (RankOrder.with_trans _ _ _ E' E1) in E2. discriminate.
    + rewrite (RankOrder.with_trans _ _ _ E E2) in E1. discriminate.
  - intros z _. destruct (ranks_before z x) eqn:E1, (ranks_before z y) eqn:E2;
      try reflexivity.
    + rewrite (RankOrder.before_with _ _ _ E1 E) in E2. discriminate.
    + rewrite (RankOrder.before_with _ _ _ E2 E') in E1. discriminate.
Qed.

Lemma rank_q_before (s : Series) (x y : Float.t) :
  In x s -> In y s -> ranks_before x y = true -> rank_q s x < rank_q s y.
Proof.
  intros Hx Hy Hlt. rewrite !rank_q_order, !average_rank_half.
  assert (Tx : (1 <= count (ranks_with x) s)%nat)
    by (apply (count_pos _ x); auto using RankOrder.with_refl).
  assert (Ty : (1 <= count (ranks_with y) s)%nat)
    by (apply (count_pos _ y); auto using RankOrder.with_refl).
  assert (Hsum : (count (fun z => ranks_before z x) s + count (ranks_with x) s
                  <= count (fun z => ranks_before z y) s)%nat).
  { apply count_split_le.
    - intros z H1 H2. exact (RankOrder.before_with_disjoint _ _ H1 H2).
    - intros z H. exact (RankOrder.before_trans _ _ _ H Hlt).
    - intros z H. rewrite RankOrder.with_sym in H.
      exact (RankOrder.with_before _ _ _ H Hlt). }
  apply Qnat_pos in Tx, Ty. apply Qnat_le in Hsum. rewrite Qnat_add in Hsum.
  pose proof (Qnat_nonneg (count (fun z => ranks_before z x) s)). lra.
Qed.

(** X1.  The normalizer keeps the order of the column: of two present
    cells the larger has the strictly higher score with [ascending=true]
    and the strictly lower one with [ascending=false]; equal cells have
    equal scores. *)
Theorem percentile_score_order (s : Series) (i j : nat) (x y : Float.t)
        (Hi : nth_error s i = Some x) (Hj : nth_error s j = Some y) :
  exists ai aj di dj,
    nth_error (percentile_score s true) i = Some (Fin ai)
    /\ nth_error (percentile_score s true) j = Some (Fin aj)
    /\ nth_error (percentile_score s false) i = Some (Fin di)
    /\ nth_error (percentile_score s false) j = Some (Fin dj)
    /\ (Float.ltb x y = true -> ai < aj /\ dj < di)
    /\ (Float.eqb x y = true -> ai == aj /\ di == dj).
Proof.
  assert (Hx : In x s) by (eapply nth_error_In; eauto).
  assert (Hy : In y s) by (eapply nth_error_In; eauto).
  exists (pct_asc s x), (pct_asc s y), (pct_desc s x), (pct_desc s y).
  rewrite !nth_percentile_score_asc, !nth_percentile_score_desc, Hi, Hj. simpl.
  repeat (split; [reflexivity|]). split.
  - intro H. apply RankOrder.of_ltb in H.
    pose proof (pct_asc_lt s x y Hx (rank_q_before s x y Hx Hy H)).
    rewrite !pct_desc_asc. split; lra.
  - intro H. apply RankOrder.of_eqb in H.
    unfold pct_desc, pct_asc. rewrite (rank_q_tie s x y H). split; reflexivity.
Qed.

Lemma percentile_score_order_witness :
  exists ai aj di dj,
    nth_error (percentile_score [Fin 7; NaN; Fin 3; Fin 7] true) 2 = Some (Fin ai)
    /\ nth_error (percentile_score [Fin 7; NaN; Fin 3; Fin 7] true) 0 = Some (Fin aj)
    /\ nth_error (percentile_score [Fin 7; NaN; Fin 3; Fin 7] false) 2 = Some (Fin di)
    /\ nth_error (percentile_score [Fin 7; NaN; Fin 3; Fin 7] false) 0 = Some (Fin dj)
    /\ ai < aj /\ dj < di.
Proof.
  destruct (percentile_score_order [Fin 7; NaN; Fin 3; Fin 7] 2 0 (Fin 3) (Fin 7)
              eq_refl eq_refl)
    as (ai & aj & di & dj & H1 & H2 & H3 & H4 & Hlt & _).
  exists ai, aj, di, dj.
  repeat (split; [assumption|]). apply Hlt. reflexivity.
Defined.

Lemma count_map {A B} (p : B -> bool) (f : A -> B) (s : list A) :
  count p (map f s) = count (fun y => p (f y)) s.
Proof.
  induction s as [|y s IH]; [reflexivity|].
  simpl. rewrite !count_cons. now rewrite IH.
Qed.

(** X2.  The scores depend on the order of the cells only: a change of
    the column that keeps which cells are missing, which are equal and
    which is smaller (a change of unit, a clip that merges no two values,
    an outlier made larger) changes no score. *)
Theorem percentile_score_order_only (f : Float.t -> Float.t) (s : Series)
        (asc : bool)
        (Hna : forall x, In x s -> Float.isna (f x) = Float.isna x)
        (Hlt : forall x y, In x s -> In y s ->
                 Float.ltb (f x) (f y) = Float.ltb x y)
        (Heq : forall x y, In x s -> In y s ->
                 Float.eqb (f x) (f y) = Float.eqb x y) :
  percentile_score (map f s) asc = percentile_score s asc.
Proof.
  assert (Hrank : forall x, In x s -> rank_q (map f s) (f x) = rank_q s x).
  { intros x Hx. rewrite !rank_q_order, !count_map.
    rewrite (count_ext (fun y => ranks_before (f y) (f x))
                       (fun y => ranks_before y x) s),
            (count_ext (fun y => ranks_with (f x) (f y)) (ranks_with x) s);
      [reflexivity| |].
    - intros y Hy. unfold ranks_with.
      now rewrite (Hna x Hx), (Hna y Hy), (Heq x y Hx Hy).
    - intros y Hy. unfold ranks_before, Float.notna.
      now rewrite (Hna x Hx), (Hna y Hy), (Hlt y x Hy Hx). }
  destruct asc.
  - rewrite !percentile_score_asc, map_map. apply map_ext_in. intros x Hx.
    unfold pct_asc. now rewrite Hrank, length_map.
  - rewrite !percentile_score_desc, map_map. apply map_ext_in. intros x Hx.
    unfold pct_desc. now rewrite Hrank, length_map.
Qed.

Lemma percentile_score_order_only_witness :
  percentile_score
    (map (fun x => Float.mul x (Fin 1000)) [Fin 12; NaN; Fin 5; Fin 12; Fin 40]) true
  = percentile_score [Fin 12; NaN; Fin 5; Fin 12; Fin 40] true.
Proof.
  apply (percentile_score_order_only (fun x => Float.mul x (Fin 1000))).
  - intros x [<-|[<-|[<-|[<-|[<-|[]]]]]]; reflexivity.
  - intros x y [<-|[<-|[<-|[<-|[<-|[]]]]]] [<-|[<-|[<-|[<-|[<-|[]]]]]]; reflexivity.
  - intros x y [<-|[<-|[<-|[<-|[<-|[]]]]]] [<-|[<-|[<-|[<-|[<-|[]]]]]]; reflexivity.
Defined.

(** ** Sums of ranks *)

Section Sums.
Context {A : Type}.

Lemma count_nsum (p : A -> bool) (l : list A) :
  count p l = nsum (fun y => if p y then 1%nat else 0%nat) l.
Proof.
  induction l as [|y l IH]; [reflexivity|].
  rewrite count_cons, IH. reflexivity.
Qed.

Lemma nsum_ext (f g : A -> nat) (l : list A) :
  (forall x, In x l -> f x = g x) -> nsum f l = nsum g l.
Proof.
  induction l as [|x l IH]; intro H; [reflexivity|]. simpl.
  rewrite (H x (or_introl eq_refl)), IH; auto. intros y Hy. apply H. now right.
Qed.

Lemma nsum_add (f g : A -> nat) (l : list A) :
  nsum (fun x => (f x + g x)%nat) l = (nsum f l + nsum g l)%nat.
Proof.
  induction l as [|x l IH]; [reflexivity|]. simpl. rewrite IH. lia.
Qed.

Lemma nsum_const (c : nat) (l : list A) : nsum (fun _ => c) l = (c * length l)%nat.
Proof.
  induction l as [|x l IH]; simpl; [lia|]. rewrite IH. lia.
Qed.

Lemma qsum_ext (f g : A -> Q) (l : list A) :
  (forall x, In x l -> f x == g x) -> qsum f l == qsum g l.
Proof.
  induction l as [|x l IH]; intro H; [reflexivity|]. simpl.
  rewrite (H x (or_introl eq_refl)), IH; [reflexivity|].
  intros y Hy. apply H. now right.
Qed.

Lemma qsum_scale (c : Q) (f : A -> Q) (l : list A) :
  qsum (fun x => f x * c) l == qsum f l * c.
Proof.
  induction l as [|x l IH]; simpl; [ring|]. rewrite IH. ring.
Qed.

Lemma qsum_add (f g : A -> Q) (l : list A) :
  qsum (fun x => f x + g x) l == qsum f l + qsum g l.
Proof.
  induction l as [|x l IH]; simpl; [ring|]. rewrite IH. ring.
Qed.

Lemma qsum_const (c : Q) (l : list A) : qsum (fun _ => c) l == c * Qnat (length l).
Proof.
  induction l as [|x l IH]; simpl.
  - change (Qnat 0) with 0. ring.
  - rewrite IH. change (S (length l)) with (1 + length l)%nat.
    rewrite Qnat_add. change (Qnat 1) with 1. ring.
Qed.

Lemma qsum_Qnat (g : A -> nat) (l : list A) :
  qsum (fun x => Qnat (g x)) l == Qnat (nsum g l).
Proof.
  induction l as [|x l IH]; simpl; [reflexivity|].
  rewrite IH, Qnat_add. reflexivity.
Qed.

End Sums.

Lemma nsum_swap {A B} (f : A -> B -> nat) (l1 : list A) (l2 : list B) :
  nsum (fun x => nsum (fun y => f x y) l2) l1
  = nsum (fun y => nsum (fun x => f x y) l1) l2.
Proof.
  induction l1 as [|x l1 IH].
  - change (0%nat = nsum (fun _ : B => 0%nat) l2).
    clear. induction l2 as [|y l2 IH]; [reflexivity|exact IH].
  - change (nsum (fun y => f x y) l2
            + nsum (fun x0 => nsum (fun y => f x0 y) l2) l1
            = nsum (fun y => f x y + nsum (fun x0 => f x0 y) l1) l2)%nat.
    rewrite IH.
    exact (eq_sym (nsum_add (f x) (fun y => nsum (fun x0 => f x0 y) l1) l2)).
Qed.


Lemma total_map_Fin {A} (g : A -> Q) (l : list A) :
  total (map (fun x => Fin (g x)) l) = qsum g l.
Proof.
  unfold total. induction l as [|x l IH]; [reflexivity|]. simpl. now rewrite IH.
Qed.

(** Of two cells exactly one of: the first ranks before the second, the
    second before the first, they tie. *)
Lemma rank_order_one (x y : Float.t) :
  ((if ranks_before y x then 1 else 0)
   + (if ranks_before x y then 1 else 0)
   + (if ranks_with x y then 1 else 0) = 1)%nat.
Proof.
  destruct (ranks_before y x) eqn:E1, (ranks_before x y) eqn:E2,
           (ranks_with x y) eqn:E3; try reflexivity; exfalso.
  - exact (RankOrder.before_asym _ _ E1 E2).
  - exact (RankOrder.before_asym _ _ E1 E2).
  - exact (RankOrder.before_with_disjoint _ _ E1 E3).
  - rewrite RankOrder.with_sym in E3. exact (RankOrder.before_with_disjoint _ _ E2 E3).
  - destruct (RankOrder.total_order x y) as [H | [H | H]]; congruence.
Qed.

Lemma rank_counts_total (s : Series) :
  nsum (fun x => (2 * count (fun y => ranks_before y x) s
                  + count (ranks_with x) s)%nat) s
  = (length s * length s)%nat.
Proof.
  set (b := fun x y : Float.t => if ranks_before y x then 1%nat else 0%nat).
  set (w := fun x y : Float.t => if ranks_with x y then 1%nat else 0%nat).
  assert (E : forall x, (2 * count (fun y => ranks_before y x) s
                         + count (ranks_with x) s
                         = nsum (b x) s + (nsum (b x) s + nsum (w x) s))%nat).
  { intro x. rewrite !count_nsum. fold (b x) (w x). lia. }
  rewrite (nsum_ext _ _ s (fun x _ => E x)).
  rewrite nsum_add, nsum_add.
  rewrite (nsum_swap b s s) at 1.
  rewrite <- !nsum_add.
  rewrite (nsum_ext _ (fun _ => length s) s).
  - rewrite nsum_const. reflexivity.
  - intros x _. rewrite <- !nsum_add.
    rewrite (nsum_ext _ (fun _ => 1%nat) s).
    + rewrite nsum_const. lia.
    + intros y _. unfold b, w. pose proof (rank_order_one x y). lia.
Qed.

(** The ranks of a column of [N] cells add up to [N (N + 1) / 2]. *)
Lemma rank_q_total (s : Series) :
  qsum (rank_q s) s * 2 == Qnat (length s) * (Qnat (length s) + 1).
Proof.
  rewrite <- qsum_scale.
  rewrite (qsum_ext _
             (fun x => Qnat (2 * count (fun y => ranks_before y x) s
                            + count (ranks_with x) s) + 1) s).
  - rewrite qsum_add, qsum_Qnat, rank_counts_total, qsum_const.
    rewrite <- (Nat2Z.id (length s)) at 1 2.
    unfold Qnat at 1. rewrite Nat2Z.id, Nat2Z.inj_mul, inject_Z_mult.
    fold (Qnat (length s)). ring.
  - intros x _. rewrite rank_q_order, average_rank_half, Qnat_add.
    replace (2 * count (fun y => ranks_before y x) s)%nat
      with (count (fun y => ranks_before y x) s
            + count (fun y => ranks_before y x) s)%nat by lia.
    rewrite Qnat_add. ring.
Qed.

Lemma pct_asc_total (s : Series) :
  s <> [] -> qsum (pct_asc s) s == 50 * (Qnat (length s) + 1).
Proof.
  intro Hs.
  assert (HN : 0 < Qnat (length s)).
  { destruct s as [|x s]; [contradiction|]. apply (Qnat_length_pos x). now left. }
  pose proof (rank_q_total s) as HT.
  unfold pct_asc.
  rewrite (qsum_ext _ (fun x => rank_q s x * (100 / Qnat (length s))) s)
    by (intros x _; field; lra).
  rewrite qsum_scale.
  setoid_replace (qsum (rank_q s) s)
    with (Qnat (length s) * (Qnat (length s) + 1) * (1 # 2)) by lra.
  field. lra.
Qed.

Lemma pct_desc_total (s : Series) :
  s <> [] -> qsum (pct_desc s) s == 50 * (Qnat (length s) - 1).
Proof.
  intro Hs.
  rewrite (qsum_ext _ (fun x => 100 + pct_asc s x * (- (1))) s)
    by (intros x _; rewrite pct_desc_asc; ring).
  rewrite qsum_add, qsum_const, qsum_scale, (pct_asc_total s Hs). ring.
Qed.

(** X3.  The scores of a column are zero-sum around the middle: with
    [ascending=true] the scores of a column of [N >= 1] cells add up to
    [50 (N + 1)], and with [ascending=false] to [50 (N - 1)], whatever the
    cells hold. *)
Theorem percentile_score_total (s : Series) (Hs : s <> []) :
  total (percentile_score s true) == 50 * (Qnat (length s) + 1)
  /\ total (percentile_score s false) == 50 * (Qnat (length s) - 1).
Proof.
  split.
  - rewrite percentile_score_asc, total_map_Fin. now apply pct_asc_total.
  - rewrite percentile_score_desc, total_map_Fin. now apply pct_desc_total.
Qed.

Lemma percentile_score_total_witness :
  total (percentile_score [Fin 12; NaN; Fin 5; Fin 12; PInf] true) == 50 * (5 + 1)
  /\ total (percentile_score [Fin 12; NaN; Fin 5; Fin 12; PInf] false) == 50 * (5 - 1).
Proof.
  apply (percentile_score_total [Fin 12; NaN; Fin 5; Fin 12; PInf]). discriminate.
Defined.

(** ** Sub-scores, row by row *)

Lemma zipWith_map_map {A B C D} (f : B -> C -> D) (g : A -> B) (h : A -> C)
      (l : list A) :
  zipWith f (map g l) (map h l) = map (fun x => f (g x) (h x)) l.
Proof.
  induction l as [|x l IH]; [reflexivity|]. simpl. now rewrite IH.
Qed.

Lemma percentile_score_col_asc {R} (f : R -> Float.t) (df : list R) :
  percentile_score (map f df) true = map (fun r => Fin (pct_asc (map f df) (f r))) df.
Proof. rewrite percentile_score_asc. apply map_map. Qed.

Lemma percentile_score_col_desc {R} (f : R -> Float.t) (df : list R) :
  percentile_score (map f df) false = map (fun r => Fin (pct_desc (map f df) (f r))) df.
Proof. rewrite percentile_score_desc. apply map_map. Qed.

Ltac by_row :=
  unfold acs_col, fcc_col, m_col, col;
  rewrite ?percentile_score_col_asc, ?percentile_score_col_desc;
  unfold sadd, smul; rewrite ?map_map;
  repeat rewrite zipWith_map_map;
  reflexivity.

Lemma score_supply_gap_by_row (df : list mrow) :
  score_supply_gap df = map (fun r => Fin (supply_gap_at df r)) df.
Proof. unfold score_supply_gap, supply_gap_at. by_row. Qed.

Lemma score_funding_tailwind_by_row (df : list mrow) :
  score_funding_tailwind df = map (fun r => Fin (funding_tailwind_at df r)) df.
Proof. unfold score_funding_tailwind, funding_tailwind_at. by_row. Qed.

Lemma rank_q_leb (s : Series) (x y : Float.t) :
  In x s -> In y s -> Float.leb x y = true -> rank_q s x <= rank_q s y.
Proof.
  intros Hx Hy H. unfold Float.leb in H. apply orb_true_iff in H.
  destruct H as [H | H].
  - apply Qlt_le_weak. apply rank_q_before; auto using RankOrder.of_ltb.
  - rewrite (rank_q_tie s x y (RankOrder.of_eqb _ _ H)). apply Qle_refl.
Qed.

Lemma pct_asc_leb {R} (f : R -> Float.t) (df : list R) (a b : R) :
  In a df -> In b df -> Float.leb (f a) (f b) = true ->
  pct_asc (map f df) (f a) <= pct_asc (map f df) (f b).
Proof.
  intros Ha Hb H. apply pct_asc_le; [now apply in_map|].
  apply rank_q_leb; auto using in_map.
Qed.

Lemma pct_desc_leb {R} (f : R -> Float.t) (df : list R) (a b : R) :
  In a df -> In b df -> Float.leb (f a) (f b) = true ->
  pct_desc (map f df) (f b) <= pct_desc (map f df) (f a).
Proof.
  intros Ha Hb H. rewrite !pct_desc_asc.
  pose proof (pct_asc_leb f df a b Ha Hb H). lra.
Qed.

(** X4.  Supply Gap respects dominance: a tract that has no more fiber
    providers and no more providers than another, and no smaller share of
    BSLs without fiber, of unserved or underserved BSLs and of BSLs on
    copper, never scores lower on Supply Gap. *)
Theorem supply_gap_dominance (df : list mrow) (i j : nat) (a b : mrow)
        (Hi : nth_error df i = Some a) (Hj : nth_error df j = Some b)
        (H1 : Float.leb (FCC.UniqueProvidersFiber (fcc (base a)))
                        (FCC.UniqueProvidersFiber (fcc (base b))) = true)
        (H2 : Float.leb (pct_no_fiber (m b)) (pct_no_fiber (m a)) = true)
        (H3 : Float.leb (pct_unserved_underserved (m b))
                        (pct_unserved_underserved (m a)) = true)
        (H4 : Float.leb (pct_copper_served (m b)) (pct_copper_served (m a)) = true)
        (H5 : Float.leb (FCC.UniqueProviders (fcc (base a)))
                        (FCC.UniqueProviders (fcc (base b))) = true) :
  exists sa sb,
    nth_error (score_supply_gap df) i = Some (Fin sa)
    /\ nth_error (score_supply_gap df) j = Some (Fin sb)
    /\ sb <= sa.
Proof.
  assert (Ha : In a df) by (eapply nth_error_In; eauto).
  assert (Hb : In b df) by (eapply nth_error_In; eauto).
  exists (supply_gap_at df a), (supply_gap_at df b).
  rewrite score_supply_gap_by_row, !nth_error_map, Hi, Hj. simpl.
  repeat (split; [reflexivity|]).
  unfold supply_gap_at, fcc_col, m_col, col.
  pose proof (pct_desc_leb (fun r => FCC.UniqueProvidersFiber (fcc (base r))) df a b Ha Hb H1).
  pose proof (pct_asc_leb (fun r => pct_no_fiber (m r)) df b a Hb Ha H2).
  pose proof (pct_asc_leb (fun r => pct_unserved_underserved (m r)) df b a Hb Ha H3).
  pose proof (pct_asc_leb (fun r => pct_copper_served (m r)) df b a Hb Ha H4).
  pose proof (pct_desc_leb (fun r => FCC.UniqueProviders (fcc (base r))) df a b Ha Hb H5).
  cbv beta in *. lra.
Qed.

Lemma supply_gap_dominance_witness :
  exists a b sa sb,
    nth_error fixture_df 0 = Some a
    /\ nth_error fixture_df 2 = Some b
    /\ nth_error (score_supply_gap fixture_df) 0 = Some (Fin sa)
    /\ nth_error (score_supply_gap fixture_df) 2 = Some (Fin sb)
    /\ sb <= sa.
Proof.
  destruct (nth_error fixture_df 0) as [a|] eqn:Ea; [|discriminate Ea].
  destruct (nth_error fixture_df 2) as [b|] eqn:Eb; [|discriminate Eb].
  assert (Ea' := Ea). assert (Eb' := Eb).
  vm_compute in Ea'. vm_compute in Eb'.
  destruct (supply_gap_dominance fixture_df 0 2 a b Ea Eb) as (sa & sb & Hsa & Hsb & Hle);
    try (apply (f_equal (fun o => match o with Some r => r | None => a end)) in Ea';
         apply (f_equal (fun o => match o with Some r => r | None => b end)) in Eb';
         cbv beta iota in Ea', Eb'; rewrite <- Ea', <- Eb'; reflexivity).
  exists a, b, sa, sb. auto.
Defined.

(** X5.  Funding Tailwind respects dominance: a tract with no fewer
    unserved and underserved BSLs than another, and no smaller share of
    unserved and of unserved or underserved BSLs, never scores lower on
    Funding Tailwind. *)
Theorem funding_tailwind_dominance (df : list mrow) (i j : nat) (a b : mrow)
        (Hi : nth_error df i = Some a) (Hj : nth_error df j = Some b)
        (H1 : Float.leb (FCC.UnservedBSLs (fcc (base b)))
                        (FCC.UnservedBSLs (fcc (base a))) = true)
        (H2 : Float.leb (pct_unserved (m b)) (pct_unserved (m a)) = true)
        (H3 : Float.leb (FCC.UnderservedBSLs (fcc (base b)))
                        (FCC.UnderservedBSLs (fcc (base a))) = true)
        (H4 : Float.leb (pct_unserved_underserved (m b))
                        (pct_unserved_underserved (m a)) = true) :
  exists sa sb,
    nth_error (score_funding_tailwind df) i = Some (Fin sa)
    /\ nth_error (score_funding_tailwind df) j = Some (Fin sb)
    /\ sb <= sa.
Proof.
  assert (Ha : In a df) by (eapply nth_error_In; eauto).
  assert (Hb : In b df) by (eapply nth_error_In; eauto).
  exists (funding_tailwind_at df a), (funding_tailwind_at df b).
  rewrite score_funding_tailwind_by_row, !nth_error_map, Hi, Hj. simpl.
  repeat (split; [reflexivity|]).
  unfold funding_tailwind_at, fcc_col, m_col, col.
  pose proof (pct_asc_leb (fun r => FCC.UnservedBSLs (fcc (base r))) df b a Hb Ha H1).
  pose proof (pct_asc_leb (fun r => pct_unserved (m r)) df b a Hb Ha H2).
  pose proof (pct_asc_leb (fun r => FCC.UnderservedBSLs (fcc (base r))) df b a Hb Ha H3).
  pose proof (pct_asc_leb (fun r => pct_unserved_underserved (m r)) df b a Hb Ha H4).
  cbv beta in *. lra.
Qed.

Lemma funding_tailwind_dominance_witness :
  exists a b sa sb,
    nth_error fixture_df 0 = Some a
    /\ nth_error fixture_df 2 = Some b
    /\ nth_error (score_funding_tailwind fixture_df) 0 = Some (Fin sa)
    /\ nth_error (score_funding_tailwind fixture_df) 2 = Some (Fin sb)
    /\ sb <= sa.
Proof.
  destruct (nth_error fixture_df 0) as [a|] eqn:Ea; [|discriminate Ea].
  destruct (nth_error fixture_df 2) as [b|] eqn:Eb; [|discriminate Eb].
  assert (Ea' := Ea). assert (Eb' := Eb).
  vm_compute in Ea'. vm_compute in Eb'.
  destruct (funding_tailwind_dominance fixture_df 0 2 a b Ea Eb)
    as (sa & sb & Hsa & Hsb & Hle);
    try (apply (f_equal (fun o => match o with Some r => r | None => a end)) in Ea';
         apply (f_equal (fun o => match o with Some r => r | None => b end)) in Eb';
         cbv beta iota in Ea', Eb'; rewrite <- Ea', <- Eb'; reflexivity).
  exists a, b, sa, sb. auto.
Defined.

(** ** Table-wide sums of the sub-scores *)

Lemma qsum_map {A B} (g : B -> Q) (f : A -> B) (l : list A) :
  qsum g (map f l) = qsum (fun r => g (f r)) l.
Proof.
  unfold qsum. induction l as [|x l IH]; [reflexivity|]. simpl. now rewrite IH.
Qed.

Lemma col_asc_total {R} (f : R -> Float.t) (df : list R) :
  df <> [] ->
  qsum (fun r => pct_asc (map f df) (f r)) df == 50 * (Qnat (length df) + 1).
Proof.
  intro H. rewrite <- (qsum_map (pct_asc (map f df)) f df).
  rewrite pct_asc_total; [now rewrite length_map|].
  destruct df; [contradiction|discriminate].
Qed.

Lemma col_desc_total {R} (f : R -> Float.t) (df : list R) :
  df <> [] ->
  qsum (fun r => pct_desc (map f df) (f r)) df == 50 * (Qnat (length df) - 1).
Proof.
  intro H. rewrite <- (qsum_map (pct_desc (map f df)) f df).
  rewrite pct_desc_total; [now rewrite length_map|].
  destruct df; [contradiction|discriminate].
Qed.

(** X6.  Supply Gap and Funding Tailwind are relative scores: over a
    table of [N >= 1] tracts the Supply Gap scores add up to [50 N + 10]
    and the Funding Tailwind scores to [50 N + 50], whatever the data; the
    table averages are [50 + 10/N] and [50 + 50/N]. *)
Theorem relative_scores_total (df : list mrow) (Hdf : df <> []) :
  total (score_supply_gap df) == 50 * Qnat (length df) + 10
  /\ total (score_funding_tailwind df) == 50 * Qnat (length df) + 50.
Proof.
  split.
  - rewrite score_supply_gap_by_row, total_map_Fin. unfold supply_gap_at.
    rewrite !qsum_add, !qsum_scale. unfold fcc_col, m_col, col.
    rewrite !(col_asc_total _ df Hdf).
    rewrite (col_desc_total (fun r => FCC.UniqueProvidersFiber (fcc (base r))) df Hdf),
            (col_desc_total (fun r => FCC.UniqueProviders (fcc (base r))) df Hdf).
    ring.
  - rewrite score_funding_tailwind_by_row, total_map_Fin. unfold funding_tailwind_at.
    rewrite !qsum_add, !qsum_scale. unfold fcc_col, m_col, col.
    rewrite !(col_asc_total _ df Hdf). ring.
Qed.

Lemma relative_scores_total_witness :
  total (score_supply_gap fixture_df) == 50 * 4 + 10
  /\ total (score_funding_tailwind fixture_df) == 50 * 4 + 50.
Proof.
  assert (Hdf : fixture_df <> []) by (vm_compute; discriminate).
  exact (relative_scores_total fixture_df Hdf).
Defined.

(** ** Ranges of Build Feasibility and of the composite *)

Lemma score_build_feasibility_range (df : list mrow) :
  Forall (bounded 15 90.75) (score_build_feasibility df).
Proof.
  unfold score_build_feasibility.
  assert (H1 : Forall (bounded 20 90)
                 (fillna (map (map_dict rucc_map) (col (fun r => rucc_code (base r)) df))
                         (Fin 50))).
  2: assert (H2 : Forall (bounded 20 85)
                    (map bsl_bucket (rank (fcc_col FCC.TotalBSLs df) true true na_keep))).
  3: solve [weighted_sum; try eassumption; lra].
  - unfold fillna, col. rewrite !map_map. apply Forall_map_in. intros r _.
    cbv beta.
    destruct (map_dict_rucc (rucc_code (base r))) as [E | (q & E & Hq)];
      rewrite E; cbn [Float.isna].
    + exists 50. split; [reflexivity|lra].
    + exists q. split; [reflexivity|lra].
  - apply Forall_map_in. intros p _. apply bsl_bucket_bounded.
Qed.

Lemma composite_range (S D F B : Series) :
  Forall (bounded 0 100) S -> Forall (bounded 0 100) D ->
  Forall (bounded 0 100) F -> Forall (bounded 15 90.75) B ->
  Forall (bounded 2.25 98.6125) (composite S D F B).
Proof.
  intros. unfold composite. weighted_sum; try eassumption; lra.
Qed.

Lemma opportunity_score_range (df : list mrow) :
  Forall (bounded 2.25 98.6125)
         (composite (score_supply_gap df) (score_demand_signal df)
                    (score_funding_tailwind df) (score_build_feasibility df)).
Proof.
  apply composite_range;
    auto using score_supply_gap_bounded, score_demand_signal_bounded,
               score_funding_tailwind_bounded, score_build_feasibility_range.
Qed.

Lemma tier_of_label (c : Q) :
  0 < c <= 100 -> exists l, tier_of c = Some l /\ In l tier_labels.
Proof.
  intros [H0 H100]. unfold tier_of, tier_labels.
  destruct (Qlt_bool 0 c) eqn:E0; [|qprop; exfalso; lra].
  destruct (Qle_bool c 30) eqn:L30; [eexists; split; [reflexivity|simpl; auto]|].
  destruct (Qlt_bool 30 c) eqn:E30; [|qprop; exfalso; lra].
  destruct (Qle_bool c 50) eqn:L50; [eexists; split; [reflexivity|simpl; auto]|].
  destruct (Qlt_bool 50 c) eqn:E50; [|qprop; exfalso; lra].
  destruct (Qle_bool c 65) eqn:L65; [eexists; split; [reflexivity|simpl; auto]|].
  destruct (Qlt_bool 65 c) eqn:E65; [|qprop; exfalso; lra].
  destruct (Qle_bool c 80) eqn:L80; [eexists; split; [reflexivity|simpl; auto 6]|].
  destruct (Qlt_bool 80 c) eqn:E80; [|qprop; exfalso; lra].
  destruct (Qle_bool c 100) eqn:L100; [eexists; split; [reflexivity|simpl; auto 6]|].
  qprop. exfalso. lra.
Qed.

(** X7.  Build Feasibility is between 15 and 90.75 and the composite
    between 2.25 and 98.6125 for every tract, so no composite falls outside
    the tier buckets: every scored tract has one of the five tier labels. *)
Theorem every_tract_has_a_tier (df : list mrow) :
  exists out,
    build_composite_score df = Some out
    /\ length out = length df
    /\ forall r, In r out ->
         bounded 15 90.75 (Scored.score_build_feasibility r)
         /\ bounded 2.25 98.6125 (Scored.opportunity_score r)
         /\ exists l, Scored.opportunity_tier r = Some l /\ In l tier_labels.
Proof.
  destruct (build_composite_score_rows df) as (out & E & Hlen & Hrows).
  exists out. split; [assumption|]. split; [assumption|].
  intros r Hr. apply In_nth_error in Hr. destruct Hr as (i & Hi).
  destruct (Hrows i r Hi) as (_ & _ & _ & _ & HB & HO & _ & HT).
  pose proof (nth_bounded _ _ _ _ _ (opportunity_score_range df) HO) as Hc.
  split; [exact (nth_bounded _ _ _ _ _ (score_build_feasibility_range df) HB)|].
  split; [exact Hc|].
  destruct Hc as (c & Ec & Hc). rewrite HT, Ec, cut_tier_of.
  apply tier_of_label. lra.
Qed.

(** ** A column that tells nothing *)

(** X8.  When all cells of a column are equal, or all are missing, every
    row gets the same score: [50 (N + 1) / N] with [ascending=true] and
    [50 (N - 1) / N] with [ascending=false]; for a table of one tract that
    is 100 and 0. *)
Theorem percentile_score_constant_column (s : Series) (i : nat) (x : Float.t)
        (Hi : nth_error s i = Some x)
        (Hsame : (forall y, In y s -> Float.isna y = true)
                 \/ (forall y z, In y s -> In z s -> Float.eqb y z = true)) :
  exists a d,
    nth_error (percentile_score s true) i = Some (Fin a)
    /\ nth_error (percentile_score s false) i = Some (Fin d)
    /\ a == 50 * (Qnat (length s) + 1) / Qnat (length s)
    /\ d == 50 * (Qnat (length s) - 1) / Qnat (length s).
Proof.
  assert (Hx : In x s) by (eapply nth_error_In; eauto).
  assert (Hw : forall y, In y s -> ranks_with x y = true).
  { intros y Hy. destruct Hsame as [H | H].
    - unfold ranks_with. now rewrite (H x Hx), (H y Hy).
    - apply RankOrder.of_eqb. auto. }
  assert (Hr : rank_q s x == (Qnat (length s) + 1) * (1 # 2)).
  { rewrite rank_q_order, average_rank_half.
    rewrite (count_ext (fun y => ranks_before y x) (fun _ => false) s),
            (count_ext (ranks_with x) (fun _ => true) s).
    - unfold count. rewrite (filter_none (fun _ => false)) by reflexivity.
      replace (filter (fun _ => true) s) with s.
      + change (Qnat (length (@nil Float.t))) with 0. ring.
      + clear. induction s as [|y s IH]; [reflexivity|]. simpl. now rewrite <- IH.
    - exact Hw.
    - intros y Hy. destruct (ranks_before y x) eqn:E; [|reflexivity].
      exfalso. exact (RankOrder.before_with_disjoint _ _ E (Hw y Hy)). }
  pose proof (Qnat_length_pos x s Hx) as HN.
  exists (pct_asc s x), (pct_desc s x).
  rewrite nth_percentile_score_asc, nth_percentile_score_desc, Hi. simpl.
  repeat (split; [reflexivity|]).
  unfold pct_desc, pct_asc. rewrite Hr. split; field; lra.
Qed.

Lemma percentile_score_constant_column_witness :
  exists a d,
    nth_error (percentile_score [Fin 0; Fin 0; Fin 0; Fin 0] true) 2 = Some (Fin a)
    /\ nth_error (percentile_score [Fin 0; Fin 0; Fin 0; Fin 0] false) 2 = Some (Fin d)
    /\ a == 50 * (4 + 1) / 4
    /\ d == 50 * (4 - 1) / 4.
Proof.
  apply (percentile_score_constant_column [Fin 0; Fin 0; Fin 0; Fin 0] 2 (Fin 0) eq_refl).
  right. intros y z [<-|[<-|[<-|[<-|[]]]]] [<-|[<-|[<-|[<-|[]]]]]; reflexivity.
Defined.

(** ** Rank and tier across the table *)

Lemma build_composite_score_ranks (df : list mrow) :
  exists out,
    build_composite_score df = Some out
    /\ length out = length df
    /\ forall r, In r out ->
         let O := map Scored.opportunity_score out in
         Scored.opportunity_rank r
         = truncated_average_rank O (Scored.opportunity_score r)
         /\ In (Scored.opportunity_score r) O
         /\ bounded 2.25 98.6125 (Scored.opportunity_score r)
         /\ Scored.opportunity_tier r
            = cut tier_bins tier_labels (Scored.opportunity_score r).
Proof.
  destruct (build_composite_score_rows df) as (out & E & Hlen & Hrows).
  exists out. split; [assumption|]. split; [assumption|].
  assert (EO : map Scored.opportunity_score out
               = composite (score_supply_gap df) (score_demand_signal df)
                           (score_funding_tailwind df) (score_build_feasibility df)).
  { apply map_opportunity_score; [assumption|]. intros i r Hr. apply (Hrows i r Hr). }
  intros r Hr O. pose proof (in_map Scored.opportunity_score out r Hr) as Hin.
  apply In_nth_error in Hr. destruct Hr as (i & Hi).
  destruct (Hrows i r Hi) as (_ & _ & _ & _ & _ & HO & HR & HT).
  split; [unfold O; rewrite EO; exact HR|]. split; [exact Hin|].
  split; [exact (nth_bounded _ _ _ _ _ (opportunity_score_range df) HO)|exact HT].
Qed.

Lemma truncated_average_rank_le (O : Series) (x : Float.t) :
  In x O -> Float.isna x = false ->
  (truncated_average_rank O x <= Z.of_nat (length O))%Z.
Proof.
  intros Hx Hna. unfold truncated_average_rank.
  assert (Tx : (1 <= count (Float.eqb x) O)%nat)
    by (apply (count_pos _ x); auto using FloatFacts.eqb_refl).
  assert (Hsum : (count (fun y => Float.ltb x y) O + count (Float.eqb x) O
                  <= count (fun _ => true) O)%nat).
  { apply count_split_le; auto.
    intros y H1 H2. rewrite FloatFacts.eqb_sym in H2.
    exact (FloatFacts.ltb_eqb_disjoint _ _ H1 H2). }
  pose proof (count_le_length (fun _ : Float.t => true) O).
  pose proof (half_up_bounds _ Tx). lia.
Qed.

(** X9.  Every rank is between 1 and the number of tracts, and a tract
    that every other tract outscores has the last rank, [N]. *)
Theorem rank_range (df : list mrow) :
  exists out,
    build_composite_score df = Some out
    /\ length out = length df
    /\ forall a, In a out ->
         (1 <= Scored.opportunity_rank a <= Z.of_nat (length out))%Z
         /\ (count (fun y => Float.ltb (Scored.opportunity_score a) y)
                   (map Scored.opportunity_score out) = (length out - 1)%nat ->
             Scored.opportunity_rank a = Z.of_nat (length out)).
Proof.
  destruct (build_composite_score_ranks df) as (out & E & Hlen & H).
  exists out. split; [assumption|]. split; [assumption|].
  intros a Ha. destruct (H a Ha) as (Hr & Hin & (c & Ec & _) & _).
  assert (Hna : Float.isna (Scored.opportunity_score a) = false) by now rewrite Ec.
  rewrite Hr. split; [split|].
  - now apply truncated_average_rank_pos.
  - rewrite <- (length_map Scored.opportunity_score out).
    now apply truncated_average_rank_le.
  - intro Hlast. unfold truncated_average_rank. rewrite Hlast.
    assert (Tx : (1 <= count (Float.eqb (Scored.opportunity_score a))
                         (map Scored.opportunity_score out))%nat)
      by (apply (count_pos _ (Scored.opportunity_score a));
          auto using FloatFacts.eqb_refl).
    assert (Hsum : (count (fun y => Float.ltb (Scored.opportunity_score a) y)
                          (map Scored.opportunity_score out)
                    + count (Float.eqb (Scored.opportunity_score a))
                            (map Scored.opportunity_score out)
                    <= count (fun _ => true) (map Scored.opportunity_score out))%nat).
    { apply count_split_le; auto.
      intros y H1 H2. rewrite FloatFacts.eqb_sym in H2.
      exact (FloatFacts.ltb_eqb_disjoint _ _ H1 H2). }
    pose proof (count_le_length (fun _ : Float.t => true)
                                (map Scored.opportunity_score out)) as Hc.
    rewrite length_map in Hc. rewrite Hlast in Hsum.
    assert (Hone : count (Float.eqb (Scored.opportunity_score a))
                         (map Scored.opportunity_score out) = 1%nat) by lia.
    rewrite Hone. change ((1 + 1) / 2)%nat with 1%nat.
    assert (1 <= length out)%nat by (destruct out; [destruct Ha|simpl; lia]).
    lia.
Qed.

Lemma tier_level_of (c : Q) :
  0 < c <= 100 -> tier_level (tier_of c) = tier_level_of_score c.
Proof.
  intros [H0 H100]. unfold tier_of, tier_level_of_score, count.
  cbn [filter].
  destruct (Qlt_bool 0 c) eqn:E0; [|qprop; exfalso; lra].
  destruct (Qlt_bool 30 c) eqn:E30, (Qlt_bool 50 c) eqn:E50,
           (Qlt_bool 65 c) eqn:E65, (Qlt_bool 80 c) eqn:E80;
    qprop; try (exfalso; lra);
    destruct (Qle_bool c 30) eqn:L30, (Qle_bool c 50) eqn:L50,
             (Qle_bool c 65) eqn:L65, (Qle_bool c 80) eqn:L80,
             (Qle_bool c 100) eqn:L100;
    qprop; try (exfalso; lra); reflexivity.
Qed.

Lemma tier_level_of_score_mono (a b : Q) :
  a <= b -> (tier_level_of_score a <= tier_level_of_score b)%nat.
Proof.
  intro H. unfold tier_level_of_score. apply le_n_S.
  rewrite <- (Nat.add_0_r (count _ _)) at 1.
  change 0%nat with (count (fun _ : Q => false) [30; 50; 65; 80]) at 1.
  apply count_split_le.
  - intros y _ Hf. discriminate.
  - intros y Hy. qprop. lra.
  - intros y Hf. discriminate.
Qed.

(** X10.  Tier and rank never disagree: of two tracts, the one with the
    better (smaller) rank has a tier that is at least as high; and a tract
    with a composite score no lower than another's has a tier no lower. *)
Theorem tier_follows_rank (df : list mrow) :
  exists out,
    build_composite_score df = Some out
    /\ length out = length df
    /\ forall a b, In a out -> In b out ->
         (Float.leb (Scored.opportunity_score b) (Scored.opportunity_score a) = true ->
          (tier_level (Scored.opportunity_tier b)
           <= tier_level (Scored.opportunity_tier a))%nat)
         /\ ((Scored.opportunity_rank a < Scored.opportunity_rank b)%Z ->
             (tier_level (Scored.opportunity_tier b)
              <= tier_level (Scored.opportunity_tier a))%nat).
Proof.
  destruct (build_composite_score_ranks df) as (out & E & Hlen & H).
  exists out. split; [assumption|]. split; [assumption|].
  intros a b Ha Hb.
  destruct (H a Ha) as (Hra & Hina & (ca & Eca & Hca) & Hta).
  destruct (H b Hb) as (Hrb & Hinb & (cb & Ecb & Hcb) & Htb).
  assert (Hle : cb <= ca ->
                (tier_level (Scored.opportunity_tier b)
                 <= tier_level (Scored.opportunity_tier a))%nat).
  { intro Hc. rewrite Hta, Htb, Eca, Ecb, !cut_tier_of.
    rewrite !tier_level_of by lra. now apply tier_level_of_score_mono. }
  split.
  - intro Hleb. apply Hle. rewrite Eca, Ecb in Hleb.
    unfold Float.leb in Hleb. simpl in Hleb. apply orb_true_iff in Hleb.
    destruct Hleb; qprop; lra.
  - intro Hlt. apply Hle. destruct (Qlt_le_dec ca cb) as [Hab | Hab]; [|exact Hab].
    exfalso.
    assert (Hm : Float.ltb (Scored.opportunity_score a) (Scored.opportunity_score b)
                 = true) by (rewrite Eca, Ecb; simpl; now apply Qlt_bool_iff).
    pose proof (truncated_average_rank_mono _ _ _ Hinb Hina Hm) as Hmono.
    rewrite <- Hra, <- Hrb in Hmono. lia.
Qed.

(** ** The loader *)

Lemma in_merge_inner acs_t fcc_t (a : ACS.row) (f : FCC.row) :
  In (a, f) (merge_inner acs_t fcc_t)
  <-> In a acs_t /\ In f fcc_t /\ ACS.GEOID a = FCC.GEOID f.
Proof.
  unfold merge_inner. rewrite in_flat_map. split.
  - intros (a' & Ha & H). apply in_map_iff in H. destruct H as (f' & [= <- <-] & Hf).
    apply filter_In in Hf. destruct Hf as [Hf He]. apply String.eqb_eq in He. auto.
  - intros (Ha & Hf & He). exists a. split; [assumption|].
    apply in_map. apply filter_In. split; [assumption|]. now apply String.eqb_eq.
Qed.

Lemma in_merge_left merged rucc_t (t : tract) :
  In t (merge_left merged rucc_t) <->
  exists a f cg,
    In (a, f, cg) merged
    /\ acs t = a /\ fcc t = f /\ county_geoid t = cg
    /\ ((filter (fun kr => String.eqb cg (fst kr)) rucc_t = []
         /\ rucc_code t = NaN /\ county_pop_2020 t = NaN /\ rucc_description t = None)
        \/ exists k u, In (k, u) rucc_t /\ k = cg
                       /\ rucc_code t = RUCC.RUCC_2023 u
                       /\ county_pop_2020 t = RUCC.Population_2020 u
                       /\ rucc_description t = RUCC.Description u).
Proof.
  unfold merge_left. rewrite in_flat_map. split.
  - intros (((a & f) & cg) & Hin & H). exists a, f, cg. split; [assumption|].
    destruct (filter _ rucc_t) as [|kr ms] eqn:E.
    + destruct H as [<-|[]]. simpl. repeat split. left. repeat split.
    + apply in_map_iff in H. destruct H as ((k & u) & <- & Hkr). simpl.
      repeat split. right. exists k, u.
      rewrite <- E in Hkr. apply filter_In in Hkr. destruct Hkr as [Hkr He].
      apply String.eqb_eq in He. simpl in He. repeat split; auto.
  - intros (a & f & cg & Hin & Ha & Hf & Hc & H). exists (a, f, cg).
    split; [assumption|]. destruct t as [a' f' cg' rc pop desc]. simpl in *. subst.
    destruct H as [(E & -> & -> & ->) | (k & u & Hu & -> & -> & -> & ->)].
    + rewrite E. now left.
    + assert (Hkr : In (cg, u) (filter (fun kr => String.eqb cg (fst kr)) rucc_t)).
      { apply filter_In. split; [assumption|]. simpl. apply String.eqb_refl. }
      destruct (filter _ rucc_t) as [|kr ms]; [destruct Hkr|].
      exact (in_map (fun kr' : string * RUCC.row =>
                       {| acs := a; fcc := f; county_geoid := cg;
                          rucc_code := RUCC.RUCC_2023 (snd kr');
                          county_pop_2020 := RUCC.Population_2020 (snd kr');
                          rucc_description := RUCC.Description (snd kr') |})
                    (kr :: ms) (cg, u) Hkr).
Qed.

Lemma in_load_and_merge acs_t fcc_t rucc_t (t : tract) :
  In t (load_and_merge acs_t fcc_t rucc_t) <->
  exists t',
    t = clean_income t' /\ retained t' = true
    /\ In (acs t') acs_t /\ In (fcc t') fcc_t
    /\ ACS.GEOID (acs t') = FCC.GEOID (fcc t')
    /\ county_geoid t' = substring 0 5 (ACS.GEOID (acs t'))
    /\ (((forall u, In u rucc_t -> rucc_key u <> county_geoid t')
         /\ rucc_code t' = NaN /\ county_pop_2020 t' = NaN
         /\ rucc_description t' = None)
        \/ exists u, In u rucc_t /\ rucc_key u = county_geoid t'
                     /\ rucc_code t' = RUCC.RUCC_2023 u
                     /\ county_pop_2020 t' = RUCC.Population_2020 u
                     /\ rucc_description t' = RUCC.Description u).
Proof.
  unfold load_and_merge. rewrite in_map_iff. split.
  - intros (t' & <- & H). exists t'. split; [reflexivity|].
    apply filter_In in H. destruct H as [H Hret]. split; [assumption|].
    apply in_merge_left in H. destruct H as (a & f & cg & Hin & <- & <- & <- & H).
    apply in_map_iff in Hin. destruct Hin as ((a' & f') & [= -> -> Hcg] & Hin).
    apply in_merge_inner in Hin. destruct Hin as (Ha & Hf & He).
    repeat (split; [auto|]).
    destruct H as [(E & H1 & H2 & H3) | (k & u & Hu & -> & H1 & H2 & H3)].
    + left. repeat (split; [|auto]). intros u Hu Hk.
      assert (Hin : In (rucc_key u, u)
                      (filter (fun kr => String.eqb (county_geoid t') (fst kr))
                              (map (fun r => (zfill 5 (str (RUCC.FIPS r)), r)) rucc_t))).
      { apply filter_In. split.
        - apply in_map_iff. exists u. auto.
        - simpl. apply String.eqb_eq. now symmetry. }
      rewrite E in Hin. destruct Hin.
    + right. apply in_map_iff in Hu. destruct Hu as (u' & [= Hk ->] & Hu).
      exists u. auto.
  - intros (t' & -> & Hret & Ha & Hf & He & Hcg & H). exists t'.
    split; [reflexivity|]. apply filter_In. split; [|assumption].
    apply in_merge_left. exists (acs t'), (fcc t'), (county_geoid t').
    split.
    { apply in_map_iff. exists (acs t', fcc t'). split; [now rewrite Hcg|].
      now apply in_merge_inner. }
    repeat (split; [reflexivity|]).
    destruct H as [(Hno & H1 & H2 & H3) | (u & Hu & Hk & H1 & H2 & H3)].
    + left. repeat (split; [|auto]).
      apply filter_none. intros (k & u) Hku.
      apply in_map_iff in Hku. destruct Hku as (u' & [= <- <-] & Hu').
      simpl. destruct (String.eqb_spec (county_geoid t') (zfill 5 (str (RUCC.FIPS u'))))
        as [Heq|]; [|reflexivity].
      exfalso. apply (Hno u' Hu'). now symmetry.
    + right. exists (county_geoid t'), u. repeat (split; [|auto]).
      apply in_map_iff. exists u. split; [|assumption]. now rewrite <- Hk.
Qed.

Lemma clean_income_fields (t : tract) :
  acs (clean_income t) = cleaned (acs t)
  /\ fcc (clean_income t) = fcc t
  /\ county_geoid (clean_income t) = county_geoid t
  /\ rucc_code (clean_income t) = rucc_code t.
Proof. repeat split. Qed.

Lemma cleaned_not_sentinel (a : ACS.row) :
  Float.eqb (ACS.median_hh_income (cleaned a)) (Fin census_na) = false.
Proof.
  unfold cleaned, replace. simpl.
  destruct (Float.eqb (ACS.median_hh_income a) (Fin census_na)) eqn:E;
    [reflexivity|assumption].
Qed.

(** X11.  Every row of the merged table joins one row of the ACS table
    and one row of the FCC table with the same GEOID; its county key is
    the first five characters of that GEOID; its population, households
    and BSLs are positive; its income is that of the ACS row, except that
    the Census code -666666666 has become a missing value and never
    reaches the scoring. *)
Theorem load_and_merge_sound acs_t fcc_t rucc_t (t : tract)
        (Hin : In t (load_and_merge acs_t fcc_t rucc_t)) :
  (exists a, In a acs_t /\ acs t = cleaned a
             /\ ACS.GEOID a = FCC.GEOID (fcc t)
             /\ (Float.eqb (ACS.median_hh_income a) (Fin census_na) = true ->
                 ACS.median_hh_income (acs t) = NaN)
             /\ (Float.eqb (ACS.median_hh_income a) (Fin census_na) = false ->
                 ACS.median_hh_income (acs t) = ACS.median_hh_income a))
  /\ In (fcc t) fcc_t
  /\ county_geoid t = substring 0 5 (GEOID t)
  /\ Float.ltb (Fin 0) (ACS.total_population (acs t)) = true
  /\ Float.ltb (Fin 0) (ACS.hh_total (acs t)) = true
  /\ Float.ltb (Fin 0) (FCC.TotalBSLs (fcc t)) = true
  /\ Float.eqb (ACS.median_hh_income (acs t)) (Fin census_na) = false.
Proof.
  apply in_load_and_merge in Hin.
  destruct Hin as (t' & -> & Hret & Ha & Hf & He & Hcg & _).
  apply retained_iff in Hret. destruct Hret as (Hp & Hh & Hb).
  split.
  { exists (acs t'). split; [assumption|]. split; [reflexivity|].
    split; [assumption|].
    simpl. unfold replace. split; intros ->; reflexivity. }
  split; [exact Hf|]. split; [exact Hcg|].
  split; [exact Hp|]. split; [exact Hh|]. split; [exact Hb|].
  apply (cleaned_not_sentinel (acs t')).
Qed.

Lemma load_and_merge_sound_witness :
  exists t,
    nth_error (load_and_merge fixture_acs fixture_fcc fixture_rucc) 0 = Some t
    /\ In (fcc t) fixture_fcc
    /\ county_geoid t = substring 0 5 (GEOID t)
    /\ Float.eqb (ACS.median_hh_income (acs t)) (Fin census_na) = false.
Proof.
  destruct (nth_error (load_and_merge fixture_acs fixture_fcc fixture_rucc) 0)
    as [t|] eqn:E; [|discriminate E].
  exists t. split; [reflexivity|].
  destruct (load_and_merge_sound fixture_acs fixture_fcc fixture_rucc t
              (nth_error_In _ _ E))
    as (_ & Hf & Hcg & _ & _ & _ & Hs).
  auto.
Defined.

(** X12.  The loader drops a tract only for a missing partner or a
    failed filter: every ACS row and FCC row with the same GEOID and
    positive population, households and BSLs give a row of the merged
    table, whether or not the RUCC table lists the county. *)
Theorem load_and_merge_complete acs_t fcc_t rucc_t (a : ACS.row) (f : FCC.row)
        (Ha : In a acs_t) (Hf : In f fcc_t)
        (Hkey : ACS.GEOID a = FCC.GEOID f)
        (Hpop : Float.ltb (Fin 0) (ACS.total_population a) = true)
        (Hhh : Float.ltb (Fin 0) (ACS.hh_total a) = true)
        (Hbsl : Float.ltb (Fin 0) (FCC.TotalBSLs f) = true) :
  exists t,
    In t (load_and_merge acs_t fcc_t rucc_t)
    /\ acs t = cleaned a /\ fcc t = f.
Proof.
  set (cg := substring 0 5 (ACS.GEOID a)).
  assert (Hret : forall rc pop desc,
             retained {| acs := a; fcc := f; county_geoid := cg; rucc_code := rc;
                         county_pop_2020 := pop; rucc_description := desc |} = true).
  { intros. apply retained_iff. simpl. auto. }
  destruct (filter (fun u => String.eqb (rucc_key u) cg) rucc_t) as [|u us] eqn:E.
  - exists (clean_income {| acs := a; fcc := f; county_geoid := cg; rucc_code := NaN;
                            county_pop_2020 := NaN; rucc_description := None |}).
    split; [|split; reflexivity].
    apply in_load_and_merge. eexists. split; [reflexivity|]. split; [apply Hret|].
    simpl. repeat (split; [auto|]). left. repeat (split; [|auto]).
    intros u Hu Hk.
    assert (Hin : In u (filter (fun u => String.eqb (rucc_key u) cg) rucc_t)).
    { apply filter_In. split; [assumption|]. now apply String.eqb_eq. }
    rewrite E in Hin. destruct Hin.
  - assert (Hu : In u (filter (fun u => String.eqb (rucc_key u) cg) rucc_t))
      by (rewrite E; now left).
    apply filter_In in Hu. destruct Hu as [Hu Hk]. apply String.eqb_eq in Hk.
    exists (clean_income {| acs := a; fcc := f; county_geoid := cg;
                            rucc_code := RUCC.RUCC_2023 u;
                            county_pop_2020 := RUCC.Population_2020 u;
                            rucc_description := RUCC.Description u |}).
    split; [|split; reflexivity].
    apply in_load_and_merge. eexists. split; [reflexivity|]. split; [apply Hret|].
    simpl. repeat (split; [auto|]). right. exists u. auto.
Qed.

Lemma load_and_merge_complete_witness :
  exists t,
    In t (load_and_merge fixture_acs fixture_fcc fixture_rucc)
    /\ acs t = cleaned (acs_row "51999000100" 2500 1000 150 700 (Fin 28000))
    /\ fcc t = fcc_row "51999000100" "Unlisted" 800 100 50 200 4 1.
Proof.
  apply (load_and_merge_complete fixture_acs fixture_fcc fixture_rucc);
    try reflexivity.
  - simpl. auto 10.
  - simpl. auto 10.
Defined.

(** ** Unique keys *)

Lemma filter_unique_key {A} (k : A -> string) (x : string) (l : list A) :
  NoDup (map k l) ->
  filter (fun y => String.eqb x (k y)) l = []
  \/ exists y, filter (fun y => String.eqb x (k y)) l = [y].
Proof.
  induction l as [|y l IH]; simpl; intro H; [now left|].
  inversion H as [|? ? Hnotin Hnd]; subst.
  destruct (String.eqb_spec x (k y)) as [->|Hne].
  - right. exists y. f_equal. apply filter_none. intros z Hz.
    destruct (String.eqb_spec (k y) (k z)) as [E|]; [|reflexivity].
    exfalso. apply Hnotin. rewrite E. now apply in_map.
  - auto.
Qed.

Lemma NoDup_flat_map_keys {A B} (g : B -> string) (k : A -> string)
      (F : A -> list B) (l : list A) :
  NoDup (map k l) ->
  (forall x, In x l -> map g (F x) = [] \/ map g (F x) = [k x]) ->
  NoDup (map g (flat_map F l))
  /\ forall y, In y (map g (flat_map F l)) -> In y (map k l).
Proof.
  induction l as [|x l IH]; simpl; intros Hnd HF.
  - split; [constructor|easy].
  - inversion Hnd as [|? ? Hnotin Hnd']; subst.
    destruct (IH Hnd' (fun y Hy => HF y (or_intror Hy))) as [IH1 IH2].
    rewrite map_app.
    destruct (HF x (or_introl eq_refl)) as [E | E]; rewrite E; simpl.
    + split; [assumption|]. intros y Hy. right. auto.
    + split.
      * constructor; [|assumption]. intro Hin. apply Hnotin. auto.
      * intros y [<-|Hy]; auto.
Qed.

Lemma NoDup_map_filter {A B} (g : A -> B) (p : A -> bool) (l : list A) :
  NoDup (map g l) -> NoDup (map g (filter p l)).
Proof.
  induction l as [|x l IH]; simpl; intro H; [constructor|].
  inversion H as [|? ? Hnotin Hnd]; subst.
  destruct (p x); simpl; [|auto].
  constructor; [|auto]. intro Hin. apply Hnotin.
  apply in_map_iff in Hin. destruct Hin as (y & Ey & Hy).
  apply filter_In in Hy. apply in_map_iff. exists y. tauto.
Qed.

Lemma merge_inner_keys acs_t fcc_t :
  NoDup (map ACS.GEOID acs_t) -> NoDup (map FCC.GEOID fcc_t) ->
  NoDup (map (fun p => ACS.GEOID (fst p)) (merge_inner acs_t fcc_t)).
Proof.
  intros Ha Hf. unfold merge_inner.
  apply (NoDup_flat_map_keys (fun p : ACS.row * FCC.row => ACS.GEOID (fst p))
                             ACS.GEOID); [assumption|].
  intros a _. rewrite map_map. simpl.
  destruct (filter_unique_key FCC.GEOID (ACS.GEOID a) fcc_t Hf) as [-> | (y & ->)];
    [now left|now right].
Qed.

Lemma merge_left_keys merged rucc_t :
  NoDup (map (fun x : ACS.row * FCC.row * string => ACS.GEOID (fst (fst x))) merged) ->
  NoDup (map fst rucc_t) ->
  NoDup (map GEOID (merge_left merged rucc_t)).
Proof.
  intros Hm Hr. unfold merge_left.
  apply (NoDup_flat_map_keys GEOID
           (fun x : ACS.row * FCC.row * string => ACS.GEOID (fst (fst x))));
    [assumption|].
  intros ((a & f) & cg) _. right.
  destruct (filter_unique_key fst cg rucc_t Hr) as [-> | (y & ->)]; reflexivity.
Qed.

(** X13.  When no GEOID occurs twice in the ACS table or in the FCC
    table and no county occurs twice in the RUCC table, no GEOID occurs
    twice in the merged table: the county-level join does not multiply
    tracts. *)
Theorem load_and_merge_unique_geoid acs_t fcc_t rucc_t
        (Ha : NoDup (map ACS.GEOID acs_t))
        (Hf : NoDup (map FCC.GEOID fcc_t))
        (Hr : NoDup (map rucc_key rucc_t)) :
  NoDup (map GEOID (load_and_merge acs_t fcc_t rucc_t))
  /\ (length (load_and_merge acs_t fcc_t rucc_t) <= length acs_t)%nat.
Proof.
  assert (Hnd : NoDup (map GEOID (load_and_merge acs_t fcc_t rucc_t))).
  { unfold load_and_merge. rewrite map_map.
    change (fun x => GEOID (clean_income x)) with GEOID.
    apply NoDup_map_filter. apply merge_left_keys.
    - rewrite map_map.
      rewrite (map_ext _ (fun p : ACS.row * FCC.row => ACS.GEOID (fst p)))
        by (now intros (a & f)).
      now apply merge_inner_keys.
    - now rewrite map_map. }
  split; [exact Hnd|].
  rewrite <- (length_map GEOID), <- (length_map ACS.GEOID acs_t).
  apply NoDup_incl_length; [exact Hnd|].
  intros g Hg. apply in_map_iff in Hg. destruct Hg as (t & <- & Ht).
  apply in_load_and_merge in Ht. destruct Ht as (t' & -> & _ & Ha' & _).
  apply in_map_iff. exists (acs t'). auto.
Qed.

Lemma load_and_merge_unique_geoid_witness :
  NoDup (map GEOID (load_and_merge fixture_acs fixture_fcc fixture_rucc))
  /\ (length (load_and_merge fixture_acs fixture_fcc fixture_rucc)
      <= length fixture_acs)%nat.
Proof.
  apply load_and_merge_unique_geoid.
  - repeat (constructor; [simpl; intuition discriminate|]). constructor.
  - repeat (constructor; [simpl; intuition discriminate|]). constructor.
  - repeat (constructor; [vm_compute; intuition discriminate|]). constructor.
Defined.

(** ** Supply ratios *)

Lemma div_present (u t : Q) :
  ~ t == 0 -> Float.div (Fin u) (Fin t) = Fin (u / t).
Proof.
  intro H. simpl. apply Qeq_bool_false in H. now rewrite H.
Qed.

Lemma Qdiv_unit (u t : Q) : 0 < t -> 0 <= u <= t -> 0 <= u / t <= 1.
Proof.
  intros Ht [H0 H1]. split.
  - apply Qle_shift_div_l; lra.
  - apply Qle_shift_div_r; lra.
Qed.

Lemma Qdiv_above (u t : Q) : 0 < t -> t < u -> 1 < u / t.
Proof.
  intros Ht H. apply Qlt_shift_div_l; lra.
Qed.

(** In the int64 range the wrap-around does nothing. *)
Lemma wrap64_small (z : Z) : (- 2 ^ 63 <= z < 2 ^ 63)%Z -> wrap64 z = z.
Proof.
  unfold wrap64. intro H. rewrite Z.mod_small; lia.
Qed.

Lemma add_as_counts (t : dtype) (a b : Z) :
  (- 2 ^ 63 <= a + b < 2 ^ 63)%Z ->
  exists q, add_as t (Fin (inject_Z a)) (Fin (inject_Z b)) = Fin q
            /\ q == inject_Z a + inject_Z b.
Proof.
  intro H. destruct t; unfold add_as, int_op.
  - rewrite !Qfloor_Z, (wrap64_small _ H). eexists. split; [reflexivity|].
    rewrite inject_Z_plus. reflexivity.
  - eexists. split; reflexivity.
Qed.

Lemma sub_as_counts (t : dtype) (a b : Z) :
  (- 2 ^ 63 <= a - b < 2 ^ 63)%Z ->
  exists q, sub_as t (Fin (inject_Z a)) (Fin (inject_Z b)) = Fin q
            /\ q == inject_Z a - inject_Z b.
Proof.
  intro H. destruct t; unfold sub_as, int_op.
  - rewrite !Qfloor_Z, (wrap64_small _ H). eexists. split; [reflexivity|].
    unfold Z.sub. rewrite inject_Z_plus, inject_Z_opp. reflexivity.
  - eexists. split; reflexivity.
Qed.

(** X14.  For a tract whose FCC counts are whole numbers from 0 to below
    2^62 and whose total BSLs are positive, whatever the dtypes of the
    count columns, the supply percentages are the ratios to total BSLs
    times 100: the combined unserved and underserved percentage is the sum
    of the two, and the percentage without fiber is 100 minus the
    percentage served by fiber.  They lie in [0, 100] when the counts are
    consistent with the total and are not clamped when they are not: an
    unserved plus underserved count above the total gives more than 100,
    and a fiber-served count above the total gives a negative
    percentage. *)
Theorem supply_ratios (dt : dtypes) (r : tract) (T u d f : Z)
        (HT : FCC.TotalBSLs (fcc r) = Fin (inject_Z T)) (Hpos : (0 < T < 2 ^ 62)%Z)
        (Hu : FCC.UnservedBSLs (fcc r) = Fin (inject_Z u)) (Hur : (0 <= u < 2 ^ 62)%Z)
        (Hd : FCC.UnderservedBSLs (fcc r) = Fin (inject_Z d)) (Hdr : (0 <= d < 2 ^ 62)%Z)
        (Hf : FCC.ServedBSLsFiber (fcc r) = Fin (inject_Z f)) (Hfr : (0 <= f < 2 ^ 62)%Z) :
  exists pu pd pud pnf,
    pct_unserved (derived dt r) = Fin pu
    /\ pct_underserved (derived dt r) = Fin pd
    /\ pct_unserved_underserved (derived dt r) = Fin pud
    /\ pct_no_fiber (derived dt r) = Fin pnf
    /\ pu == inject_Z u / inject_Z T * 100 /\ pd == inject_Z d / inject_Z T * 100
    /\ pud == pu + pd
    /\ pnf == 100 - inject_Z f / inject_Z T * 100
    /\ ((u + d <= T)%Z -> 0 <= pud <= 100)
    /\ ((T < u + d)%Z -> 100 < pud)
    /\ ((f <= T)%Z -> 0 <= pnf <= 100)
    /\ ((T < f)%Z -> pnf < 0).
Proof.
  assert (H62 : (2 ^ 63 = 2 * 2 ^ 62)%Z) by reflexivity.
  destruct (add_as_counts
              (promote (fcc_dtype dt FCC.UnservedBSLs) (fcc_dtype dt FCC.UnderservedBSLs))
              u d) as (s & Es & Hs); [lia|].
  destruct (sub_as_counts
              (promote (fcc_dtype dt FCC.TotalBSLs) (fcc_dtype dt FCC.ServedBSLsFiber))
              T f) as (w & Ew & Hw); [lia|].
  assert (HTq : 0 < inject_Z T) by (rewrite (Zlt_Qlt 0 T) in Hpos; tauto).
  assert (Huq : 0 <= inject_Z u) by (rewrite (Zle_Qle 0 u) in Hur; tauto).
  assert (Hdq : 0 <= inject_Z d) by (rewrite (Zle_Qle 0 d) in Hdr; tauto).
  assert (Hfq : 0 <= inject_Z f) by (rewrite (Zle_Qle 0 f) in Hfr; tauto).
  assert (HT0 : ~ inject_Z T == 0) by lra.
  exists (inject_Z u / inject_Z T * 100), (inject_Z d / inject_Z T * 100),
         (s / inject_Z T * 100), (w / inject_Z T * 100).
  unfold derived. cbn [pct_unserved pct_underserved pct_unserved_underserved pct_no_fiber].
  rewrite HT, Hu, Hd, Hf, Es, Ew. rewrite !(div_present _ (inject_Z T) HT0).
  repeat (split; [reflexivity|]).
  split; [rewrite Hs; field; exact HT0|].
  split; [rewrite Hw; field; exact HT0|].
  split.
  - intro H. rewrite Zle_Qle, inject_Z_plus in H.
    pose proof (Qdiv_unit s (inject_Z T) HTq). lra.
  - split.
    + intro H. rewrite Zlt_Qlt, inject_Z_plus in H.
      pose proof (Qdiv_above s (inject_Z T) HTq). lra.
    + split.
      * intro H. rewrite Zle_Qle in H.
        pose proof (Qdiv_unit w (inject_Z T) HTq). lra.
      * intro H. rewrite Zlt_Qlt in H.
        assert (Hneg : w / inject_Z T < 0).
        { apply Qlt_shift_div_r; lra. }
        lra.
Qed.

Lemma supply_ratios_witness :
  exists pu pd pud pnf,
    pct_unserved (derived fixture_empty_universe_dtypes fixture_empty_universe) = Fin pu
    /\ pct_underserved (derived fixture_empty_universe_dtypes fixture_empty_universe)
       = Fin pd
    /\ pct_unserved_underserved
         (derived fixture_empty_universe_dtypes fixture_empty_universe) = Fin pud
    /\ pct_no_fiber (derived fixture_empty_universe_dtypes fixture_empty_universe)
       = Fin pnf
    /\ pud == pu + pd
    /\ 0 <= pud <= 100
    /\ 0 <= pnf <= 100.
Proof.
  destruct (supply_ratios fixture_empty_universe_dtypes fixture_empty_universe 9 3 2 0)
    as (pu & pd & pud & pnf & H1 & H2 & H3 & H4 & _ & _ & Hsum & _ & Hb & _ & Hf & _);
    try reflexivity; try (split; [discriminate|reflexivity]);
    try (split; reflexivity).
  exists pu, pd, pud, pnf.
  repeat (split; [assumption|]).
  split; [apply Hb; discriminate|apply Hf; discriminate].
Defined.

(** ** Clipped adoption gaps *)

(** X15.  In the Demand Signal the adoption gap is clipped at zero
    before it is ranked, so all tracts whose gap is zero or negative tie:
    they get the same percentile score, however negative the gap. *)
Theorem negative_gaps_tie (gap : Series) (i j : nat) (x y : Q)
        (Hi : nth_error gap i = Some (Fin x)) (Hj : nth_error gap j = Some (Fin y))
        (Hx : x <= 0) (Hy : y <= 0) :
  exists a b,
    nth_error (percentile_score (clip_lower 0 gap) true) i = Some (Fin a)
    /\ nth_error (percentile_score (clip_lower 0 gap) true) j = Some (Fin b)
    /\ a == b.
Proof.
  set (c := fun v : Float.t => if Float.ltb v (Fin 0) then Fin 0 else v).
  assert (Hci : nth_error (clip_lower 0 gap) i = Some (c (Fin x)))
    by (unfold clip_lower; rewrite nth_error_map, Hi; reflexivity).
  assert (Hcj : nth_error (clip_lower 0 gap) j = Some (c (Fin y)))
    by (unfold clip_lower; rewrite nth_error_map, Hj; reflexivity).
  exists (pct_asc (clip_lower 0 gap) (c (Fin x))), (pct_asc (clip_lower 0 gap) (c (Fin y))).
  rewrite !nth_percentile_score_asc, Hci, Hcj. simpl.
  repeat (split; [reflexivity|]).
  unfold pct_asc. rewrite (rank_q_tie _ (c (Fin x)) (c (Fin y))); [reflexivity|].
  apply RankOrder.of_eqb. unfold c. simpl.
  destruct (Qlt_bool x 0) eqn:Ex, (Qlt_bool y 0) eqn:Ey; simpl; qprop; lra.
Qed.

Lemma negative_gaps_tie_witness :
  exists a b,
    nth_error (percentile_score (clip_lower 0 [Fin (-40); Fin 12; Fin (-3); NaN]) true) 0
    = Some (Fin a)
    /\ nth_error (percentile_score (clip_lower 0 [Fin (-40); Fin 12; Fin (-3); NaN]) true) 2
       = Some (Fin b)
    /\ a == b.
Proof.
  apply (negative_gaps_tie [Fin (-40); Fin 12; Fin (-3); NaN] 0 2 (-40) (-3));
    try reflexivity; discriminate.
Defined.

(** ** Missing counts in the Funding Tailwind *)

Lemma rank_q_missing_top (s : Series) (y : Float.t) :
  In y s -> In NaN s -> rank_q s y <= rank_q s NaN.
Proof.
  intros Hy Hn. destruct (Float.isna y) eqn:E.
  - destruct y; try discriminate. apply Qle_refl.
  - apply Qlt_le_weak. apply rank_q_before; [assumption|assumption|].
    unfold ranks_before, Float.notna. simpl. now rewrite E.
Qed.

Lemma pct_asc_missing_top {R} (f : R -> Float.t) (df : list R) (a b : R) :
  In a df -> In b df -> f a = NaN ->
  pct_asc (map f df) (f b) <= pct_asc (map f df) (f a).
Proof.
  intros Ha Hb E. apply pct_asc_le; [now apply in_map|].
  rewrite E. apply rank_q_missing_top; [now apply in_map|].
  rewrite <- E. now apply in_map.
Qed.

(** X16.  Missing counts maximise Funding Tailwind: in a table with its
    derived metrics, a tract whose unserved and underserved BSL counts are
    both missing has the highest Funding Tailwind score of the table. *)
Theorem missing_counts_top_funding (dt : dtypes) (tracts : list tract) (i j : nat)
        (a b : mrow)
        (Hi : nth_error (compute_derived_metrics dt tracts) i = Some a)
        (Hj : nth_error (compute_derived_metrics dt tracts) j = Some b)
        (Hu : FCC.UnservedBSLs (fcc (base a)) = NaN)
        (Hd : FCC.UnderservedBSLs (fcc (base a)) = NaN) :
  exists sa sb,
    nth_error (score_funding_tailwind (compute_derived_metrics dt tracts)) i = Some (Fin sa)
    /\ nth_error (score_funding_tailwind (compute_derived_metrics dt tracts)) j
       = Some (Fin sb)
    /\ sb <= sa.
Proof.
  set (df := compute_derived_metrics dt tracts) in *.
  assert (Ha : In a df) by (eapply nth_error_In; eauto).
  assert (Hb : In b df) by (eapply nth_error_In; eauto).
  assert (Hm : m a = derived dt (base a)).
  { unfold df, compute_derived_metrics in Ha. apply in_map_iff in Ha.
    now destruct Ha as (t & <- & _). }
  assert (H2 : pct_unserved (m a) = NaN)
    by (rewrite Hm; unfold derived; cbn [pct_unserved]; now rewrite Hu).
  assert (H4 : pct_unserved_underserved (m a) = NaN)
    by (rewrite Hm; unfold derived; cbn [pct_unserved_underserved]; rewrite Hu;
        now destruct (promote _ _)).
  exists (funding_tailwind_at df a), (funding_tailwind_at df b).
  rewrite score_funding_tailwind_by_row, !nth_error_map, Hi, Hj. simpl.
  repeat (split; [reflexivity|]).
  unfold funding_tailwind_at, fcc_col, m_col, col.
  pose proof (pct_asc_missing_top (fun r => FCC.UnservedBSLs (fcc (base r))) df a b Ha Hb Hu).
  pose proof (pct_asc_missing_top (fun r => pct_unserved (m r)) df a b Ha Hb H2).
  pose proof (pct_asc_missing_top (fun r => FCC.UnderservedBSLs (fcc (base r))) df a b Ha Hb Hd).
  pose proof (pct_asc_missing_top (fun r => pct_unserved_underserved (m r)) df a b Ha Hb H4).
  cbv beta in *. lra.
Qed.

(** ** County aggregates *)

Lemma filter_all {A} (p : A -> bool) (l : list A) :
  (forall x, In x l -> p x = true) -> filter p l = l.
Proof.
  induction l as [|x l IH]; [reflexivity|]. simpl. intro H.
  rewrite (H x (or_introl eq_refl)). f_equal. apply IH. auto.
Qed.

Lemma fold_add_present (s : Series) (acc : Q) :
  Forall (fun x => exists q, x = Fin q) s ->
  exists q, fold_left Float.add s (Fin acc) = Fin q /\ q == acc + total s.
Proof.
  intro H. revert acc. induction H as [|x s (v & ->) _ IH]; intro acc; simpl.
  - exists acc. split; [reflexivity|]. unfold total. simpl. ring.
  - destruct (IH (acc + v)) as (q & E & Hq). exists q. split; [exact E|].
    rewrite Hq. unfold total. simpl. ring.
Qed.

Lemma notna_present (s : Series) :
  Forall (fun x => exists q, x = Fin q) s -> filter Float.notna s = s.
Proof.
  intro H. apply filter_all. rewrite Forall_forall in H.
  intros x Hx. now destruct (H x Hx) as (q & ->).
Qed.

Lemma total_bounds (lo hi : Q) (s : Series) :
  Forall (bounded lo hi) s ->
  lo * Qnat (length s) <= total s <= hi * Qnat (length s).
Proof.
  unfold total. induction 1 as [|x s (q & -> & Hq) _ IH]; simpl.
  - change (Qnat 0) with 0. lra.
  - change (S (length s)) with (1 + length s)%nat.
    rewrite Qnat_add. change (Qnat 1) with 1. lra.
Qed.

Lemma agg_mean_bounded (lo hi : Q) (s : Series) :
  s <> [] -> Forall (bounded lo hi) s ->
  exists a, agg_mean s = Fin a /\ a == total s / Qnat (length s) /\ lo <= a <= hi.
Proof.
  intros Hne Hb. pose proof (bounded_present _ _ _ Hb) as Hp.
  unfold agg_mean, agg_sum, count. rewrite (notna_present s Hp).
  destruct (fold_add_present s 0 Hp) as (q & -> & Hq).
  assert (HN : 0 < Qnat (length s)).
  { destruct s as [|x s]; [contradiction|]. apply (Qnat_length_pos x). now left. }
  unfold Float.of_nat. rewrite div_present by lra.
  exists (q / Qnat (length s)). split; [reflexivity|].
  split; [rewrite Hq; field; lra|].
  pose proof (total_bounds lo hi s Hb) as [H1 H2].
  split.
  - apply Qle_shift_div_l; lra.
  - apply Qle_shift_div_r; lra.
Qed.

Lemma fold_max_present (s : Series) (acc : Q) :
  Forall (fun x => exists q, x = Fin q) s ->
  exists q,
    fold_left (fun a x => if Float.isna a then x
                          else if Float.ltb a x then x else a) s (Fin acc)
    = Fin q
    /\ acc <= q
    /\ (forall v, In (Fin v) s -> v <= q)
    /\ (q == acc \/ exists v, In (Fin v) s /\ q == v).
Proof.
  intro H. revert acc. induction H as [|x s (v & ->) _ IH]; intro acc; simpl.
  - exists acc. split; [reflexivity|]. split; [lra|]. split; [easy|]. left. reflexivity.
  - destruct (Qlt_bool acc v) eqn:E; qprop.
    + destruct (IH v) as (q & Eq & H1 & H2 & H3). exists q.
      split; [exact Eq|]. split; [lra|]. split.
      * intros w [[= <-]|Hw]; [exact H1|auto].
      * right. destruct H3 as [H3 | (w & Hw & H3)]; [exists v|exists w]; auto.
    + destruct (IH acc) as (q & Eq & H1 & H2 & H3). exists q.
      split; [exact Eq|]. split; [lra|]. split.
      * intros w [[= <-]|Hw]; [lra|auto].
      * destruct H3 as [H3 | (w & Hw & H3)]; [left|right; exists w]; auto.
Qed.

Lemma agg_max_bounded (lo hi : Q) (s : Series) :
  s <> [] -> Forall (bounded lo hi) s ->
  exists mx, agg_max s = Fin mx
             /\ lo <= mx <= hi
             /\ forall v, In (Fin v) s -> v <= mx.
Proof.
  intros Hne Hb. pose proof (bounded_present _ _ _ Hb) as Hp.
  unfold agg_max. rewrite (notna_present s Hp).
  destruct s as [|x s]; [contradiction|].
  inversion Hb as [|? ? (v & -> & Hv) Hb']; subst.
  inversion Hp as [|? ? _ Hp']; subst. simpl.
  destruct (fold_max_present s v Hp') as (q & -> & H1 & H2 & H3).
  exists q. split; [reflexivity|]. split.
  - destruct H3 as [H3 | (w & Hw & H3)]; [lra|].
    rewrite Forall_forall in Hb'. destruct (Hb' _ Hw) as (w' & [= <-] & Hw'). lra.
  - intros w [[= <-]|Hw]; auto.
Qed.

Lemma key_eqb_refl (k : county_key) :
  Float.isna (k_rucc_code k) = false -> key_eqb k k = true.
Proof.
  intro H. unfold key_eqb. rewrite !String.eqb_refl. simpl.
  now apply FloatFacts.eqb_refl.
Qed.

Lemma group_key_in_group (r : Scored.row) (k : county_key) :
  group_key r = Some k -> in_group k r = true.
Proof.
  intro E. unfold in_group. rewrite E. apply key_eqb_refl.
  destruct (group_key_has_rurality r k E) as (H & _ & ->).
  unfold has_rurality, Float.notna in H. now rewrite negb_true_iff in H.
Qed.

(** The rows of the rollup, and the tracts behind each. *)
Lemma county_rollup_row (dt : dtypes) (df : list Scored.row) (c : County.row) :
  In c (county_rollup dt df) ->
  exists k, c = aggregate dt df k /\ filter (in_group k) df <> [].
Proof.
  unfold county_rollup. intro H. apply in_sorted_counties in H.
  apply in_map_iff in H. destruct H as (k & <- & Hk). exists k.
  split; [reflexivity|].
  apply in_group_keys in Hk. destruct Hk as (r & Hr & Ek).
  assert (Hin : In r (filter (in_group k) df))
    by (apply filter_In; auto using group_key_in_group).
  intro E. rewrite E in Hin. destruct Hin.
Qed.

(** X17.  When the run completes, every row of the county table stands
    for at least one tract, and its average and maximum composite scores
    are numbers between 2.25 and 98.6125. *)
Theorem county_rows_well_formed acs_t fcc_t rucc_t (fs fs' : files)
        (tracts : list Scored.row) (counties : list County.row)
        (Hmain : main acs_t fcc_t rucc_t fs = Some (fs', (tracts, counties))) :
  forall c, In c counties ->
    (1 <= County.tract_count c <= length tracts)%nat
    /\ exists a mx,
         County.avg_score c = Fin a
         /\ County.max_score c = Fin mx
         /\ 2.25 <= a <= 98.6125
         /\ 2.25 <= mx <= 98.6125.
Proof.
  apply main_inv in Hmain. destruct Hmain as (Hbuild & -> & _).
  destruct (build_composite_score_ranks
              (compute_derived_metrics (read_dtypes acs_t fcc_t)
                                       (load_and_merge acs_t fcc_t rucc_t)))
    as (out & E & _ & Hrows).
  rewrite Hbuild in E. injection E as <-.
  intros c Hc. apply county_rollup_row in Hc. destruct Hc as (k & -> & Hne).
  set (g := filter (in_group k) tracts) in *.
  assert (Hb : Forall (bounded 2.25 98.6125) (map Scored.opportunity_score g)).
  { apply Forall_map_in. intros r Hr. apply filter_In in Hr.
    apply (Hrows r (proj1 Hr)). }
  assert (Hne' : map Scored.opportunity_score g <> [])
    by (destruct g; [contradiction|discriminate]).
  split.
  - cbn [aggregate County.tract_count]. fold g. split.
    + destruct g; [contradiction|simpl; lia].
    + apply filter_length_le.
  - destruct (agg_mean_bounded _ _ _ Hne' Hb) as (a & Ea & _ & Hlo & Hup).
    destruct (agg_max_bounded _ _ _ Hne' Hb) as (mx & Em & Hmx & _).
    exists a, mx. cbn [aggregate County.avg_score County.max_score]. fold g.
    split; [exact Ea|]. split; [exact Em|]. split; [split; assumption|exact Hmx].
Qed.

Lemma county_rows_well_formed_witness :
  main fixture_acs fixture_fcc fixture_rucc []
  = Some (fixture_files, (fixture_tracts, fixture_counties))
  /\ length fixture_counties = 2%nat
  /\ forall c, In c fixture_counties ->
       (1 <= County.tract_count c <= length fixture_tracts)%nat
       /\ exists a mx,
            County.avg_score c = Fin a
            /\ County.max_score c = Fin mx
            /\ 2.25 <= a <= 98.6125
            /\ 2.25 <= mx <= 98.6125.
Proof.
  assert (Hfix : main fixture_acs fixture_fcc fixture_rucc []
                 = Some (fixture_files, (fixture_tracts, fixture_counties)))
    by (vm_compute; reflexivity).
  split; [exact Hfix|]. split; [vm_compute; reflexivity|].
  exact (county_rows_well_formed fixture_acs fixture_fcc fixture_rucc []
           fixture_files fixture_tracts fixture_counties Hfix).
Defined.

(** ** Order of the county table *)

Lemma avg_before_total (x y : County.row) :
  avg_before x y = false -> avg_before y x = true.
Proof.
  unfold avg_before. destruct (Float.isna (County.avg_score y)) eqn:Ey; [discriminate|].
  simpl. rewrite negb_false_iff. intro H.
  destruct (Float.ltb (County.avg_score y) (County.avg_score x)) eqn:E.
  - exfalso. exact (FloatFacts.ltb_asym _ _ H E).
  - apply orb_true_r.
Qed.

Lemma insert_county_sorted (x : County.row) (l : list County.row) :
  Sorted (fun a b => avg_before a b = true) l ->
  Sorted (fun a b => avg_before a b = true) (insert_county x l).
Proof.
  induction 1 as [|y l Hs IH Hhd]; simpl.
  - repeat constructor.
  - destruct (avg_before x y) eqn:E.
    + repeat constructor; assumption.
    + constructor; [assumption|].
      destruct l as [|z l]; simpl.
      * constructor. now apply avg_before_total.
      * destruct (avg_before x z); constructor.
        -- now apply avg_before_total.
        -- now inversion Hhd.
Qed.

Lemma county_rollup_sorted (dt : dtypes) (df : list Scored.row) :
  Sorted (fun a b => avg_before a b = true) (county_rollup dt df).
Proof.
  unfold county_rollup.
  induction (map (aggregate dt df) (group_keys df)) as [|x l IH]; simpl.
  - constructor.
  - now apply insert_county_sorted.
Qed.

Lemma sorted_adjacent {A} (R : A -> A -> Prop) (l : list A) (i : nat) (a b : A) :
  Sorted R l -> nth_error l i = Some a -> nth_error l (S i) = Some b -> R a b.
Proof.
  intro H. revert i. induction H as [|x l Hs IH Hhd]; intros [|i]; simpl; try easy.
  - intros [= ->] Hb. destruct l as [|y l]; [discriminate|].
    simpl in Hb. injection Hb as ->. now inversion Hhd.
  - apply IH.
Qed.

(** X18.  When the run completes, the county table is in descending
    order of average composite score: every average is a number, and no
    row has a higher average than the row before it. *)
Theorem county_table_descending acs_t fcc_t rucc_t (fs fs' : files)
        (tracts : list Scored.row) (counties : list County.row)
        (Hmain : main acs_t fcc_t rucc_t fs = Some (fs', (tracts, counties))) :
  forall i c1 c2,
    nth_error counties i = Some c1 ->
    nth_error counties (S i) = Some c2 ->
    exists a1 a2,
      County.avg_score c1 = Fin a1
      /\ County.avg_score c2 = Fin a2
      /\ a2 <= a1.
Proof.
  apply main_inv in Hmain. destruct Hmain as (Hbuild & Hc & _).
  destruct (build_composite_score_ranks
              (compute_derived_metrics (read_dtypes acs_t fcc_t)
                                       (load_and_merge acs_t fcc_t rucc_t)))
    as (out & E & _ & Hrows).
  rewrite Hbuild in E. injection E as <-.
  assert (Hfin : forall c, In c counties -> exists a, County.avg_score c = Fin a).
  { intros c Hin. rewrite Hc in Hin.
    apply county_rollup_row in Hin. destruct Hin as (k & -> & Hne).
    assert (Hb : Forall (bounded 2.25 98.6125)
                   (map Scored.opportunity_score (filter (in_group k) tracts))).
    { apply Forall_map_in. intros r Hr. apply filter_In in Hr.
      apply (Hrows r (proj1 Hr)). }
    assert (Hne' : map Scored.opportunity_score (filter (in_group k) tracts) <> [])
      by (destruct (filter (in_group k) tracts); [contradiction|discriminate]).
    destruct (agg_mean_bounded _ _ _ Hne' Hb) as (a & Ea & _).
    exists a. exact Ea. }
  intros i c1 c2 H1 H2.
  destruct (Hfin c1 (nth_error_In _ _ H1)) as (a1 & E1).
  destruct (Hfin c2 (nth_error_In _ _ H2)) as (a2 & E2).
  exists a1, a2. split; [exact E1|]. split; [exact E2|].
  pose proof (county_rollup_sorted (read_dtypes acs_t fcc_t) tracts) as Hs.
  rewrite <- Hc in Hs.
  pose proof (sorted_adjacent _ _ _ _ _ Hs H1 H2) as Hb. cbv beta in Hb.
  unfold avg_before in Hb. rewrite E1, E2 in Hb. simpl in Hb.
  rewrite negb_true_iff in Hb. qprop. exact Hb.
Qed.

Lemma county_table_descending_witness :
  main fixture_acs fixture_fcc fixture_rucc []
  = Some (fixture_files, (fixture_tracts, fixture_counties))
  /\ map County.CountyName fixture_counties = ["Accomack"; "Albemarle"]%string
  /\ exists a1 a2,
       map County.avg_score fixture_counties = [Fin a1; Fin a2]
       /\ a2 <= a1.
Proof.
  assert (Hfix : main fixture_acs fixture_fcc fixture_rucc []
                 = Some (fixture_files, (fixture_tracts, fixture_counties)))
    by (vm_compute; reflexivity).
  split; [exact Hfix|]. split; [vm_compute; reflexivity|].
  destruct (nth_error fixture_counties 0) as [c1|] eqn:E1;
    [|vm_compute in E1; discriminate E1].
  destruct (nth_error fixture_counties 1) as [c2|] eqn:E2;
    [|vm_compute in E2; discriminate E2].
  destruct (county_table_descending fixture_acs fixture_fcc fixture_rucc []
              fixture_files fixture_tracts fixture_counties Hfix 0%nat c1 c2 E1 E2)
    as (a1 & a2 & H1 & H2 & Hle).
  exists a1, a2. split; [|exact Hle].
  assert (Hl : length fixture_counties = 2%nat) by (vm_compute; reflexivity).
  destruct fixture_counties as [|x [|y [|z l]]]; try discriminate Hl.
  simpl in E1, E2. injection E1 as ->. injection E2 as ->.
  simpl. now rewrite H1, H2.
Defined.

Lemma missing_counts_top_funding_witness :
  exists a b sa sb,
    nth_error (compute_derived_metrics fixture_missing_counts_dtypes
                                       fixture_missing_counts) 1 = Some a
    /\ nth_error (compute_derived_metrics fixture_missing_counts_dtypes
                                          fixture_missing_counts) 0 = Some b
    /\ FCC.UnservedBSLs (fcc (base a)) = NaN
    /\ nth_error (score_funding_tailwind
                    (compute_derived_metrics fixture_missing_counts_dtypes
                                             fixture_missing_counts)) 1
       = Some (Fin sa)
    /\ nth_error (score_funding_tailwind
                    (compute_derived_metrics fixture_missing_counts_dtypes
                                             fixture_missing_counts)) 0
       = Some (Fin sb)
    /\ sb <= sa.
Proof.
  do 2 eexists.
  destruct (missing_counts_top_funding fixture_missing_counts_dtypes
              fixture_missing_counts 1 0 _ _ eq_refl eq_refl eq_refl eq_refl)
    as (sa & sb & Ha & Hb & Hle).
  exists sa, sb.
  split; [reflexivity|]. split; [reflexivity|]. split; [reflexivity|]. auto.
Defined.

(** ** Paging *)

Module PullFacts.
Import Pull.
Section Paging.
Context {feature : Type}.

Lemma firstn_more (n k : nat) (l : list feature) :
  firstn n l ++ firstn k (skipn n l) = firstn (n + k) l.
Proof.
  revert l. induction n as [|n IH]; intros [|x l]; simpl;
    try reflexivity.
  - now destruct k.
  - now rewrite IH.
Qed.

Lemma pull_loop_step (query : nat -> response feature) (fuel offset : nat)
      (acc : list feature) :
  pull_loop feature query (S fuel) offset acc
  = match query offset with
    | HttpError _ => Some acc
    | ServiceError _ => Some acc
    | Features _ [] => Some acc
    | Features _ fs =>
        if (length fs <? batch_size)%nat then Some (acc ++ fs)
        else pull_loop feature query fuel (offset + length fs) (acc ++ fs)
    end.
Proof. reflexivity. Qed.

(** The loop against a service that answers with whole pages. *)
Lemma pull_loop_service (data : list feature) (query : nat -> response feature)
      (fuel offset : nat) :
  (forall off, query off = service feature batch_size data off) ->
  (offset <= length data)%nat ->
  (length data - offset < fuel * batch_size)%nat ->
  pull_loop feature query fuel offset (firstn offset data) = Some data.
Proof.
  intros Hq. revert offset.
  induction fuel as [|fuel IH]; intros offset Hoff Hfuel; [lia|].
  rewrite pull_loop_step, Hq. unfold service.
  pose proof (length_firstn batch_size (skipn offset data)) as Hlen.
  rewrite length_skipn in Hlen.
  assert (Hb : (0 < batch_size)%nat) by (unfold batch_size; lia).
  destruct (firstn batch_size (skipn offset data)) as [|x page] eqn:E.
  - cbn [length] in Hlen.
    assert (offset = length data) by lia. subst. now rewrite firstn_all.
  - rewrite <- E in *. clear E x page.
    destruct (Nat.ltb_spec (length (firstn batch_size (skipn offset data))) batch_size)
      as [Hshort | Hfull].
    + f_equal. rewrite firstn_more. apply firstn_all2. lia.
    + rewrite firstn_more. rewrite Hlen.
      replace (Nat.min batch_size (length data - offset)) with batch_size by lia.
      apply IH; lia.
Qed.

Lemma pull_loop_until_error (data : list feature) (query : nat -> response feature)
      (j fuel offset : nat) :
  (forall off, (off < offset + j * batch_size)%nat ->
               query off = service feature batch_size data off) ->
  (query (offset + j * batch_size)%nat = HttpError feature
   \/ query (offset + j * batch_size)%nat = ServiceError feature) ->
  (offset + j * batch_size <= length data)%nat ->
  (j < fuel)%nat ->
  pull_loop feature query fuel offset (firstn offset data)
  = Some (firstn (offset + j * batch_size) data).
Proof.
  revert fuel offset. induction j as [|j IH]; intros fuel offset Hq He Hlen Hfuel;
    (destruct fuel as [|fuel]; [lia|]); rewrite pull_loop_step.
  - rewrite Nat.mul_0_l, Nat.add_0_r in *. now destruct He as [-> | ->].
  - assert (Hb : (0 < batch_size)%nat) by (unfold batch_size; lia).
    rewrite Hq by lia. unfold service.
    pose proof (length_firstn batch_size (skipn offset data)) as Hpage.
    rewrite length_skipn in Hpage.
    cbn [Nat.mul] in Hlen.
    replace (Nat.min batch_size (length data - offset)) with batch_size in Hpage by lia.
    destruct (firstn batch_size (skipn offset data)) as [|x page] eqn:E;
      [cbn [length] in Hpage; lia|].
    rewrite <- E in *. clear E x page.
    rewrite Hpage, Nat.ltb_irrefl, firstn_more.
    replace (offset + S j * batch_size)%nat with (offset + batch_size + j * batch_size)%nat
      by (cbn [Nat.mul]; lia).
    apply IH; try lia.
    + intros off Hoff. apply Hq. cbn [Nat.mul]. lia.
    + replace (offset + batch_size + j * batch_size)%nat
        with (offset + S j * batch_size)%nat by (cbn [Nat.mul]; lia).
      exact He.
Qed.

(** X19.  Against a service that answers every request with the next
    whole page of its records, the pull returns all the records, in order,
    once it is allowed more requests than there are full pages; with no
    record at all it returns nothing. *)
Theorem pull_complete (data : list feature) (query : nat -> response feature)
        (fuel : nat)
        (Hq : forall off, query off = service feature batch_size data off)
        (Hfuel : (length data < fuel * batch_size)%nat) :
  pull_state_tracts feature query fuel
  = Some (match data with [] => None | _ => Some data end).
Proof.
  unfold pull_state_tracts.
  pose proof (pull_loop_service data query fuel 0 Hq) as H.
  cbn [firstn] in H. rewrite H by lia.
  now destruct data.
Qed.

(** X20.  The loop takes a short page for the last one: when the service
    caps its pages below [batch_size], the pull stops after the first
    request and returns only the first page, whatever the number of
    records the service holds. *)
Theorem pull_truncated_by_cap (cap : nat) (data : list feature)
        (query : nat -> response feature) (fuel : nat)
        (Hq : forall off, query off = service feature cap data off)
        (Hcap : (0 < cap < batch_size)%nat)
        (Hdata : data <> []) :
  pull_state_tracts feature query (S fuel) = Some (Some (firstn cap data))
  /\ length (firstn cap data) = Nat.min cap (length data).
Proof.
  split; [|apply length_firstn].
  unfold pull_state_tracts. rewrite pull_loop_step, Hq. unfold service.
  change (skipn 0 data) with data.
  pose proof (length_firstn cap data) as Hlen.
  destruct (firstn cap data) as [|x page] eqn:E.
  - exfalso. destruct data as [|y data]; [contradiction|].
    destruct cap; [lia|discriminate].
  - rewrite <- E in *. clear E x page.
    destruct (Nat.ltb_spec (length (firstn cap data)) batch_size) as [_ | H]; [|lia].
    cbn [app]. destruct (firstn cap data) eqn:E; [|reflexivity].
    exfalso. destruct data as [|y data]; [contradiction|].
    destruct cap; [lia|discriminate].
Qed.

(** X21.  A failed request is not reported to the caller: when the
    requests for the first [k] whole pages succeed and the next one fails
    with an HTTP error or an error body, the pull returns the [k] pages it
    has as its result; when the first request fails it returns nothing. *)
Theorem pull_error_returns_partial (k : nat) (data : list feature)
        (query : nat -> response feature) (fuel : nat)
        (Hq : forall off, (off < k * batch_size)%nat ->
                          query off = service feature batch_size data off)
        (He : query (k * batch_size)%nat = HttpError feature
              \/ query (k * batch_size)%nat = ServiceError feature)
        (Hlen : (k * batch_size <= length data)%nat)
        (Hfuel : (k < fuel)%nat) :
  pull_state_tracts feature query fuel
  = Some (match firstn (k * batch_size) data with
          | [] => None
          | page => Some page
          end).
Proof.
  unfold pull_state_tracts.
  pose proof (pull_loop_until_error data query k fuel 0 Hq He Hlen Hfuel) as H.
  cbn [firstn Nat.add] in H. rewrite H.
  now destruct (firstn (k * batch_size) data).
Qed.

End Paging.
End PullFacts.

Lemma pull_complete_witness :
  Pull.pull_state_tracts nat (Pull.service nat Pull.batch_size [11; 12; 13]%nat) 1
  = Some (Some [11; 12; 13]%nat).
Proof.
  apply (PullFacts.pull_complete [11; 12; 13]%nat
           (Pull.service nat Pull.batch_size [11; 12; 13]%nat) 1).
  - reflexivity.
  - unfold Pull.batch_size. cbn [length]. lia.
Defined.

Lemma pull_truncated_by_cap_witness :
  Pull.pull_state_tracts nat (Pull.service nat 2 [11; 12; 13; 14; 15]%nat) 1
  = Some (Some [11; 12]%nat)
  /\ length (firstn 2 [11; 12; 13; 14; 15]%nat) = Nat.min 2 5.
Proof.
  apply (PullFacts.pull_truncated_by_cap 2 [11; 12; 13; 14; 15]%nat
           (Pull.service nat 2 [11; 12; 13; 14; 15]%nat) 0).
  - reflexivity.
  - unfold Pull.batch_size. lia.
  - discriminate.
Defined.

Lemma pull_error_returns_partial_witness :
  Pull.pull_state_tracts nat
    (fun off => if (off <? Pull.batch_size)%nat
                then Pull.service nat Pull.batch_size (seq 0 2500) off
                else Pull.HttpError nat) 2
  = Some (match firstn (1 * Pull.batch_size) (seq 0 2500) with
          | [] => None
          | page => Some page
          end).
Proof.
  apply (PullFacts.pull_error_returns_partial 1 (seq 0 2500)).
  - intros off H. rewrite Nat.mul_1_l in H.
    apply Nat.ltb_lt in H. now rewrite H.
  - left. rewrite Nat.mul_1_l, Nat.ltb_irrefl. reflexivity.
  - rewrite length_seq, Nat.mul_1_l. unfold Pull.batch_size. lia.
  - lia.
Defined.

(** ** The income component, row by row *)

Lemma nth_income_score (df : list mrow) (i : nat) (x : Float.t) :
  nth_error (income_filled df) i = Some x ->
  nth_error (income_score df) i
  = Some (Fin (pct_asc (income_filled df) x
               * (if Float.ltb x (Fin 30000) then 0.5 else 1.0))).
Proof.
  intro Hi. unfold income_score, sprod, low_income_penalty.
  rewrite nth_error_zipWith, nth_percentile_score_asc, nth_error_map, Hi. simpl.
  now destruct (Float.ltb x (Fin 30000)).
Qed.

(** X22.  The income component of the Demand Signal never falls as income
    rises: of two tracts, the one with the higher post-fill income has the
    strictly higher income component, and equal incomes give equal
    components; the halving below 30000 keeps the order. *)
Theorem income_score_monotone (df : list mrow) (i j : nat) (x y : Float.t)
        (Hi : nth_error (income_filled df) i = Some x)
        (Hj : nth_error (income_filled df) j = Some y)
        (Hle : Float.leb x y = true) :
  exists a b,
    nth_error (income_score df) i = Some (Fin a)
    /\ nth_error (income_score df) j = Some (Fin b)
    /\ a <= b
    /\ (Float.ltb x y = true -> a < b).
Proof.
  assert (Hx : In x (income_filled df)) by (eapply nth_error_In; eauto).
  assert (Hy : In y (income_filled df)) by (eapply nth_error_In; eauto).
  do 2 eexists.
  rewrite (nth_income_score df i x Hi), (nth_income_score df j y Hj).
  repeat (split; [reflexivity|]).
  pose proof (pct_asc_bounds _ x Hx) as [Hpx _].
  pose proof (pct_asc_le _ x y Hx (rank_q_leb _ x y Hx Hy Hle)) as Hp.
  assert (Hc : Float.ltb y (Fin 30000) = true -> Float.ltb x (Fin 30000) = true).
  { intro H. unfold Float.leb in Hle. apply orb_true_iff in Hle.
    destruct Hle as [Hlt | Heq].
    - exact (FloatFacts.ltb_trans _ _ _ Hlt H).
    - exact (FloatFacts.eqb_ltb_trans _ _ _ Heq H). }
  split.
  - destruct (Float.ltb y (Fin 30000)) eqn:Ey.
    + rewrite (Hc eq_refl). lra.
    + destruct (Float.ltb x (Fin 30000)); lra.
  - intro Hlt.
    pose proof (pct_asc_lt _ x y Hx
                  (rank_q_before _ x y Hx Hy (RankOrder.of_ltb _ _ Hlt))) as Hs.
    destruct (Float.ltb y (Fin 30000)) eqn:Ey.
    + rewrite (Hc eq_refl). lra.
    + destruct (Float.ltb x (Fin 30000)); lra.
Qed.

Lemma income_score_monotone_witness :
  exists a b,
    nth_error (income_score fixture_df) 3 = Some (Fin a)
    /\ nth_error (income_score fixture_df) 0 = Some (Fin b)
    /\ a <= b
    /\ a < b.
Proof.
  destruct (income_score_monotone fixture_df 3 0 (Fin 28000) (Fin ((28000 + 85000) / 2)))
    as (a & b & Ha & Hb & Hle & Hlt); try reflexivity.
  exists a, b. repeat (split; [assumption|]). apply Hlt. reflexivity.
Defined.

(** ** The tracts on the map *)

Lemma tier_level_moderate (x : Float.t) :
  (3 <= tier_level (cut tier_bins tier_labels x))%nat ->
  Float.leb (Fin 50) x = true.
Proof.
  destruct x as [c| | |]; try (vm_compute; lia).
  rewrite cut_tier_of. unfold tier_of.
  destruct (Qlt_bool 0 c && Qle_bool c 30); [vm_compute; lia|].
  destruct (Qlt_bool 30 c && Qle_bool c 50); [vm_compute; lia|].
  assert (Hgt : forall d : Q, Qlt_bool d c = true -> 50 <= d ->
                              Float.leb (Fin 50) (Fin c) = true).
  { intros d Hd H50. unfold Float.leb. simpl. apply orb_true_iff. left. qprop. lra. }
  destruct (Qlt_bool 50 c) eqn:E50; [intros _; apply (Hgt 50); [assumption|lra]|].
  destruct (Qlt_bool 65 c) eqn:E65; [intros _; apply (Hgt 65); [assumption|lra]|].
  destruct (Qlt_bool 80 c) eqn:E80; [intros _; apply (Hgt 80); [assumption|lra]|].
  vm_compute. lia.
Qed.

Module MapFacts.
Import MapData.
Section Selection.
Variable sample : nat -> list Scored.row -> list Scored.row.
Hypothesis sample_size :
  forall n l, (n <= length l)%nat -> length (sample n l) = n.
Hypothesis sample_from :
  forall n l r, In r (sample n l) -> In r l.

Lemma in_merge_geo (geo : list string) (scores : list Scored.row) (r : Scored.row) :
  In r (merge_geo geo scores) <-> In r scores /\ In (geoid r) geo.
Proof.
  unfold merge_geo. rewrite in_flat_map. split.
  - intros (g & Hg & Hr). apply filter_In in Hr. destruct Hr as [Hr He].
    apply String.eqb_eq in He. subst. auto.
  - intros [Hr Hg]. exists (geoid r). split; [assumption|].
    apply filter_In. split; [assumption|apply String.eqb_refl].
Qed.

(** X23.  The map shows every tract that has a geometry and a composite
    of at least 50, in particular every tract of tier Moderate, High or
    Very High; it shows at most 2000 of the tracts below 50; it shows no
    tract without a geometry and none whose composite is missing. *)
Theorem map_selection (geo : list string) (scores : list Scored.row) :
  (forall r, In r scores -> In (geoid r) geo ->
     Float.leb (Fin 50) (Scored.opportunity_score r) = true ->
     In r (map_data sample geo scores))
  /\ (forall r, In r scores -> In (geoid r) geo ->
        (3 <= tier_level (cut tier_bins tier_labels (Scored.opportunity_score r)))%nat ->
        In r (map_data sample geo scores))
  /\ (forall r, In r (map_data sample geo scores) ->
        In r scores /\ In (geoid r) geo
        /\ Float.isna (Scored.opportunity_score r) = false)
  /\ length (map_data sample geo scores)
     = (length (high_opp (merge_geo geo scores))
        + Nat.min 2000 (length (below_50 (merge_geo geo scores))))%nat.
Proof.
  assert (H1 : forall r, In r scores -> In (geoid r) geo ->
             Float.leb (Fin 50) (Scored.opportunity_score r) = true ->
             In r (map_data sample geo scores)).
  { intros r Hr Hg H50. unfold map_data. apply in_or_app. left.
    apply filter_In. split; [|assumption]. now apply in_merge_geo. }
  split; [exact H1|]. split; [|split].
  - intros r Hr Hg Ht. apply H1; auto using tier_level_moderate.
  - intros r Hr. unfold map_data in Hr. apply in_app_or in Hr.
    destruct Hr as [Hr | Hr].
    + apply filter_In in Hr. destruct Hr as [Hr H50].
      apply in_merge_geo in Hr. destruct Hr as [Hs Hg].
      repeat split; auto.
      unfold Float.leb in H50. apply orb_true_iff in H50.
      destruct H50 as [H | H].
      * apply FloatFacts.ltb_notna in H. destruct H as [_ H].
        unfold Float.notna in H. now rewrite negb_true_iff in H.
      * apply FloatFacts.eqb_notna in H. destruct H as [_ H].
        unfold Float.notna in H. now rewrite negb_true_iff in H.
    + apply sample_from in Hr. apply filter_In in Hr. destruct Hr as [Hr H50].
      apply in_merge_geo in Hr. destruct Hr as [Hs Hg].
      repeat split; auto.
      apply FloatFacts.ltb_notna in H50. destruct H50 as [H _].
      unfold Float.notna in H. now rewrite negb_true_iff in H.
  - unfold map_data, below_avg. rewrite length_app, sample_size; [reflexivity|].
    apply Nat.le_min_r.
Qed.

End Selection.
End MapFacts.

Lemma map_selection_witness :
  let geo := ["51001000100"; "51003000100"; "51999000100"]%string in
  (forall r, In r fixture_tracts -> In (MapData.geoid r) geo ->
     Float.leb (Fin 50) (Scored.opportunity_score r) = true ->
     In r (MapData.map_data (@firstn Scored.row) geo fixture_tracts))
  /\ length (MapData.map_data (@firstn Scored.row) geo fixture_tracts)
     = (length (MapData.high_opp (MapData.merge_geo geo fixture_tracts))
        + Nat.min 2000 (length (MapData.below_50 (MapData.merge_geo geo fixture_tracts))))%nat.
Proof.
  intro geo.
  destruct (MapFacts.map_selection (@firstn Scored.row)) with (geo := geo)
                                                             (scores := fixture_tracts)
    as (H1 & _ & _ & H4).
  - intros n l Hn. rewrite length_firstn. lia.
  - intros n l r Hr. rewrite <- (firstn_skipn n l). apply in_or_app. now left.
  - split; [exact H1|exact H4].
Defined.

(** ** The order of the group keys *)

Module KeyOrder.

Lemma compare_refl (s : string) : String.compare s s = Eq.
Proof.
  pose proof (String.compare_antisym s s) as H.
  destruct (String.compare s s); simpl in H; congruence.
Qed.

Lemma ascii_lt_trans (a b c : ascii) :
  Ascii.compare a b = Lt -> Ascii.compare b c = Lt -> Ascii.compare a c = Lt.
Proof.
  unfold Ascii.compare. rewrite !N.compare_lt_iff. apply N.lt_trans.
Qed.

Lemma compare_lt_trans (a b c : string) :
  String.compare a b = Lt -> String.compare b c = Lt -> String.compare a c = Lt.
Proof.
  revert b c. induction a as [|x a IH]; intros [|y b] [|z c]; simpl; try easy.
  destruct (Ascii.compare x y) eqn:Exy; try discriminate;
    destruct (Ascii.compare y z) eqn:Eyz; try discriminate.
  - apply Ascii.compare_eq_iff in Exy, Eyz. subst.
    rewrite (proj2 (N.compare_eq_iff _ _) eq_refl : Ascii.compare z z = Eq).
    apply IH.
  - apply Ascii.compare_eq_iff in Exy. subst. now rewrite Eyz.
  - apply Ascii.compare_eq_iff in Eyz. subst. now rewrite Exy.
  - now rewrite (ascii_lt_trans _ _ _ Exy Eyz).
Qed.

Lemma compare_gt_lt (a b : string) :
  String.compare a b = Gt -> String.compare b a = Lt.
Proof.
  rewrite String.compare_antisym. now destruct (String.compare b a).
Qed.

Lemma compare_eqb (a b : string) :
  String.eqb a b = true -> String.compare a b = Eq.
Proof. intro H. apply String.eqb_eq in H. subst. apply compare_refl. Qed.

Lemma compare_eq_eqb (a b : string) :
  String.compare a b = Eq -> String.eqb a b = true.
Proof. intro H. apply String.compare_eq_iff in H. subst. apply String.eqb_refl. Qed.

Lemma key_eqb_sym (a b : county_key) : key_eqb a b = key_eqb b a.
Proof.
  unfold key_eqb.
  now rewrite (String.eqb_sym (k_StateAbbr a)), (String.eqb_sym (k_CountyName a)),
              (String.eqb_sym (k_county_geoid a)), (FloatFacts.eqb_sym (k_rucc_code a)).
Qed.

Lemma eqb_fields (a b : county_key) :
  key_eqb a b = true <->
  k_StateAbbr a = k_StateAbbr b /\ k_CountyName a = k_CountyName b
  /\ k_county_geoid a = k_county_geoid b
  /\ Float.eqb (k_rucc_code a) (k_rucc_code b) = true.
Proof.
  unfold key_eqb. rewrite !andb_true_iff, !String.eqb_eq. tauto.
Qed.

Lemma key_eqb_trans (a b c : county_key) :
  key_eqb a b = true -> key_eqb b c = true -> key_eqb a c = true.
Proof.
  rewrite !eqb_fields. intros (H1 & H2 & H3 & H4) (G1 & G2 & G3 & G4).
  repeat split; try congruence. exact (FloatFacts.eqb_trans _ _ _ H4 G4).
Qed.

(** [key_ltb] as a case distinction on where the keys first differ. *)
Lemma ltb_cases (a b : county_key) :
  key_ltb a b = true <->
  String.compare (k_StateAbbr a) (k_StateAbbr b) = Lt
  \/ (k_StateAbbr a = k_StateAbbr b
      /\ (String.compare (k_CountyName a) (k_CountyName b) = Lt
          \/ (k_CountyName a = k_CountyName b
              /\ (String.compare (k_county_geoid a) (k_county_geoid b) = Lt
                  \/ (k_county_geoid a = k_county_geoid b
                      /\ Float.ltb (k_rucc_code a) (k_rucc_code b) = true))))).
Proof.
  unfold key_ltb.
  destruct (String.compare (k_StateAbbr a) (k_StateAbbr b)) eqn:E1.
  2: { split; auto. }
  2: { split; [discriminate|]. intros [H | [H _]]; [discriminate|].
       rewrite H, compare_refl in E1. discriminate. }
  apply String.compare_eq_iff in E1.
  destruct (String.compare (k_CountyName a) (k_CountyName b)) eqn:E2.
  2: { split; auto. }
  2: { split; [discriminate|]. intros [H | [_ [H | [H _]]]]; try discriminate.
       rewrite H, compare_refl in E2. discriminate. }
  apply String.compare_eq_iff in E2.
  destruct (String.compare (k_county_geoid a) (k_county_geoid b)) eqn:E3.
  2: { split; auto 10. }
  2: { split; [discriminate|].
       intros [H | [_ [H | [_ [H | [H _]]]]]]; try discriminate.
       rewrite H, compare_refl in E3. discriminate. }
  apply String.compare_eq_iff in E3.
  split; [auto 10|].
  intros [H | [_ [H | [_ [H | [_ H]]]]]]; try discriminate. exact H.
Qed.

Lemma key_ltb_eqb_disjoint (a b : county_key) :
  key_ltb a b = true -> key_eqb a b = true -> False.
Proof.
  rewrite ltb_cases, eqb_fields. intros H (E1 & E2 & E3 & E4).
  rewrite E1, E2, E3, !compare_refl in H.
  destruct H as [H | [_ [H | [_ [H | [_ H]]]]]]; try discriminate.
  rewrite FloatFacts.eqb_sym in E4. exact (FloatFacts.ltb_eqb_disjoint _ _ H E4).
Qed.

Lemma key_ltb_trans (a b c : county_key) :
  key_ltb a b = true -> key_ltb b c = true -> key_ltb a c = true.
Proof.
  rewrite !ltb_cases. destruct a, b, c. simpl.
  intros [H1 | [E1 [H2 | [E2 [H3 | [E3 H4]]]]]] [G1 | [F1 [G2 | [F2 [G3 | [F3 G4]]]]]];
    subst;
    eauto 12 using compare_lt_trans, FloatFacts.ltb_trans.
Qed.

Lemma key_trichotomy (a b : county_key) :
  valid_key a -> valid_key b ->
  key_ltb a b = true \/ key_eqb a b = true \/ key_ltb b a = true.
Proof.
  intros Ha Hb. rewrite !ltb_cases, eqb_fields.
  destruct (String.compare (k_StateAbbr a) (k_StateAbbr b)) eqn:E1;
    [|now auto|apply compare_gt_lt in E1; now auto 10].
  apply String.compare_eq_iff in E1.
  destruct (String.compare (k_CountyName a) (k_CountyName b)) eqn:E2;
    [|now auto 10|apply compare_gt_lt in E2; now auto 10].
  apply String.compare_eq_iff in E2.
  destruct (String.compare (k_county_geoid a) (k_county_geoid b)) eqn:E3;
    [|now auto 10|apply compare_gt_lt in E3; now auto 15].
  apply String.compare_eq_iff in E3.
  destruct (FloatFacts.trichotomy (k_rucc_code a) (k_rucc_code b)) as [H | [H | H]];
    try (unfold Float.notna; now rewrite ?Ha, ?Hb); auto 15.
Qed.

End KeyOrder.

(** ** Every tract in one group *)

Lemma insert_key_keeps (k x : county_key) (l : list county_key) :
  In x l -> In x (insert_key k l).
Proof.
  induction l as [|y l IH]; simpl; [easy|].
  destruct (key_eqb k y); [easy|].
  destruct (key_ltb k y); simpl; intros [<-|H]; auto.
Qed.

Lemma insert_key_member (k : county_key) (l : list county_key) :
  valid_key k -> exists x, In x (insert_key k l) /\ key_eqb x k = true.
Proof.
  intro Hk. induction l as [|y l (x & Hx & Ex)]; simpl.
  - exists k. split; [now left|now apply key_eqb_refl].
  - destruct (key_eqb k y) eqn:E.
    + exists y. split; [now left|]. now rewrite KeyOrder.key_eqb_sym.
    + destruct (key_ltb k y).
      * exists k. split; [now left|now apply key_eqb_refl].
      * exists x. split; [now right|assumption].
Qed.

Lemma insert_key_sorted (k : county_key) (l : list county_key) :
  valid_key k -> Forall valid_key l ->
  StronglySorted (fun a b => key_ltb a b = true) l ->
  StronglySorted (fun a b => key_ltb a b = true) (insert_key k l)
  /\ Forall valid_key (insert_key k l).
Proof.
  intros Hk Hv Hs. induction Hs as [|y l Hs IH Hy]; simpl.
  - split; repeat constructor; assumption.
  - inversion Hv as [|? ? Hvy Hvl]; subst.
    destruct (key_eqb k y) eqn:E; [split; [now constructor|assumption]|].
    destruct (key_ltb k y) eqn:L.
    + split; [|now constructor].
      constructor; [now constructor|].
      constructor; [assumption|].
      rewrite Forall_forall in Hy |- *. intros z Hz.
      exact (KeyOrder.key_ltb_trans _ _ _ L (Hy z Hz)).
    + destruct (IH Hvl) as [IH1 IH2]. split; [|now constructor].
      constructor; [assumption|].
      rewrite Forall_forall in Hy |- *. intros z Hz.
      apply in_insert_key in Hz. destruct Hz as [-> | Hz]; [|auto].
      destruct (KeyOrder.key_trichotomy y k Hvy Hk) as [H | [H | H]]; [assumption| |].
      * rewrite KeyOrder.key_eqb_sym in H. congruence.
      * congruence.
Qed.

Lemma group_key_valid (r : Scored.row) (k : county_key) :
  group_key r = Some k -> valid_key k.
Proof.
  intro E. destruct (group_key_has_rurality r k E) as (H & _ & Hk).
  unfold valid_key. rewrite Hk.
  unfold has_rurality, Float.notna in H. now rewrite negb_true_iff in H.
Qed.

Lemma group_keys_sorted (df : list Scored.row) :
  StronglySorted (fun a b => key_ltb a b = true) (group_keys df)
  /\ Forall valid_key (group_keys df).
Proof.
  induction df as [|r df [IH1 IH2]]; simpl; [split; constructor|].
  destruct (group_key r) as [k|] eqn:E; [|now split].
  apply insert_key_sorted; eauto using group_key_valid.
Qed.

Lemma group_keys_member (df : list Scored.row) (r : Scored.row) (k : county_key) :
  In r df -> group_key r = Some k ->
  exists x, In x (group_keys df) /\ key_eqb x k = true.
Proof.
  induction df as [|r' df IH]; simpl; [easy|].
  intros [-> | Hr] E.
  - rewrite E. apply insert_key_member. eauto using group_key_valid.
  - destruct (IH Hr E) as (x & Hx & Ex).
    destruct (group_key r'); exists x; auto using insert_key_keeps.
Qed.

Lemma count_key_le_1 (l : list county_key) (k : county_key) :
  StronglySorted (fun a b => key_ltb a b = true) l ->
  (count (fun x => key_eqb x k) l <= 1)%nat.
Proof.
  induction 1 as [|y l Hs IH Hy]; [unfold count; simpl; lia|].
  rewrite count_cons. destruct (key_eqb y k) eqn:E; [|exact IH].
  rewrite (count_ext _ (fun _ => false) l).
  - unfold count. rewrite (filter_none (fun _ => false)) by reflexivity. simpl. lia.
  - intros z Hz. destruct (key_eqb z k) eqn:Ez; [|reflexivity].
    exfalso. rewrite Forall_forall in Hy.
    apply (KeyOrder.key_ltb_eqb_disjoint y z (Hy z Hz)).
    apply (KeyOrder.key_eqb_trans y k z E). now rewrite KeyOrder.key_eqb_sym.
Qed.

(** A tract is in the group of exactly one key, or of none. *)
Lemma count_groups_of (df : list Scored.row) (r : Scored.row) :
  In r df ->
  count (fun k => in_group k r) (group_keys df) = if has_group r then 1%nat else 0%nat.
Proof.
  intro Hr. unfold has_group, in_group.
  destruct (group_key r) as [k0|] eqn:E.
  - destruct (group_keys_member df r k0 Hr E) as (x & Hx & Ex).
    pose proof (count_key_le_1 (group_keys df) k0 (proj1 (group_keys_sorted df))) as Hle.
    assert (Hge : (1 <= count (fun k => key_eqb k k0) (group_keys df))%nat)
      by (apply (count_pos _ x); assumption).
    lia.
  - unfold count. now rewrite (filter_none (fun _ => false)).
Qed.

Lemma nsum_insert_county (f : County.row -> nat) (x : County.row) (l : list County.row) :
  nsum f (insert_county x l) = (f x + nsum f l)%nat.
Proof.
  induction l as [|y l IH]; [reflexivity|]. simpl.
  destruct (avg_before x y); [reflexivity|].
  change (f y + nsum f (insert_county x l) = f x + (f y + nsum f l))%nat.
  rewrite IH. lia.
Qed.

Lemma nsum_sorted_counties (f : County.row -> nat) (l : list County.row) :
  nsum f (fold_right insert_county [] l) = nsum f l.
Proof.
  induction l as [|x l IH]; [reflexivity|]. simpl.
  rewrite nsum_insert_county. change (nsum f (x :: l)) with (f x + nsum f l)%nat.
  now rewrite IH.
Qed.

Lemma nsum_map {A B} (f : B -> nat) (g : A -> B) (l : list A) :
  nsum f (map g l) = nsum (fun x => f (g x)) l.
Proof.
  unfold nsum. induction l as [|x l IH]; [reflexivity|]. simpl. now rewrite IH.
Qed.

Lemma county_rollup_counts (dt : dtypes) (df : list Scored.row) :
  nsum County.tract_count (county_rollup dt df) = count has_group df.
Proof.
  unfold county_rollup. rewrite nsum_sorted_counties, nsum_map.
  change (fun k => County.tract_count (aggregate dt df k))
    with (fun k => count (in_group k) df).
  rewrite (nsum_ext _ (fun k => nsum (fun r => if in_group k r then 1 else 0)%nat df))
    by (intros k _; apply count_nsum).
  rewrite nsum_swap.
  rewrite (nsum_ext _ (fun r => if has_group r then 1 else 0)%nat df).
  - symmetry. apply count_nsum.
  - intros r Hr. rewrite <- count_nsum. now apply count_groups_of.
Qed.

(** X24.  When the run completes, the county table counts every tract
    once: the tract counts of its rows add up to the number of scored
    tracts that have a state, a county name and a rurality code, and to
    the number of scored tracts when none lacks them. *)
Theorem county_tract_counts acs_t fcc_t rucc_t (fs fs' : files)
        (tracts : list Scored.row) (counties : list County.row)
        (Hmain : main acs_t fcc_t rucc_t fs = Some (fs', (tracts, counties))) :
  nsum County.tract_count counties = count has_group tracts
  /\ ((forall r, In r tracts -> has_group r = true) ->
      nsum County.tract_count counties = length tracts).
Proof.
  apply main_inv in Hmain. destruct Hmain as (_ & -> & _).
  split; [apply county_rollup_counts|].
  intro Hall. rewrite county_rollup_counts. unfold count.
  now rewrite (filter_all has_group tracts Hall).
Qed.

Lemma county_tract_counts_witness :
  main fixture_acs fixture_fcc fixture_rucc []
  = Some (fixture_files, (fixture_tracts, fixture_counties))
  /\ nsum County.tract_count fixture_counties = 3%nat
  /\ count has_group fixture_tracts = 3%nat
  /\ length fixture_tracts = 4%nat.
Proof.
  assert (Hfix : main fixture_acs fixture_fcc fixture_rucc []
                 = Some (fixture_files, (fixture_tracts, fixture_counties)))
    by (vm_compute; reflexivity).
  destruct (county_tract_counts fixture_acs fixture_fcc fixture_rucc []
              fixture_files fixture_tracts fixture_counties Hfix) as (Hsum & _).
  assert (Hc : count has_group fixture_tracts = 3%nat) by (vm_compute; reflexivity).
  split; [exact Hfix|].
  split; [now rewrite Hsum|]. split; [exact Hc|]. vm_compute. reflexivity.
Defined.

(** ** When the summary ends the run *)

Lemma read_dtype_float64 (s : Series) (x : Float.t) :
  In x s -> whole x = false -> read_dtype s = float64.
Proof.
  unfold read_dtype. intros Hin Hx.
  destruct (forallb whole s) eqn:E; [|reflexivity].
  rewrite forallb_forall in E. rewrite (E x Hin) in Hx. discriminate.
Qed.

Lemma float_cell_not_whole (x : Float.t) : float_cell x = true -> whole x = false.
Proof.
  destruct x as [q| | |]; simpl; try reflexivity.
  intro H. apply negb_true_iff in H. now rewrite H.
Qed.


Lemma in_insert_scored (x y : Scored.row) (l : list Scored.row) :
  In y (insert_scored x l) <-> y = x \/ In y l.
Proof.
  induction l as [|z l IH]; simpl.
  - intuition.
  - destruct (score_before x z); simpl; [intuition|]. rewrite IH. intuition.
Qed.

Lemma in_sorted_scored (y : Scored.row) (l : list Scored.row) :
  In y (fold_right insert_scored [] l) <-> In y l.
Proof.
  induction l as [|x l IH]; simpl; [tauto|].
  rewrite in_insert_scored, IH. intuition.
Qed.

Lemma length_insert_scored (x : Scored.row) (l : list Scored.row) :
  length (insert_scored x l) = S (length l).
Proof.
  induction l as [|z l IH]; simpl; [reflexivity|].
  destruct (score_before x z); simpl; [reflexivity|]. now rewrite IH.
Qed.

Lemma length_sorted_scored (l : list Scored.row) :
  length (fold_right insert_scored [] l) = length l.
Proof.
  induction l as [|x l IH]; simpl; [reflexivity|].
  now rewrite length_insert_scored, IH.
Qed.



Lemma nlargest_nonempty (n : nat) (df : list Scored.row) :
  df <> [] -> nlargest (S n) df <> [].
Proof.
  unfold nlargest. intro H.
  pose proof (length_sorted_scored df) as Hl.
  destruct (fold_right insert_scored [] df) as [|x l]; [|discriminate].
  destruct df; [contradiction|discriminate].
Qed.

Lemma nlargest_all (n : nat) (r : Scored.row) (df : list Scored.row) :
  (length df <= n)%nat -> In r df -> In r (nlargest n df).
Proof.
  unfold nlargest. intros Hn Hr.
  rewrite firstn_all2 by now rewrite length_sorted_scored.
  now apply in_sorted_scored.
Qed.

Lemma forallb_fails {A} (p : A -> bool) (l : list A) (x : A) :
  In x l -> p x = false -> forallb p l = false.
Proof.
  intros Hin Hp. destruct (forallb p l) eqn:E; [|reflexivity].
  rewrite forallb_forall in E. rewrite (E x Hin) in Hp. discriminate.
Qed.

Lemma firstn_nonempty {A} (n : nat) (l : list A) : l <> [] -> firstn (S n) l <> [].
Proof. destruct l; [contradiction|discriminate]. Qed.

Lemma sorted_counties_nonempty (l : list County.row) :
  l <> [] -> fold_right insert_county [] l <> [].
Proof.
  destruct l as [|x l]; [contradiction|]. intros _. simpl.
  destruct (fold_right insert_county [] l) as [|y l']; simpl; [discriminate|].
  destruct (avg_before x y); discriminate.
Qed.

(** A scored tract with all its key cells present puts a row in the
    county table. *)
Lemma county_rollup_nonempty (dt : dtypes) (df : list Scored.row) (r : Scored.row) :
  In r df -> has_group r = true -> county_rollup dt df <> [].
Proof.
  intros Hr Hg. unfold has_group in Hg.
  destruct (group_key r) as [k|] eqn:Ek; [|discriminate].
  destruct (group_keys_member df r k Hr Ek) as (x & Hx & _).
  unfold county_rollup. apply sorted_counties_nonempty.
  destruct (group_keys df); [contradiction|discriminate].
Qed.

(** The scored table has a row for each tract of the loader. *)
Lemma scored_row_of acs_t fcc_t rucc_t (out : list Scored.row) (t : tract) :
  build_composite_score
    (compute_derived_metrics (read_dtypes acs_t fcc_t)
                             (load_and_merge acs_t fcc_t rucc_t)) = Some out ->
  In t (load_and_merge acs_t fcc_t rucc_t) ->
  exists r, In r out /\ base (Scored.base r) = t.
Proof.
  intros E Ht. apply build_composite_score_base in E.
  assert (H : In {| base := t; m := derived (read_dtypes acs_t fcc_t) t |}
                 (map Scored.base out)).
  { rewrite E. unfold compute_derived_metrics.
    exact (in_map (fun r => {| base := r; m := derived (read_dtypes acs_t fcc_t) r |})
                  _ t Ht). }
  apply in_map_iff in H. destruct H as (r & Er & Hr).
  exists r. split; [exact Hr|]. now rewrite Er.
Qed.


(** X25.  The summary can end the run before anything is saved.  With at
    least one tract retained, a missing or fractional TotalBSLs cell
    anywhere in the FCC file (the column is then float64, and the loop over
    the top tracts formats it with [d]) makes the run fail; so does such
    an UnservedBSLs cell when a retained tract has its
    state, county name and rurality code (the county loop formats the sum
    with [d]); and so does a retained tract without a county name when at
    most 20 tracts are retained (its name is formatted with [s]). *)
Theorem summary_ends_the_run acs_t fcc_t rucc_t (fs : files) (f : FCC.row) (t : tract)
        (Hf : In f fcc_t)
        (Ht : In t (load_and_merge acs_t fcc_t rucc_t))
        (Hcell : float_cell (FCC.TotalBSLs f) = true
                 \/ (float_cell (FCC.UnservedBSLs f) = true
                     /\ FCC.StateAbbr (fcc t) <> None
                     /\ FCC.CountyName (fcc t) <> None
                     /\ Float.isna (rucc_code t) = false)
                 \/ (FCC.CountyName (fcc t) = None
                     /\ (length (load_and_merge acs_t fcc_t rucc_t) <= 20)%nat)) :
  main acs_t fcc_t rucc_t fs = None.
Proof.
  unfold main. cbv zeta.
  destruct (build_composite_score_rows
              (compute_derived_metrics (read_dtypes acs_t fcc_t)
                                       (load_and_merge acs_t fcc_t rucc_t)))
    as (out & E & Hlen & _).
  rewrite E.
  destruct (scored_row_of _ _ _ out t E Ht) as (r & Hr & Er).
  assert (Hout : out <> []) by (intros ->; destruct Hr).
  destruct Hcell as [Hcell | [(Hcell & Hs & Hc & Hn) | (Hc & Hshort)]].
  - destruct (nlargest 20 out) as [|x l] eqn:En;
      [now apply nlargest_nonempty in En|].
    cbn [forallb]. unfold top20_line at 1. cbn [fcc_dtype read_dtypes].
    rewrite (read_dtype_float64 _ (FCC.TotalBSLs f) (in_map FCC.TotalBSLs _ _ Hf)
               (float_cell_not_whole _ Hcell)).
    cbn [is_int64]. now destruct (FCC.CountyName _).
  - destruct (forallb _ (nlargest 20 out)); [|reflexivity].
    assert (Hg : has_group r = true).
    { unfold has_group, group_key. rewrite Er, Hn.
      destruct (FCC.StateAbbr (fcc t)); [|contradiction].
      now destruct (FCC.CountyName (fcc t)). }
    pose proof (county_rollup_nonempty (read_dtypes acs_t fcc_t) out r Hr Hg) as Hne.
    destruct (county_rollup _ out) as [|c l]; [contradiction|].
    cbn [firstn forallb]. unfold county_line at 1. cbn [fcc_dtype read_dtypes].
    rewrite (read_dtype_float64 _ (FCC.UnservedBSLs f)
               (in_map FCC.UnservedBSLs _ _ Hf) (float_cell_not_whole _ Hcell)).
    cbn [is_int64]. now rewrite andb_false_r.
  - rewrite (forallb_fails _ (nlargest 20 out) r); [reflexivity| |].
    + apply nlargest_all; [|exact Hr].
      rewrite Hlen. unfold compute_derived_metrics. now rewrite length_map.
    + unfold top20_line. now rewrite Er, Hc.
Qed.

(** On the fixture with one more FCC row, whose unserved count is missing
    and whose tract the ACS table does not have, nothing is saved. *)
Lemma summary_ends_the_run_witness :
  main fixture_acs fixture_fcc_gap fixture_rucc [] = None
  /\ length (load_and_merge fixture_acs fixture_fcc_gap fixture_rucc) = 4%nat.
Proof.
  split; [|vm_compute; reflexivity].
  destruct (nth_error fixture_fcc_gap 5) as [f|] eqn:Ef;
    [|vm_compute in Ef; discriminate Ef].
  destruct (nth_error (load_and_merge fixture_acs fixture_fcc_gap fixture_rucc) 0)
    as [t|] eqn:Et; [|vm_compute in Et; discriminate Et].
  apply (summary_ends_the_run fixture_acs fixture_fcc_gap fixture_rucc [] f t).
  - eapply nth_error_In. exact Ef.
  - eapply nth_error_In. exact Et.
  - right. left.
    vm_compute in Ef. injection Ef as <-.
    vm_compute in Et. injection Et as <-.
    split; [reflexivity|]. repeat split; discriminate.
Defined.


